(** * CypherPoker analyzer: a shallow embedding of [CypherPokerAnalyzer.js]

    The development follows the source file
    [docs/demo/web/scripts/CypherPokerAnalyzer.js]: the multiset utilities
    ([compareDecks], [removeFromDeck]), the hand scorer ([straightType],
    [getCardSum], [scoreHand], [createCardPermutations], [scoreHands]) and the
    verification pipeline ([analyzeCards], [onKCSTimeout],
    [onPlayerKeychain]).

    JavaScript arrays are lists, JavaScript numbers that the analyzer
    manipulates are integers well below 2^53 and are modelled by [Z], card
    values are strings, the keychain store (an object used as a dictionary)
    is a [gmap], and objects whose enumeration order matters are association
    lists kept in enumeration order. *)

From Stdlib Require Import ZArith List Bool Lia Permutation DecimalString.
From stdpp Require Import base gmap strings.
Import ListNotations.

Local Open Scope Z_scope.

(** ** Loose equality

    [compareDecks] and [removeFromDeck] compare array elements with the
    JavaScript operator [==].  The analyzer only ever compares two strings
    (card values) or two integers (ranks), or one of these with a one-element
    array holding the other (the result of [splice(0, 1)]), which [==]
    converts back to its element.  On such operands [==] is equality. *)

Class LooseEq (A : Type) := {
  loose_eqb : A -> A -> bool;
  loose_eqb_eq : forall x y, loose_eqb x y = true <-> x = y
}.

#[global] Instance LooseEq_string : LooseEq string :=
  {| loose_eqb := String.eqb; loose_eqb_eq := String.eqb_eq |}.

#[global] Instance LooseEq_Z : LooseEq Z :=
  {| loose_eqb := Z.eqb; loose_eqb_eq := Z.eqb_eq |}.

(** ** Multiset utilities *)

Section Multiset.
Context {A : Type} `{LooseEq A}.

(** Inner [while] of [compareDecks]: scan [deck2] from index 0 and splice
    out the first element equal to [currentCard], then [break]. *)
Fixpoint spliceFirst (currentCard : A) (deck2 : list A) : list A :=
  match deck2 with
  | [] => []
  | compareCard :: rest =>
      if loose_eqb compareCard currentCard then rest
      else compareCard :: spliceFirst currentCard rest
  end.

(** Outer [while (deck1.length > 0)] of [compareDecks]; the result is the
    final content of the copy [deck2]. *)
Fixpoint compareLoop (deck1 deck2 : list A) : list A :=
  match deck1 with
  | [] => deck2
  | currentCard :: deck1' => compareLoop deck1' (spliceFirst currentCard deck2)
  end.

Definition compareDecks (deck1Arr deck2Arr : list A) : bool :=
  if negb (Nat.eqb (length deck1Arr) (length deck2Arr)) then false
  else Nat.eqb (length (compareLoop deck1Arr deck2Arr)) 0.

(** Inner [while (count2 < deckArr.length)] of [removeFromDeck]: every
    element equal to [item] is spliced out of the deck and pushed to the
    removed items; the index only advances on a mismatch.  The result is
    (items removed, in deck order; remaining deck). *)
Fixpoint spliceAll (item : A) (deckArr : list A) : list A * list A :=
  match deckArr with
  | [] => ([], [])
  | d :: rest =>
      let '(removed, kept) := spliceAll item rest in
      if loose_eqb item d then (d :: removed, kept) else (removed, d :: kept)
  end.

(** Outer [for] of [removeFromDeck], threading [removedItems] and the
    deck array that is mutated in place. *)
Fixpoint removeLoop (removeItems removedItems deckArr : list A)
  : list A * list A :=
  match removeItems with
  | [] => (removedItems, deckArr)
  | item :: rest =>
      let '(removed, kept) := spliceAll item deckArr in
      removeLoop rest (removedItems ++ removed) kept
  end.

(** [removeFromDeck] returns its boolean together with the deck array as
    the call leaves it. *)
Definition removeFromDeck (removeItems deckArr : list A) : bool * list A :=
  let '(removedItems, deckArr') := removeLoop removeItems [] deckArr in
  (Nat.eqb (length removedItems) (length removeItems), deckArr').

End Multiset.

(** ** Cards

    [CypherPokerCard] copies the enumerable properties of its [cardInfo]
    argument; the analyzer reads [suit], [value] and [highvalue]. *)

(** Modelled from the spec: the card definitions that the game loads are not
    part of the analyzer's sources.  The data model gives a card a suit taken
    from an enumeration (the four suits of the standard deck), a low weight
    [value] (ace = 1) and a high weight [highvalue] (ace = 14). *)
Inductive Suit := Clubs | Diamonds | Hearts | Spades.

Record CypherPokerCard := {
  mapping : string;
  suit : Suit;
  value : Z;
  highvalue : Z
}.

Definition Suit_eqb (a b : Suit) : bool :=
  match a, b with
  | Clubs, Clubs | Diamonds, Diamonds | Hearts, Hearts | Spades, Spades => true
  | _, _ => false
  end.

(** Modelled from the spec: the high weight of a rank (ace = 14, every other
    rank weighs its own value). *)
Definition highOf (v : Z) : Z := if v =? 1 then 14 else v.

(** Modelled from the spec: a card of the 52-card registry. *)
Definition validCard (c : CypherPokerCard) : Prop :=
  1 <= value c <= 13 /\ highvalue c = highOf (value c).

(** ** Hand scoring *)

(** [suitGroups[suit].push(currentCard)]: suits are string property names,
    which [Object.entries] lists in creation order. *)
Fixpoint pushSuitGroup (s : Suit) (c : CypherPokerCard)
    (groups : list (Suit * list CypherPokerCard))
    : list (Suit * list CypherPokerCard) :=
  match groups with
  | [] => [(s, [c])]
  | (k, g) :: rest =>
      if Suit_eqb k s then (k, g ++ [c]) :: rest
      else (k, g) :: pushSuitGroup s c rest
  end.

(** [valueGroups[value].push(currentCard)]: card values are integer property
    names (1..13).  [Object.entries] follows the order of the own property
    keys of the object, which puts integer keys first, in ascending numeric
    order, whatever the order of their creation; the entries are therefore
    kept sorted by key. *)
Fixpoint pushValueGroup (v : Z) (c : CypherPokerCard)
    (groups : list (Z * list CypherPokerCard))
    : list (Z * list CypherPokerCard) :=
  match groups with
  | [] => [(v, [c])]
  | (k, g) :: rest =>
      if k =? v then (k, g ++ [c]) :: rest
      else if v <? k then (v, [c]) :: (k, g) :: rest
      else (k, g) :: pushValueGroup v c rest
  end.

Definition suitGroupsOf (hand : list CypherPokerCard) :=
  fold_left (fun groups c => pushSuitGroup (suit c) c groups) hand [].

Definition valueGroupsOf (hand : list CypherPokerCard) :=
  fold_left (fun groups c => pushValueGroup (value c) c groups) hand [].

(** [straightType]: the [for] loop tries the windows starting at 1..9, then
    the ace-high window is tried separately. *)
Definition straightWindows : list Z := [1; 2; 3; 4; 5; 6; 7; 8; 9].

Definition straightType (cardValues : list Z) : Z :=
  if (length cardValues <? 5)%nat then 0
  else
    match find (fun count =>
                  compareDecks cardValues
                    [count; count + 1; count + 2; count + 3; count + 4])
               straightWindows with
    | Some count => count
    | None => if compareDecks cardValues [10; 11; 12; 13; 1] then 10 else 0
    end.

Definition getCardSum (cards : list CypherPokerCard) (high : bool) : Z :=
  fold_left (fun sum c => sum + (if high then highvalue c else value c)) cards 0.

Inductive HandName :=
  | RoyalFlush | StraightFlush | FourOfAKind | FullHouse | Flush
  | Straight | ThreeOfAKind | TwoPairs | OnePair | HighCard.

(** The hand permutation and score object; [name] is absent until
    [scoreHand] sets it. *)
Record HandObj := {
  hand : list CypherPokerCard;
  score : Z;
  name : option HandName
}.

(** [valueGroups[i][1].length] *)
Definition groupLen (valueGroups : list (Z * list CypherPokerCard)) (i : nat) : nat :=
  length (snd (nth i valueGroups (0, []))).

(** The kicker loops: every group whose size differs from [n] overwrites
    [valueAdjust] (an assignment, so the last such group wins). *)
Definition adjustLoop (n : nat) (valueMultiplier : Z)
    (valueGroups : list (Z * list CypherPokerCard)) (valueAdjust : Z) : Z :=
  fold_left
    (fun adjust g =>
       if negb (Nat.eqb (length (snd g)) n) then
         let cardSum := getCardSum (snd g) true in
         (cardSum * valueMultiplier * -1) + cardSum
       else adjust)
    valueGroups valueAdjust.

(** The classification chain of [scoreHand]: multiplier, name, adjustment
    and the [acesHigh] flag. *)
Definition classify (oldName : option HandName) (handLen : nat) (flush : bool)
    (straightVal : Z) (valueGroups : list (Z * list CypherPokerCard))
    : Z * option HandName * Z * bool :=
  let royalflush := (straightVal =? 10) && flush in
  let straight := royalflush || (0 <? straightVal) in
  let lowAce := straightVal =? 1 in
  let ngroups := length valueGroups in
  let len i := groupLen valueGroups i in
  if royalflush then (1000000000, Some RoyalFlush, 0, true)
  else if straight && flush then (100000000, Some StraightFlush, 0, negb lowAce)
  else if Nat.eqb ngroups 2 && Nat.leb 5 handLen then
    let '(m4, n4, a4) :=
      if Nat.eqb (len 0%nat) 4 || Nat.eqb (len 1%nat) 4
      then (10000000, Some FourOfAKind, adjustLoop 4 10000000 valueGroups 0)
      else (1, oldName, 0) in
    if Nat.eqb (len 0%nat) 3 || Nat.eqb (len 1%nat) 3
    then (1000000, Some FullHouse, a4, true)
    else (m4, n4, a4, true)
  else if flush && negb straight then (100000, Some Flush, 0, true)
  else if straight && negb flush then (10000, Some Straight, 0, negb lowAce)
  else if Nat.eqb ngroups 3 then
    if Nat.eqb (len 0%nat) 3 || Nat.eqb (len 1%nat) 3 || Nat.eqb (len 2%nat) 3
    then (1000, Some ThreeOfAKind, adjustLoop 3 1000 valueGroups 0, true)
    else (100, Some TwoPairs, adjustLoop 2 100 valueGroups 0, true)
  else if Nat.eqb ngroups 4 || Nat.eqb ngroups 1 then
    (15, Some OnePair, adjustLoop 2 15 valueGroups 0, true)
  else (1, Some HighCard, 0, true).

(** The final scan: the sum of the weights when a multiplier applies, the
    largest high weight otherwise. *)
Definition handValueOf (hand : list CypherPokerCard) (valueMultiplier : Z)
    (acesHigh : bool) : Z :=
  if 1 <? valueMultiplier then
    fold_left
      (fun handValue c => handValue + (if acesHigh then highvalue c else value c))
      hand 0
  else
    fold_left
      (fun handValue c => if handValue <? highvalue c then highvalue c else handValue)
      hand 0.

(** The part of [scoreHand] that follows the evaluation of [flush]. *)
Definition scoreWith (oldName : option HandName) (flush : bool)
    (cards : list CypherPokerCard) : HandObj :=
  let valueGroups := valueGroupsOf cards in
  let valuesArr := map value cards in
  let straightVal := straightType valuesArr in
  let '(valueMultiplier, newName, valueAdjust, acesHigh) :=
    classify oldName (length cards) flush straightVal valueGroups in
  let handValue := handValueOf cards valueMultiplier acesHigh in
  {| hand := cards;
     score := (handValue * valueMultiplier) + valueAdjust;
     name := newName |}.

Definition scoreHand (handObj : HandObj) : HandObj :=
  let cards := hand handObj in
  let suitGroups := suitGroupsOf cards in
  let flush := Nat.eqb (length suitGroups) 1 && Nat.eqb (length cards) 5 in
  scoreWith (name handObj) flush cards.

(** A fresh hand object as [scoreHands] creates it ([score = -1], no name). *)
Definition newHandObj (cards : list CypherPokerCard) : HandObj :=
  {| hand := cards; score := -1; name := None |}.

(** [createCardPermutations]: indices 0 and 1 are the private cards. *)
Definition createCardPermutations (cardsArr : list CypherPokerCard)
    : list (list CypherPokerCard) :=
  match cardsArr with
  | [c0; c1; c2; c3; c4; c5] =>
      [ [c1; c2; c3; c4; c5];
        [c0; c2; c3; c4; c5];
        [c1; c0; c3; c4; c5];
        [c1; c2; c0; c4; c5];
        [c1; c2; c3; c0; c5];
        [c1; c2; c3; c4; c0] ]
  | c0 :: c1 :: c2 :: c3 :: c4 :: c5 :: c6 :: _ =>
      [ [c2; c3; c4; c5; c6];
        [c0; c3; c4; c5; c6];
        [c2; c0; c4; c5; c6];
        [c2; c3; c0; c5; c6];
        [c2; c3; c4; c0; c6];
        [c2; c3; c4; c5; c0];
        [c1; c3; c4; c5; c6];
        [c2; c1; c4; c5; c6];
        [c2; c3; c1; c5; c6];
        [c2; c3; c4; c1; c6];
        [c2; c3; c4; c5; c1];
        [c0; c1; c4; c5; c6];
        [c0; c3; c1; c5; c6];
        [c0; c3; c4; c1; c6];
        [c0; c3; c4; c5; c1];
        [c2; c0; c1; c5; c6];
        [c2; c0; c4; c1; c6];
        [c2; c0; c4; c5; c1];
        [c2; c3; c0; c1; c6];
        [c2; c3; c0; c5; c1];
        [c2; c3; c4; c0; c1] ]
  | _ => [cardsArr]
  end.

(** ** Players, keys and the crypto primitive *)

(** Modelled from the spec: a keypair of the commutative cipher; the
    analyzer only passes keypairs on to the crypto primitive. *)
Record Keypair := {
  encKey : string;
  decKey : string;
  modulus : string
}.

(** Modelled from the spec: the player objects of the game layer, with the
    properties the analyzer reads ([account.address] appears in messages). *)
Record CypherPokerPlayer := {
  privateID : string;
  isDealer : bool;
  hasFolded : bool;
  keychain : list Keypair;
  address : string
}.

Inductive CryptoOp := Encrypt | Decrypt.

(** [this.players[count].privateID == privateID]; a player object is
    referred to by its index in [players], so that comparing two references
    with [==] is comparing two indices. *)
Fixpoint getPlayerFrom (i : nat) (players : list CypherPokerPlayer)
    (pid : string) : option nat :=
  match players with
  | [] => None
  | p :: rest =>
      if String.eqb (privateID p) pid then Some i
      else getPlayerFrom (S i) rest pid
  end.

Definition getPlayer (players : list CypherPokerPlayer) (pid : string)
    : option nat :=
  getPlayerFrom 0 players pid.

(** [keychain[keychain.length-1]], [undefined] on an empty keychain. *)
Definition lastKeypair (keychain : list Keypair) : option Keypair :=
  nth_error keychain (length keychain - 1).

(** ** Errors and outcomes *)

(** An [Error] object: its message and its [code] property when one was
    assigned. *)
Record Error := {
  message : string;
  code : option Z
}.

(** How an (async) function ends: it returns (resolves), throws an [Error]
    built by the analyzer, or fails on a property access of [undefined] or
    [null] (a [TypeError] raised by the engine). *)
Inductive Outcome (A : Type) :=
  | Resolved (a : A)
  | Rejected (e : Error)
  | TypeError.
Arguments Resolved {A} a.
Arguments Rejected {A} e.
Arguments TypeError {A}.

(** Sequencing of outcomes: the first throw ends the computation.  The
    notation [x ← m; k] is the one of stdpp's [MBind]. *)
#[global] Instance Outcome_bind : MBind Outcome := fun A B k m =>
  match m with
  | Resolved a => k a
  | Rejected e => Rejected e
  | TypeError => TypeError
  end.

#[global] Instance Outcome_ret : MRet Outcome := fun A a => Resolved a.

Definition dq : string := String (Ascii.ascii_of_nat 34) EmptyString.

(** Decimal rendering of a loop counter in a message. *)
Definition showNat (n : nat) : string :=
  DecimalString.NilEmpty.string_of_uint (Nat.to_uint n).

Definition deckStageMessage (count : nat) (fromPID : string) : string :=
  "Deck encryption at stage " +:+ showNat count +:+ " by " +:+ dq +:+ fromPID
    +:+ dq +:+ " failed.".

Definition multipleSelectMessage : string :=
  "Multiple sequential " +:+ dq +:+ "select" +:+ dq +:+ " sequences in deal.".

Definition duplicatesMessage (count : nat) (from source : string) : string :=
  "Duplicates found in " +:+ dq +:+ "select" +:+ dq +:+ " deal index "
    +:+ showNat count +:+ " for " +:+ dq +:+ from +:+ dq +:+ " for " +:+ dq
    +:+ source +:+ dq +:+ ".".

Definition finalForMessage (count : nat) (from source result : string) : string :=
  "Final decryption (deal " +:+ showNat count +:+ ") by " +:+ dq +:+ from
    +:+ dq +:+ " for " +:+ dq +:+ source +:+ dq +:+ " does not map: " +:+ result.

Definition finalMessage (count : nat) (from result : string) : string :=
  "Final decryption (deal " +:+ showNat count +:+ ") by " +:+ dq +:+ from
    +:+ dq +:+ " does not map: " +:+ result.

Definition previousRoundMessage (count : nat) (from source : string) : string :=
  "Previous round (" +:+ showNat count +:+ ") of decryption by " +:+ dq
    +:+ from +:+ dq +:+ " for " +:+ dq +:+ source +:+ dq
    +:+ " does not match computed results.".

Definition timeoutMessage (tableID : string) : string :=
  "Not all players have committed their keychains in time (table ID: "
    +:+ tableID +:+ ")".

(** [var error = new Error(msg); error.code = n;] *)
Definition codedError (msg : string) (n : Z) : Error :=
  {| message := msg; code := Some n |}.

(** ** Objects used as dictionaries with an enumeration order

    [deals], [analysis.private] and [analysis.hands] are enumerated with
    [for ... in] or read back by the caller; their property names are
    private IDs (opaque strings, not integer keys), listed in creation
    order. *)

Fixpoint objGet {V : Type} (o : list (string * V)) (k : string) : option V :=
  match o with
  | [] => None
  | (k', v) :: rest => if String.eqb k' k then Some v else objGet rest k
  end.

Fixpoint objSet {V : Type} (k : string) (v : V) (o : list (string * V))
    : list (string * V) :=
  match o with
  | [] => [(k, v)]
  | (k', v') :: rest =>
      if String.eqb k' k then (k', v) :: rest else (k', v') :: objSet k v rest
  end.

(** ** The transcript and the analysis *)

Record DeckSnapshot := {
  snap_fromPID : string;
  snap_cards : list string
}.

Inductive DealType := select | decrypt.

Record DealEntry := {
  deal_fromPID : string;
  deal_type : DealType;
  deal_private : bool;
  deal_cards : list string
}.

(** A hand object is referred to by the private ID under which it is stored
    in [hands] and its index there: [winningHands] holds references to the
    objects of [hands], not copies. *)
Definition HandRef : Type := string * nat.

(** The analysis object.  [analyzeCards] builds an object with [private] and
    [public] only and [scoreHands] adds the rest; a property that is not
    there yet reads as [false], [None] or an empty list. *)
Record Analysis := {
  private : list (string * list CypherPokerCard);
  public : list CypherPokerCard;
  complete : bool;
  error : option Error;
  hands : list (string * list HandObj);
  winningPlayers : list nat;
  winningHands : list HandRef
}.

(** The object of the [analysis] getter, and the [cardsObj] that
    [analyzeCards] starts from. *)
Definition newAnalysis : Analysis :=
  {| private := []; public := []; complete := false; error := None;
     hands := []; winningPlayers := []; winningHands := [] |}.

Definition setCards (a : Analysis) (priv : list (string * list CypherPokerCard))
    (pub : list CypherPokerCard) : Analysis :=
  {| private := priv; public := pub; complete := complete a; error := error a;
     hands := hands a; winningPlayers := winningPlayers a;
     winningHands := winningHands a |}.

Definition setVerdict (a : Analysis) (c : bool) (e : option Error) : Analysis :=
  {| private := private a; public := public a; complete := c; error := e;
     hands := hands a; winningPlayers := winningPlayers a;
     winningHands := winningHands a |}.

Definition setScores (a : Analysis) (h : list (string * list HandObj))
    (wp : list nat) (wh : list HandRef) : Analysis :=
  {| private := private a; public := public a; complete := complete a;
     error := error a; hands := h; winningPlayers := wp; winningHands := wh |}.

(** ** Winner resolution ([scoreHands]) *)

Record ScoreState := {
  highestScore : Z;
  winners : list (nat * HandRef);   (* winningPlayers / winningHands, index by index *)
  handStore : list (string * list HandObj)
}.

(** The loop over [perms] for one player. *)
Fixpoint scorePerms (player : nat) (pid : string)
    (count : nat) (perms : list (list CypherPokerCard)) (st : ScoreState)
    : ScoreState :=
  match perms with
  | [] => st
  | perm :: rest =>
      let handObj := scoreHand (newHandObj perm) in
      let stored := default [] (objGet (handStore st) pid) in
      let store' := objSet pid (stored ++ [handObj]) (handStore st) in
      let st' :=
        if score handObj =? highestScore st then
          {| highestScore := highestScore st;
             winners := winners st ++ [(player, (pid, count))];
             handStore := store' |}
        else if highestScore st <? score handObj then
          {| highestScore := score handObj;
             winners := [(player, (pid, count))];
             handStore := store' |}
        else
          {| highestScore := highestScore st;
             winners := winners st;
             handStore := store' |} in
      scorePerms player pid (S count) rest st'
  end.

(** The loop [for (var privateID in playersObj)]. *)
Fixpoint scorePlayers (players : list CypherPokerPlayer)
    (pub : list CypherPokerCard)
    (playersObj : list (string * list CypherPokerCard)) (st : ScoreState)
    : ScoreState :=
  match playersObj with
  | [] => st
  | (pid, cards) :: rest =>
      let st' :=
        match getPlayer players pid with
        | None => st
        | Some player =>
            match nth_error players player with
            | Some p =>
                if hasFolded p then st
                else
                  let fullCards := cards ++ pub in
                  let st0 := {| highestScore := highestScore st;
                                winners := winners st;
                                handStore := objSet pid [] (handStore st) |} in
                  scorePerms player pid 0 (createCardPermutations fullCards) st0
            | None => st
            end
        end in
      scorePlayers players pub rest st'
  end.

(** The hole-card score of the tie-break. *)
Definition holeScore (privateCard1 privateCard2 : CypherPokerCard) : Z :=
  if highvalue privateCard2 <? highvalue privateCard1
  then (highvalue privateCard1 * 10) + highvalue privateCard2
  else (highvalue privateCard2 * 10) + highvalue privateCard1.

(** [winningHand.score = currentScore], on the object that [hands] holds. *)
Definition setHandScore (ref : HandRef) (s : Z)
    (store : list (string * list HandObj)) : list (string * list HandObj) :=
  match objGet store (fst ref) with
  | Some hs =>
      match nth_error hs (snd ref) with
      | Some h =>
          objSet (fst ref)
            (<[snd ref := {| hand := hand h; score := s; name := name h |}]> hs)
            store
      | None => store
      end
  | None => store
  end.

(** The tie-break loop, entered when more than one candidate is left. *)
Fixpoint tieBreak (players : list CypherPokerPlayer)
    (priv : list (string * list CypherPokerCard))
    (candidates : list (nat * HandRef)) (st : ScoreState)
    : Outcome ScoreState :=
  match candidates with
  | [] => Resolved st
  | (player, winningHand) :: rest =>
      match nth_error players player with
      | None => TypeError
      | Some p =>
          match objGet priv (privateID p) with
          | Some (privateCard1 :: privateCard2 :: _) =>
              let currentScore := holeScore privateCard1 privateCard2 in
              let store' := setHandScore winningHand currentScore (handStore st) in
              let st' :=
                if highestScore st <? currentScore then
                  {| highestScore := currentScore;
                     winners := [(player, winningHand)];
                     handStore := store' |}
                else if currentScore =? highestScore st then
                  {| highestScore := highestScore st;
                     winners := winners st ++ [(player, winningHand)];
                     handStore := store' |}
                else
                  {| highestScore := highestScore st;
                     winners := winners st;
                     handStore := store' |} in
              tieBreak players priv rest st'
          | _ => TypeError
          end
      end
  end.

(** The final loop: a winner already present (the same player object) is
    not pushed again. *)
Fixpoint eliminateDuplicates (candidates acc : list (nat * HandRef))
    : list (nat * HandRef) :=
  match candidates with
  | [] => acc
  | (currentWinnerPID, currentWinningHand) :: rest =>
      if existsb (fun w => Nat.eqb (fst w) currentWinnerPID) acc
      then eliminateDuplicates rest acc
      else eliminateDuplicates rest (acc ++ [(currentWinnerPID, currentWinningHand)])
  end.

(** [scoreHands(cardsObj)]; its only caller passes the object that the
    [analysis] getter returns, so [this.analysis.private] is
    [cardsObj.private]. *)
Definition scoreHands (players : list CypherPokerPlayer) (cardsObj : Analysis)
    : Outcome Analysis :=
  let st1 := scorePlayers players (public cardsObj) (private cardsObj)
               {| highestScore := -1; winners := []; handStore := [] |} in
  st2 ← (if (1 <? length (winners st1))%nat then
            tieBreak players (private cardsObj) (winners st1)
              {| highestScore := 0; winners := []; handStore := handStore st1 |}
          else Resolved st1);
  let final := eliminateDuplicates (winners st2) [] in
  Resolved (setScores cardsObj (handStore st2) (map fst final) (map snd final)).

(** ** The analyzer instance *)

Record Analyzer := {
  players : list CypherPokerPlayer;        (* copies of the game's players *)
  tableID : string;                        (* [this.table.tableID] *)
  deck : list DeckSnapshot;
  mappedDeck : list CypherPokerCard;
  deals : list (string * list DealEntry);
  keychains : gmap string (list Keypair);
  analysis : option Analysis;              (* [this._analysis], [None] when undefined or null *)
  active : bool;
  keychainCommitTimeout : option Z;        (* the configured delay, [None] when never set *)
  timer : option Z;                        (* the pending keychain timer and its delay *)
  gameListeners : bool;                    (* the per-move listeners are registered *)
  keychainListener : bool;                 (* the keychain listener is registered *)
  dispatched : list string                 (* events dispatched so far, oldest first *)
}.

Definition setAnalysis (st : Analyzer) (a : option Analysis) : Analyzer :=
  {| players := players st; tableID := tableID st; deck := deck st;
     mappedDeck := mappedDeck st; deals := deals st; keychains := keychains st;
     analysis := a; active := active st;
     keychainCommitTimeout := keychainCommitTimeout st; timer := timer st;
     gameListeners := gameListeners st; keychainListener := keychainListener st;
     dispatched := dispatched st |}.

Definition setKeychains (st : Analyzer) (k : gmap string (list Keypair))
    : Analyzer :=
  {| players := players st; tableID := tableID st; deck := deck st;
     mappedDeck := mappedDeck st; deals := deals st; keychains := k;
     analysis := analysis st; active := active st;
     keychainCommitTimeout := keychainCommitTimeout st; timer := timer st;
     gameListeners := gameListeners st; keychainListener := keychainListener st;
     dispatched := dispatched st |}.

Definition setActive (st : Analyzer) (b : bool) : Analyzer :=
  {| players := players st; tableID := tableID st; deck := deck st;
     mappedDeck := mappedDeck st; deals := deals st; keychains := keychains st;
     analysis := analysis st; active := b;
     keychainCommitTimeout := keychainCommitTimeout st; timer := timer st;
     gameListeners := gameListeners st; keychainListener := keychainListener st;
     dispatched := dispatched st |}.

Definition setPlayers (st : Analyzer) (ps : list CypherPokerPlayer) : Analyzer :=
  {| players := ps; tableID := tableID st; deck := deck st;
     mappedDeck := mappedDeck st; deals := deals st; keychains := keychains st;
     analysis := analysis st; active := active st;
     keychainCommitTimeout := keychainCommitTimeout st; timer := timer st;
     gameListeners := gameListeners st; keychainListener := keychainListener st;
     dispatched := dispatched st |}.

(** Timer and listener bookkeeping in one update. *)
Definition setGate (st : Analyzer) (delay t : option Z) (game kc : bool)
    : Analyzer :=
  {| players := players st; tableID := tableID st; deck := deck st;
     mappedDeck := mappedDeck st; deals := deals st; keychains := keychains st;
     analysis := analysis st; active := active st;
     keychainCommitTimeout := delay; timer := t;
     gameListeners := game; keychainListener := kc;
     dispatched := dispatched st |}.

(** The [analysis] getter creates the object on first use (also after
    [_analysis] was set to [null]). *)
Definition getAnalysis (st : Analyzer) : Analysis * Analyzer :=
  match analysis st with
  | Some a => (a, st)
  | None => (newAnalysis, setAnalysis st (Some newAnalysis))
  end.

(** [dispatchEvent] of an event that carries [this.analysis]. *)
Definition dispatchEvent (st : Analyzer) (type : string) : Analyzer :=
  let st' := snd (getAnalysis st) in
  {| players := players st'; tableID := tableID st'; deck := deck st';
     mappedDeck := mappedDeck st'; deals := deals st'; keychains := keychains st';
     analysis := analysis st'; active := active st';
     keychainCommitTimeout := keychainCommitTimeout st'; timer := timer st';
     gameListeners := gameListeners st'; keychainListener := keychainListener st';
     dispatched := dispatched st' ++ [type] |}.

(** [getMappedCard] *)
Definition getMappedCard (mappedDeck : list CypherPokerCard) (m : string)
    : option CypherPokerCard :=
  find (fun c => String.eqb (mapping c) m) mappedDeck.

(** [this.getPlayer(pid).account.address], a [TypeError] when no player has
    that private ID. *)
Definition addressOf (players : list CypherPokerPlayer) (pid : string)
    : Outcome string :=
  match getPlayer players pid with
  | Some i =>
      match nth_error players i with
      | Some p => Resolved (address p)
      | None => TypeError
      end
  | None => TypeError
  end.

(** The loop of [allKeychainsCommitted]: a player without a stored keychain
    gets a copy of the keychain of the player object; the first empty
    keychain ends the loop. *)
Fixpoint commitLoop (players : list CypherPokerPlayer)
    (kcs : gmap string (list Keypair)) : bool * gmap string (list Keypair) :=
  match players with
  | [] => (true, kcs)
  | player :: rest =>
      let kcs' :=
        match kcs !! privateID player with
        | None => <[privateID player := keychain player]> kcs
        | Some _ => kcs
        end in
      match kcs' !! privateID player with
      | Some (_ :: _) => commitLoop rest kcs'
      | _ => (false, kcs')
      end
  end.

Definition allKeychainsCommitted (st : Analyzer) : bool * Analyzer :=
  let '(b, kcs) := commitLoop (players st) (keychains st) in
  (b, setKeychains st kcs).

(** [onKCSTimeout(context, game)], the timer callback:
    [context.analysis.complete = true], then the [throw]. *)
Definition onKCSTimeout (context : Analyzer) : Outcome unit * Analyzer :=
  let '(a, st) := getAnalysis context in
  let st' := setAnalysis st (Some (setVerdict a true (error a))) in
  (Rejected {| message := timeoutMessage (tableID st'); code := None |}, st').

(** [onGameAnalyze]: the players are refreshed from the game, the own
    keychain is stored, the per-move listeners are removed and the keychain
    timer is armed with the delay of the [keychainCommitTimeout] getter
    (10000 when never set).  The source keeps the timer handle in the
    property that held the delay; the handle is only passed to
    [clearTimeout], which is [timer := None] here. *)
Definition onGameAnalyze (st : Analyzer) (gamePlayers : list CypherPokerPlayer)
    (ownPID : string) : Outcome bool * Analyzer :=
  let st1 := setPlayers st gamePlayers in
  match getPlayer gamePlayers ownPID with
  | None => (TypeError, st1)
  | Some i =>
      match nth_error gamePlayers i with
      | None => (TypeError, st1)
      | Some own =>
          let st2 := setKeychains st1 (<[ownPID := keychain own]> (keychains st1)) in
          let delay := default 10000 (keychainCommitTimeout st2) in
          (Resolved true,
           setGate st2 (Some delay) (Some delay) false (keychainListener st2))
      end
  end.

(** ** Cryptographic verification ([analyzeCards]) *)

Section Verification.

(** The crypto primitive, an external collaborator:
    [invoke op value keypair] is the [data.result] of the promise that
    [this.cypherpoker.crypto.invoke(op, {value, keypair})] resolves to. *)
Variable invoke : CryptoOp -> string -> option Keypair -> string.

(** A batch of [invoke] calls under the last keypair of [keychain].  The
    keypair expression [keychain[keychain.length-1]] is evaluated once per
    value, so an [undefined] keychain only fails a non-empty batch. *)
Definition cryptAll (op : CryptoOp) (keychain : option (list Keypair))
    (values : list string) : Outcome (list string) :=
  match values with
  | [] => Resolved []
  | _ :: _ =>
      match keychain with
      | None => TypeError
      | Some kc => Resolved (map (fun v => invoke op v (lastKeypair kc)) values)
      end
  end.

(** Result of step 1, the replay of the deck encryptions. *)
Inductive DeckCheck :=
  | DeckPassed (encryptedDeck : list string)
  | DeckFailed (count : nat) (fromPID : string)
  | DeckTypeError.

(** The loop [for (var count = 1; count < this.deck.length; count++)];
    [snapshots] are the entries from index [count] on. *)
Fixpoint verifyDeck (kcs : gmap string (list Keypair))
    (previousDeck : list string) (count : nat) (snapshots : list DeckSnapshot)
    : DeckCheck :=
  match snapshots with
  | [] => DeckPassed previousDeck
  | snapshot :: rest =>
      let currentDeck := snap_cards snapshot in
      let keychain := kcs !! snap_fromPID snapshot in
      match cryptAll Encrypt keychain previousDeck with
      | Resolved compareDeck =>
          if compareDecks currentDeck compareDeck
          then verifyDeck kcs currentDeck (S count) rest
          else DeckFailed count (snap_fromPID snapshot)
      | _ => DeckTypeError
      end
  end.

Definition pushPrivate (sourcePID : string) (card : CypherPokerCard)
    (cardsObj : Analysis) : Analysis :=
  setCards cardsObj
    (objSet sourcePID (default [] (objGet (private cardsObj) sourcePID) ++ [card])
       (private cardsObj))
    (public cardsObj).

Definition pushPublic (card : CypherPokerCard) (cardsObj : Analysis) : Analysis :=
  setCards cardsObj (private cardsObj) (public cardsObj ++ [card]).

(** [if (cardsObj.private[sourcePID] == undefined) ... = new Array()] *)
Definition ensurePrivate (sourcePID : string) (cardsObj : Analysis) : Analysis :=
  match objGet (private cardsObj) sourcePID with
  | Some _ => cardsObj
  | None => setCards cardsObj (objSet sourcePID [] (private cardsObj)) (public cardsObj)
  end.

(** The loops over the results of a final decryption: each result must be
    the mapping of a card of the mapped deck. *)
Fixpoint dealCards (mapped : list CypherPokerCard)
    (noMap : string -> Outcome Error) (isPrivate : bool) (sourcePID : string)
    (results : list string) (cardsObj : Analysis) : Outcome Analysis :=
  match results with
  | [] => Resolved cardsObj
  | result :: rest =>
      match getMappedCard mapped result with
      | None => e ← noMap result; Rejected e
      | Some card =>
          dealCards mapped noMap isPrivate sourcePID rest
            (if isPrivate then pushPrivate sourcePID card cardsObj
             else pushPublic card cardsObj)
      end
  end.

(** [removeFromDeck(cards, encryptedDeck)] with its error. *)
Definition selectFromDeck (cards encryptedDeck : list string)
    (duplicates : Outcome Error) : Outcome (list string) :=
  let '(ok, encryptedDeck') := removeFromDeck cards encryptedDeck in
  if ok then Resolved encryptedDeck' else (e ← duplicates; Rejected e).

(** One iteration of the loop over a deal array of length [len]. *)
Definition dealStep (st : Analyzer) (sourcePID : string) (len count : nat)
    (previousDeal : option DealEntry) (currentDeal : DealEntry)
    (encryptedDeck : list string) (cardsObj : Analysis)
    : Outcome (list string * Analysis) :=
  let previousType :=
    match previousDeal with Some p => deal_type p | None => select end in
  let previousCards :=
    match previousDeal with Some p => deal_cards p | None => [] end in
  let previousPrivate :=
    match previousDeal with Some p => deal_private p | None => false end in
  let fromPID := deal_fromPID currentDeal in
  let privateDeal := deal_private currentDeal in
  let cards := deal_cards currentDeal in
  let cardsObj := ensurePrivate sourcePID cardsObj in
  let final :=
    (* final decryption for source *)
    results ← cryptAll Decrypt (keychains st !! sourcePID) cards;
    cardsObj' ← dealCards (mappedDeck st)
      (fun r => Resolved (codedError (finalMessage count fromPID r) 2))
      privateDeal sourcePID results cardsObj;
    Resolved (encryptedDeck, cardsObj') in
  let continuing :=
    (* continuing decryption from another player *)
    compareDeck ← cryptAll Decrypt (keychains st !! fromPID) previousCards;
    if compareDecks compareDeck cards then Resolved (encryptedDeck, cardsObj)
    else
      from ← addressOf (players st) fromPID;
      source ← addressOf (players st) sourcePID;
      Rejected (codedError (previousRoundMessage count from source) 2) in
  match previousType, deal_type currentDeal with
  | select, select =>
      if (0 <? count)%nat then Rejected (codedError multipleSelectMessage 2)
      else
        encryptedDeck' ← selectFromDeck cards encryptedDeck
          (Resolved (codedError (duplicatesMessage count fromPID sourcePID) 2));
        Resolved (encryptedDeck', cardsObj)
  | select, decrypt =>
      if (count <? len - 1)%nat then Resolved (encryptedDeck, cardsObj)
      else if Nat.eqb count (len - 1) then final
      else continuing
  | decrypt, select =>
      results ← cryptAll Decrypt (keychains st !! sourcePID) previousCards;
      cardsObj' ← dealCards (mappedDeck st)
        (fun r =>
           from ← addressOf (players st) fromPID;
           source ← addressOf (players st) sourcePID;
           Resolved (codedError (finalForMessage count from source r) 2))
        previousPrivate sourcePID results cardsObj;
      encryptedDeck' ← selectFromDeck cards encryptedDeck
        (from ← addressOf (players st) fromPID;
         source ← addressOf (players st) sourcePID;
         Resolved (codedError (duplicatesMessage count from source) 2));
      Resolved (encryptedDeck', cardsObj')
  | decrypt, decrypt =>
      if Nat.eqb count (len - 1) then final else continuing
  end.

(** The loop over one deal array. *)
Fixpoint dealLoop (st : Analyzer) (sourcePID : string) (len count : nat)
    (previousDeal : option DealEntry) (entries : list DealEntry)
    (encryptedDeck : list string) (cardsObj : Analysis)
    : Outcome (list string * Analysis) :=
  match entries with
  | [] => Resolved (encryptedDeck, cardsObj)
  | currentDeal :: rest =>
      '(encryptedDeck', cardsObj') ←
        dealStep st sourcePID len count previousDeal currentDeal
          encryptedDeck cardsObj;
      dealLoop st sourcePID len (S count) (Some currentDeal) rest
        encryptedDeck' cardsObj'
  end.

(** The loop [for (var privateID in this.deals)]. *)
Fixpoint verifyDeals (st : Analyzer) (dealsObj : list (string * list DealEntry))
    (encryptedDeck : list string) (cardsObj : Analysis)
    : Outcome (list string * Analysis) :=
  match dealsObj with
  | [] => Resolved (encryptedDeck, cardsObj)
  | (privateID, dealArray) :: rest =>
      '(encryptedDeck', cardsObj') ←
        dealLoop st privateID (length dealArray) 0 None dealArray
          encryptedDeck cardsObj;
      verifyDeals st rest encryptedDeck' cardsObj'
  end.

(** [this._analysis.error = error; this._analysis.complete = true;
    throw (error);] *)
Definition throwError {A : Type} (st : Analyzer) (e : Error)
    : Outcome A * Analyzer :=
  match analysis st with
  | None => (TypeError, st)
  | Some a => (Rejected e, setAnalysis st (Some (setVerdict a true (Some e))))
  end.

(** Step 2 of [analyzeCards], entered with the fully encrypted deck. *)
Definition analyzeDeals (st : Analyzer) (encryptedDeck : list string)
    : Outcome (option Analysis) * Analyzer :=
  match verifyDeals st (deals st) encryptedDeck newAnalysis with
  | Resolved (_, cardsObj) => (Resolved (Some cardsObj), st)
  | Rejected e => throwError st e
  | TypeError => (TypeError, st)
  end.

(** [analyzeCards]: the promise resolves with [null] ([None]) or with the
    cards object; the second component is the analyzer as the call leaves
    it. *)
Definition analyzeCards (st : Analyzer) : Outcome (option Analysis) * Analyzer :=
  match deck st with
  | [] => (Resolved None, st)
  | generated :: snapshots =>
      let faceUpMappings := snap_cards generated in
      match verifyDeck (keychains st) faceUpMappings 1 snapshots with
      | DeckTypeError => (TypeError, st)
      | DeckFailed count fromPID =>
          throwError st (codedError (deckStageMessage count fromPID) 1)
      | DeckPassed encryptedDeck => analyzeDeals st encryptedDeck
      end
  end.

(** [onPlayerKeychain]: the keychain of the event is stored; once every
    player has a keychain the timer is cleared and the hand is analyzed and
    scored.  A rejected analysis is caught (logged) and the handler returns
    [false].  A [scoreHands] that fails leaves the handler on a
    [TypeError]; the hands it had stored by then are not kept here. *)
Definition onPlayerKeychain (st : Analyzer) (pid : string)
    (kc : list Keypair) : Outcome bool * Analyzer :=
  let st1 := setActive st true in
  let st2 := setKeychains st1 (<[pid := kc]> (keychains st1)) in
  let '(all, st3) := allKeychainsCommitted st2 in
  if all then
    let st4 := setGate st3 (keychainCommitTimeout st3) None
                 (gameListeners st3) false in
    let st5 := dispatchEvent st4 "analyzing" in
    match analyzeCards st5 with
    | (Resolved result, st6) =>
        let st7 := dispatchEvent (setAnalysis st6 result) "analyzed" in
        match analysis st7 with
        | None => (TypeError, st7)
        | Some cardsObj =>
            match scoreHands (players st7) cardsObj with
            | Resolved scored =>
                let st8 := setAnalysis st7 (Some (setVerdict scored true None)) in
                (Resolved true, setActive (dispatchEvent st8 "scored") false)
            | Rejected e => (Rejected e, st7)
            | TypeError => (TypeError, st7)
            end
        end
    | (_, st6) => (Resolved false, st6)
    end
  else (Resolved true, st3).

End Verification.

(** ** Vocabulary of the statements *)

Section MultisetVocabulary.
Context {A : Type} `{LooseEq A}.

(** [y] equals some element of [items]. *)
Definition matchesAny (items : list A) (y : A) : bool :=
  existsb (fun x => loose_eqb x y) items.

(** The deck without the elements that equal some element of [items]. *)
Definition remainingDeck (items deckArr : list A) : list A :=
  List.filter (fun y => negb (matchesAny items y)) deckArr.

(** Number of elements of [l] equal to [x]. *)
Definition occurrences (x : A) (l : list A) : nat :=
  length (List.filter (loose_eqb x) l).

(** Number of elements that a call of [removeFromDeck] takes out of the
    deck. *)
Definition removedCount (items deckArr : list A) : nat :=
  length deckArr - length (snd (removeFromDeck items deckArr)).

End MultisetVocabulary.

(** Two lists of value groups with the same keys, group by group, and the
    same cards in each group up to their order. *)
Definition groupEquiv (g g' : list (Z * list CypherPokerCard)) : Prop :=
  Forall2 (fun a b => fst a = fst b /\ Permutation (snd a) (snd b)) g g'.

(** What [classify] reads of the value groups: the size and the high sum of
    each group. *)
Definition profile (g : list (Z * list CypherPokerCard)) : list (nat * Z) :=
  map (fun kg => (length (snd kg), getCardSum (snd kg) true)) g.

(** All the cards of a non-empty hand have the suit of the first one. *)
Definition sameSuit (h : list CypherPokerCard) : bool :=
  match h with
  | [] => false
  | c :: t => forallb (fun d => Suit_eqb (suit c) (suit d)) t
  end.

(** The same card weights under another mapping and suit. *)
Definition mapGroups (f : CypherPokerCard -> CypherPokerCard)
    (g : list (Z * list CypherPokerCard)) : list (Z * list CypherPokerCard) :=
  map (fun kg => (fst kg, map f (snd kg))) g.

(** *** Hands of the standard deck and their classes *)

(** A hand of five distinct cards of the 52-card registry. *)
Definition validHand (h : list CypherPokerCard) : Prop :=
  length h = 5%nat /\ Forall validCard h
  /\ List.NoDup (map (fun c => (suit c, value c)) h).

Fixpoint insertZ (x : Z) (l : list Z) : list Z :=
  match l with
  | [] => [x]
  | y :: t => if x <=? y then x :: l else y :: insertZ x t
  end.

(** The values of a hand in non-decreasing order. *)
Definition sortZ (l : list Z) : list Z := fold_right insertZ [] l.

Fixpoint nondecreasing (l : list Z) : bool :=
  match l with
  | x :: (y :: _) as t => (x <=? y) && nondecreasing t
  | _ => true
  end.

Fixpoint nodupb (l : list Z) : bool :=
  match l with
  | [] => true
  | x :: t => negb (existsb (Z.eqb x) t) && nodupb t
  end.

Definition allEqual (l : list Z) : bool :=
  match l with
  | [] => true
  | x :: t => forallb (Z.eqb x) t
  end.

(** The class of a hand by the usual rules of poker, read off its values in
    non-decreasing order and whether its five cards share a suit. *)
Definition standardClass (flush : bool) (sorted : list Z) : HandName :=
  match sorted with
  | [a; b; c; d; e] =>
      let distinct := (a <? b) && (b <? c) && (c <? d) && (d <? e) in
      let aceHigh :=
        (a =? 1) && (b =? 10) && (c =? 11) && (d =? 12) && (e =? 13) in
      let straight := distinct && ((e =? a + 4) || aceHigh) in
      if flush && aceHigh then RoyalFlush
      else if flush && straight then StraightFlush
      else if (a =? d) || (b =? e) then FourOfAKind
      else if ((a =? c) && (d =? e)) || ((a =? b) && (c =? e)) then FullHouse
      else if flush then Flush
      else if straight then Straight
      else if (a =? c) || (b =? d) || (c =? e) then ThreeOfAKind
      else if ((a =? b) && ((c =? d) || (d =? e))) || ((b =? c) && (d =? e))
           then TwoPairs
      else if (a =? b) || (b =? c) || (c =? d) || (d =? e) then OnePair
      else HighCard
  | _ => HighCard
  end.

Definition pokerClass (h : list CypherPokerCard) : HandName :=
  standardClass (sameSuit h) (sortZ (map value h)).

(** Position in the ranking table, the best class first. *)
Definition classRank (n : HandName) : nat :=
  match n with
  | RoyalFlush => 0 | StraightFlush => 1 | FourOfAKind => 2 | FullHouse => 3
  | Flush => 4 | Straight => 5 | ThreeOfAKind => 6 | TwoPairs => 7
  | OnePair => 8 | HighCard => 9
  end.

Definition outranks (n1 n2 : HandName) : Prop :=
  (classRank n1 < classRank n2)%nat.

(** The least and the greatest score of each class. *)
Definition classRange (n : HandName) : Z * Z :=
  match n with
  | RoyalFlush => (60000000000, 60000000000)
  | StraightFlush => (1500000000, 5500000000)
  | FourOfAKind => (80000003, 560000013)
  | FullHouse => (12000000, 68000000)
  | Flush => (2100000, 5900000)
  | Straight => (150000, 600000)
  | ThreeOfAKind => (9004, 54013)
  | TwoPairs => (1004, 5412)
  | OnePair => (170, 778)
  | HighCard => (7, 14)
  end.

Definition HandName_eqb (a b : HandName) : bool :=
  Nat.eqb (classRank a) (classRank b).

(** A card that only carries its weights. *)
Definition plainCard (v : Z) : CypherPokerCard :=
  {| mapping := EmptyString; suit := Spades; value := v; highvalue := highOf v |}.

Definition stripCard (c : CypherPokerCard) : CypherPokerCard :=
  {| mapping := EmptyString; suit := Spades; value := value c;
     highvalue := highvalue c |}.

Definition ranks : list Z := [1; 2; 3; 4; 5; 6; 7; 8; 9; 10; 11; 12; 13].

Definition ranksFrom (x : Z) : list Z := List.filter (fun y => x <=? y) ranks.

(** Every non-decreasing list of five ranks. *)
Definition sortedHands : list (list Z) :=
  flat_map (fun a =>
    flat_map (fun b =>
      flat_map (fun c =>
        flat_map (fun d =>
          map (fun e => [a; b; c; d; e]) (ranksFrom d))
          (ranksFrom c))
        (ranksFrom b))
      (ranksFrom a))
    ranks.

(** Value lists that five distinct cards can show: no repeated value when
    the cards share a suit, and never five times the same value. *)
Definition admissible (flush : bool) (vs : list Z) : bool :=
  if flush then nodupb vs else negb (allEqual vs).

(** The scorer names the hand by its standard class and the score lies in
    the range of that class. *)
Definition checkScore (flush : bool) (vs : list Z) : bool :=
  let r := scoreWith None flush (map plainCard vs) in
  let n := standardClass flush vs in
  match name r with
  | Some m =>
      HandName_eqb m n
      && (fst (classRange n) <=? score r) && (score r <=? snd (classRange n))
  | None => false
  end.

Definition checkHand (vs : list Z) : bool :=
  implb (admissible true vs) (checkScore true vs)
  && implb (admissible false vs) (checkScore false vs).

(** The score that [scoreHands] gives to a permutation. *)
Definition handScore (perm : list CypherPokerCard) : Z :=
  score (scoreHand (newHandObj perm)).

(** *** Winner resolution *)

(** Player [i] (a reference into [players]) has not folded and [perm] is
    one of the permutations that [scoreHands] scores for that player. *)
Definition contender (players : list CypherPokerPlayer) (cardsObj : Analysis)
    (i : nat) (perm : list CypherPokerCard) : Prop :=
  exists pid cards p,
    In (pid, cards) (private cardsObj)
    /\ getPlayer players pid = Some i
    /\ nth_error players i = Some p
    /\ hasFolded p = false
    /\ In perm (createCardPermutations (cards ++ public cardsObj)).

(** Every card of the analysis is a card of the registry. *)
Definition registeredCards (cardsObj : Analysis) : Prop :=
  Forall validCard (public cardsObj)
  /\ forall pid cards, In (pid, cards) (private cardsObj) ->
       Forall validCard cards.

(** [S] is the best score over all contenders. *)
Definition topScore (players : list CypherPokerPlayer) (cardsObj : Analysis)
    (S : Z) : Prop :=
  forall i perm, contender players cardsObj i perm -> handScore perm <= S.

(** The hole-card score of player [i]: the larger high weight of the first
    two private cards times 10 plus the smaller one. *)
Definition tiebreakOf (players : list CypherPokerPlayer) (cardsObj : Analysis)
    (i : nat) : option Z :=
  match nth_error players i with
  | Some p =>
      match objGet (private cardsObj) (privateID p) with
      | Some (privateCard1 :: privateCard2 :: _) =>
          Some (holeScore privateCard1 privateCard2)
      | _ => None
      end
  | None => None
  end.

(** The first loop, seen through what it has scored so far. *)
Record bestSoFar (seen : nat -> list CypherPokerCard -> Prop) (st : ScoreState)
    : Prop := {
  best_bound : forall i perm, seen i perm -> handScore perm <= highestScore st;
  best_floor : -1 <= highestScore st;
  best_attained :
    highestScore st = -1 \/
    exists i perm, seen i perm /\ handScore perm = highestScore st;
  best_sound : forall c, In c (winners st) ->
    exists perm, seen (fst c) perm /\ handScore perm = highestScore st;
  best_complete : forall i perm, seen i perm ->
    handScore perm = highestScore st -> In i (map fst (winners st))
}.


(** *** Deck verification *)

Definition setDeals (st : Analyzer) (d : list (string * list DealEntry))
    : Analyzer :=
  {| players := players st; tableID := tableID st; deck := deck st;
     mappedDeck := mappedDeck st; deals := d; keychains := keychains st;
     analysis := analysis st; active := active st;
     keychainCommitTimeout := keychainCommitTimeout st; timer := timer st;
     gameListeners := gameListeners st; keychainListener := keychainListener st;
     dispatched := dispatched st |}.

(** Every card of [previous] encrypted under the last keypair of the
    keychain stored for the sender of [current]. *)
Definition reEncrypt (invoke : CryptoOp -> string -> option Keypair -> string)
    (kcs : gmap string (list Keypair)) (previous current : DeckSnapshot)
    : list string :=
  map (fun v => invoke Encrypt v
                  (lastKeypair (default [] (kcs !! snap_fromPID current))))
      (snap_cards previous).

(** Stage [i] (counted from 1) replays snapshot [i] from snapshot [i-1]:
    the stage holds when the re-encrypted cards and the cards of the
    snapshot are equal as multisets. *)
Definition stageHolds (invoke : CryptoOp -> string -> option Keypair -> string)
    (kcs : gmap string (list Keypair)) (previous current : DeckSnapshot)
    : Prop :=
  Permutation (reEncrypt invoke kcs previous current) (snap_cards current).

(** The snapshots [i-1] and [i] of stage [i] of a captured deck. *)
Definition stageOf (deckArr : list DeckSnapshot) (i : nat)
    : option (DeckSnapshot * DeckSnapshot) :=
  match nth_error deckArr (i - 1), nth_error deckArr i with
  | Some previous, Some current => if (0 <? i)%nat then Some (previous, current) else None
  | _, _ => None
  end.

(** *** Sample data for the worked instances *)

Module Sample.

Definition card (s : Suit) (v : Z) : CypherPokerCard :=
  {| mapping := EmptyString; suit := s; value := v; highvalue := highOf v |}.

Definition kp1 : Keypair := {| encKey := "1"; decKey := "1"; modulus := "m" |}.
Definition kp2 : Keypair := {| encKey := "2"; decKey := "2"; modulus := "m" |}.

(** A toy primitive: encryption appends the key, decryption is the
    identity. *)
Definition toyInvoke (op : CryptoOp) (v : string) (k : option Keypair)
    : string :=
  match op, k with
  | Encrypt, Some kp => v +:+ encKey kp
  | _, _ => v
  end.

Definition P1 : CypherPokerPlayer :=
  {| privateID := "P1"; isDealer := true; hasFolded := false;
     keychain := [kp1]; address := "addr1" |}.

Definition P2 : CypherPokerPlayer :=
  {| privateID := "P2"; isDealer := false; hasFolded := false;
     keychain := [kp2]; address := "addr2" |}.

(** [P2] as the analyzer sees it before its keychain was committed. *)
Definition P2pending : CypherPokerPlayer :=
  {| privateID := "P2"; isDealer := false; hasFolded := false;
     keychain := []; address := "addr2" |}.

Definition generated : DeckSnapshot :=
  {| snap_fromPID := "P1"; snap_cards := ["a"; "b"] |}.
Definition stage1 : DeckSnapshot :=
  {| snap_fromPID := "P1"; snap_cards := ["b1"; "a1"] |}.
(** The second encryption, with one card replaced. *)
Definition stage2 : DeckSnapshot :=
  {| snap_fromPID := "P2"; snap_cards := ["a12"; "x"] |}.

Definition someDeals : list (string * list DealEntry) :=
  [("P1", [{| deal_fromPID := "P1"; deal_type := select;
              deal_private := true; deal_cards := ["a12"] |}])].

Definition bothKeychains : gmap string (list Keypair) :=
  <["P1" := [kp1]]> (<["P2" := [kp2]]> ∅).

(** An analyzer at the gate, with a tampered second snapshot. *)
Definition tampered : Analyzer :=
  {| players := [P1; P2]; tableID := "table"; deck := [generated; stage1; stage2];
     mappedDeck := []; deals := someDeals; keychains := bothKeychains;
     analysis := Some newAnalysis; active := true;
     keychainCommitTimeout := Some 10000; timer := None;
     gameListeners := false; keychainListener := false;
     dispatched := ["analyzing"] |}.

(** An analyzer that captured no deck snapshot. *)
Definition noDeck : Analyzer :=
  {| players := [P1; P2]; tableID := "table"; deck := [];
     mappedDeck := []; deals := []; keychains := bothKeychains;
     analysis := Some newAnalysis; active := true;
     keychainCommitTimeout := Some 10000; timer := None;
     gameListeners := false; keychainListener := false;
     dispatched := ["analyzing"] |}.

(** An analyzer during play, before the [gameanalyze] event. *)
Definition playing : Analyzer :=
  {| players := [P1; P2pending]; tableID := "table";
     deck := [generated; stage1];
     mappedDeck := []; deals := []; keychains := ∅;
     analysis := None; active := true;
     keychainCommitTimeout := None; timer := None;
     gameListeners := true; keychainListener := true;
     dispatched := [] |}.

(** The showdown of the split pot: the board is a royal flush and both
    players hold a three and a two. *)
Definition board : list CypherPokerCard :=
  [card Spades 10; card Spades 11; card Spades 12; card Spades 13;
   card Spades 1].

Definition showdown : Analysis :=
  setCards newAnalysis
    [("P1", [card Hearts 2; card Diamonds 3]);
     ("P2", [card Diamonds 2; card Hearts 3])]
    board.

Definition P3 : CypherPokerPlayer :=
  {| privateID := "P3"; isDealer := false; hasFolded := false;
     keychain := []; address := "addr3" |}.

(** The same showdown with a third player who holds an ace and a king. *)
Definition showdown3 : Analysis :=
  setCards newAnalysis
    [("P1", [card Hearts 2; card Diamonds 3]);
     ("P2", [card Diamonds 2; card Hearts 3]);
     ("P3", [card Hearts 1; card Hearts 13])]
    board.

Definition aFlush : list CypherPokerCard :=
  [card Spades 2; card Spades 5; card Spades 7; card Spades 9; card Spades 11].
Definition aFlushShuffled : list CypherPokerCard :=
  [card Spades 5; card Spades 2; card Spades 7; card Spades 9; card Spades 11].
Definition aStraight : list CypherPokerCard :=
  [card Hearts 3; card Spades 4; card Diamonds 5; card Clubs 6; card Hearts 7].
Definition lowAce : list CypherPokerCard :=
  [card Hearts 3; card Spades 1; card Diamonds 2; card Clubs 5; card Hearts 4].
Definition sixHigh : list CypherPokerCard :=
  [card Hearts 3; card Spades 6; card Diamonds 2; card Clubs 5; card Hearts 4].

End Sample.

(** Sum of a list of integers. *)
Definition sumZ (l : list Z) : Z := fold_right Z.add 0 l.

(** The weights of a card are not negative. *)
Definition weighted (c : CypherPokerCard) : Prop :=
  0 <= value c /\ 0 <= highvalue c.

(** * Further vocabulary and capture handlers *)

(** The list without its element at index [i]. *)
Fixpoint dropAt {X : Type} (i : nat) (l : list X) : list X :=
  match l, i with
  | [], _ => []
  | _ :: t, O => t
  | x :: t, S i' => x :: dropAt i' t
  end.

(** The five ranks of the straight whose low rank is [k]; 10 stands for the
    ace-high straight. *)
Definition windowOf (k : Z) : list Z :=
  if k =? 10 then [10; 11; 12; 13; 1] else [k; k + 1; k + 2; k + 3; k + 4].

(** Number of occurrences of a value in a list of values. *)
Definition countZ (v : Z) (l : list Z) : nat :=
  length (List.filter (Z.eqb v) l).

(** Among sorted values, the last one that does not occur [n] times: the
    kicker with the largest low value. *)
Definition lastKicker (n : nat) (sorted : list Z) : Z :=
  fold_left (fun k v => if Nat.eqb (countZ v sorted) n then k else v) sorted 0.

(** The score of a hand in closed form, from its values in non-decreasing
    order and whether its five cards share a suit. *)
Definition expectedScore (flush : bool) (sorted : list Z) : Z :=
  let high := sumZ (map highOf sorted) in
  let low := sumZ sorted in
  let lowAce :=
    match sorted with [1; 2; 3; 4; 5] => true | _ => false end in
  let kicker n m := high * m - (m - 1) * highOf (lastKicker n sorted) in
  match standardClass flush sorted with
  | RoyalFlush => high * 1000000000
  | StraightFlush => (if lowAce then low else high) * 100000000
  | FourOfAKind => kicker 4%nat 10000000
  | FullHouse => high * 1000000
  | Flush => high * 100000
  | Straight => (if lowAce then low else high) * 10000
  | ThreeOfAKind => kicker 3%nat 1000
  | TwoPairs => kicker 2%nat 100
  | OnePair => kicker 2%nat 15
  | HighCard => fold_right Z.max 0 (map highOf sorted)
  end.

Definition checkExpected (vs : list Z) : bool :=
  implb (admissible true vs)
    (score (scoreWith None true (map plainCard vs)) =? expectedScore true vs)
  && implb (admissible false vs)
       (score (scoreWith None false (map plainCard vs)) =? expectedScore false vs).

(** An outcome that, when it is a rejection, carries an error with code 2. *)
Definition codeTwo {X : Type} (o : Outcome X) : Prop :=
  forall e, o = Rejected e -> code e = Some 2.

(** The card values of the selections of a deal array, in order. *)
Definition selectedCards (entries : list DealEntry) : list string :=
  flat_map (fun e => match deal_type e with
                     | select => deal_cards e
                     | decrypt => []
                     end) entries.

(** The card values of all the selections of the deals. *)
Definition allSelected (dealsObj : list (string * list DealEntry))
    : list string :=
  flat_map (fun d => selectedCards (snd d)) dealsObj.

(** The values of [values] decrypted under the last keypair of the keychain
    stored for [pid]. *)
Definition decryptedBy (invoke : CryptoOp -> string -> option Keypair -> string)
    (st : Analyzer) (pid : string) (values : list string) : list string :=
  map (fun v => invoke Decrypt v (lastKeypair (default [] (keychains st !! pid))))
      values.

(** Card [c] is a card of the mapped deck whose mapping is a value of a
    decryption entry (private or public, as [isPrivate] says) of the deals
    of [src], decrypted under the last keypair of the keychain of [src]. *)
Definition dealtFrom (invoke : CryptoOp -> string -> option Keypair -> string)
    (st : Analyzer) (isPrivate : bool) (src : string) (c : CypherPokerCard)
    : Prop :=
  In c (mappedDeck st)
  /\ exists arr e,
       In (src, arr) (deals st) /\ In e arr /\ deal_type e = decrypt
       /\ deal_private e = isPrivate
       /\ In (mapping c) (decryptedBy invoke st src (deal_cards e)).

(** Every public card and every private card of [obj] has such an origin. *)
Definition provenance (invoke : CryptoOp -> string -> option Keypair -> string)
    (st : Analyzer) (obj : Analysis) : Prop :=
  (forall c, In c (public obj) -> exists src, dealtFrom invoke st false src c)
  /\ (forall src cards c, In (src, cards) (private obj) -> In c cards ->
        dealtFrom invoke st true src c).

(** What a resolved analysis says of entry [c] at index [n], after entry
    [p], in a deal array of length [len]: a selection does not follow a
    selection, and a decryption that follows a decryption and is not the
    last entry holds the cards of [p] decrypted by its sender, as a
    multiset. *)
Definition chained (invoke : CryptoOp -> string -> option Keypair -> string)
    (st : Analyzer) (len n : nat) (p c : DealEntry) : Prop :=
  (deal_type p = select -> deal_type c = select -> False)
  /\ (deal_type p = decrypt -> deal_type c = decrypt -> (n < len - 1)%nat ->
      Permutation (decryptedBy invoke st (deal_fromPID c) (deal_cards p))
                  (deal_cards c)).

(** *** A four-handed sample deal *)

Module SampleDeal.

Fixpoint dropChar (c : Ascii.ascii) (v : string) : string :=
  match v with
  | EmptyString => EmptyString
  | String a rest => if Ascii.eqb a c then rest else String a (dropChar c rest)
  end.

(** A toy commutative cipher: encryption appends the key character,
    decryption takes its first occurrence out. *)
Definition cipher (op : CryptoOp) (v : string) (k : option Keypair) : string :=
  match k with
  | None => v
  | Some kp =>
      match op with
      | Encrypt => v +:+ encKey kp
      | Decrypt =>
          match decKey kp with
          | String c _ => dropChar c v
          | EmptyString => v
          end
      end
  end.

Definition key (k : string) : Keypair :=
  {| encKey := k; decKey := k; modulus := "m" |}.

Definition seat (pid k : string) (dealer : bool) : CypherPokerPlayer :=
  {| privateID := pid; isDealer := dealer; hasFolded := false;
     keychain := [key k]; address := "addr" +:+ k |}.

Definition face (m : string) (s : Suit) (v : Z) : CypherPokerCard :=
  {| mapping := m; suit := s; value := v; highvalue := highOf v |}.

Definition entry (from : string) (t : DealType) (p : bool) (cards : list string)
    : DealEntry :=
  {| deal_fromPID := from; deal_type := t; deal_private := p;
     deal_cards := cards |}.

Definition snapshot (from : string) (cards : list string) : DeckSnapshot :=
  {| snap_fromPID := from; snap_cards := cards |}.

Definition dealsOfHand : list (string * list DealEntry) :=
  [("Q1", [entry "Q1" select true ["a1234"]; entry "Q2" decrypt true ["a134"];
           entry "Q3" decrypt true ["a14"]; entry "Q4" decrypt true ["a1"]]);
   ("Q2", [entry "Q2" select false ["b1234"]; entry "Q1" decrypt false ["b234"];
           entry "Q3" decrypt false ["b24"]; entry "Q4" decrypt false ["b2"]])].

Definition table4 : Analyzer :=
  {| players := [seat "Q1" "1" true; seat "Q2" "2" false; seat "Q3" "3" false;
                 seat "Q4" "4" false];
     tableID := "table";
     deck := [snapshot "Q1" ["a"; "b"; "c"];
              snapshot "Q1" ["a1"; "b1"; "c1"];
              snapshot "Q2" ["b12"; "a12"; "c12"];
              snapshot "Q3" ["b123"; "c123"; "a123"];
              snapshot "Q4" ["a1234"; "b1234"; "c1234"]];
     mappedDeck := [face "a" Hearts 1; face "b" Spades 13; face "c" Clubs 7];
     deals := dealsOfHand;
     keychains := <["Q1" := [key "1"]]> (<["Q2" := [key "2"]]>
                    (<["Q3" := [key "3"]]> (<["Q4" := [key "4"]]> ∅)));
     analysis := Some newAnalysis; active := true;
     keychainCommitTimeout := Some 10000; timer := None;
     gameListeners := false; keychainListener := false;
     dispatched := ["analyzing"] |}.

(** The cards that the analysis of [table4] resolves with. *)
Definition dealt : Analysis :=
  setCards newAnalysis
    [("Q1", [face "a" Hearts 1]); ("Q2", [])] [face "b" Spades 13].

End SampleDeal.

(** ** Capturing the deals

    The handlers of the game events that record the selections and the
    partial decryptions.  [this.game.ownPID] and the fields of the event
    that a handler reads are arguments. *)

(** [storeDeal]: the entry is pushed on the deal array of the dealing
    player, which is created on first use.  The list stands for the object
    when the dealing ID is an [ordinaryID] (defined below): an inherited
    name is never [undefined], and a name of digits is not enumerated
    last. *)
Definition storeDeal (st : Analyzer) (dealingPID fromPID : string)
    (cards : list string) (isPrivate isDecryption : bool) : Analyzer :=
  let infoObj :=
    {| deal_fromPID := fromPID;
       deal_type := if isDecryption then decrypt else select;
       deal_private := if isPrivate then true else false;
       deal_cards := cards |} in
  setDeals st
    (objSet dealingPID (default [] (objGet (deals st) dealingPID) ++ [infoObj])
       (deals st)).

(** [onSelectCards]; [isPrivateType] is [event.type == "gamedealprivate"]. *)
Definition onSelectCards (st : Analyzer) (ownPID : string)
    (selected : list string) (isPrivateType : bool) : Analyzer :=
  let st1 := setActive st true in
  if isPrivateType then storeDeal st1 ownPID ownPID selected true false
  else storeDeal st1 ownPID ownPID selected false false.

(** [onGameDecrypt]; [isPrivate] is the truth value of [event.private]. *)
Definition onGameDecrypt (st : Analyzer) (sourcePID ownPID : string)
    (selected : list string) (isPrivate : bool) : Analyzer :=
  let st1 := setActive st true in
  if isPrivate then storeDeal st1 sourcePID ownPID selected true true
  else storeDeal st1 sourcePID ownPID selected false true.

(** [onGameDealMessage]; [hasCards] says that [payload.cards] is there with
    a numeric [length], [from] is [resultObj.from] and [isPrivate] the truth
    value of [payload.private].  A sender or a dealing player that
    [getPlayer] does not find fails the comparison of the private IDs. *)
Definition onGameDealMessage (st : Analyzer) (hasCards : bool)
    (sourcePID from : string) (selected : list string) (isPrivate : bool)
    : Outcome bool * Analyzer :=
  let st1 := setActive st true in
  if hasCards then (Resolved true, st1)
  else
    match getPlayer (players st1) sourcePID, getPlayer (players st1) from with
    | Some dealingPlayer, Some fromPlayer =>
        match nth_error (players st1) dealingPlayer,
              nth_error (players st1) fromPlayer with
        | Some dealing, Some sender =>
            if String.eqb (privateID dealing) (privateID sender) then
              (Resolved true,
               if isPrivate
               then storeDeal st1 (privateID dealing) (privateID sender)
                      selected true false
               else storeDeal st1 (privateID dealing) (privateID sender)
                      selected false false)
            else
              (Resolved true,
               if isPrivate
               then storeDeal st1 (privateID dealing) (privateID sender)
                      selected true true
               else storeDeal st1 (privateID dealing) (privateID sender)
                      selected false true)
        | _, _ => (TypeError, st1)
        end
    | _, _ => (TypeError, st1)
    end.

(** The game events that record a deal, with the fields their handlers
    read. *)
Inductive DealEvent :=
  | gamedealselect (ownPID : string) (selected : list string)
      (isPrivateType : bool)
  | gamedecrypt (sourcePID ownPID : string) (selected : list string)
      (isPrivate : bool)
  | gamedealmsg (hasCards : bool) (sourcePID from : string)
      (selected : list string) (isPrivate : bool).

(** The analyzer after the handler of one event, and after a sequence of
    events; a handler that fails leaves the analyzer as it is by then. *)
Definition capture (st : Analyzer) (ev : DealEvent) : Analyzer :=
  match ev with
  | gamedealselect ownPID selected isPrivateType =>
      onSelectCards st ownPID selected isPrivateType
  | gamedecrypt sourcePID ownPID selected isPrivate =>
      onGameDecrypt st sourcePID ownPID selected isPrivate
  | gamedealmsg hasCards sourcePID from selected isPrivate =>
      snd (onGameDealMessage st hasCards sourcePID from selected isPrivate)
  end.

Definition captureAll (st : Analyzer) (events : list DealEvent) : Analyzer :=
  fold_left capture events st.

(** What the capture handlers keep: everything but [deals] and [active],
    the order in which the dealing players were first seen, and every entry
    already stored, at its place. *)
Record extends (st st' : Analyzer) : Prop := {
  ext_rest : st' = setActive (setDeals st (deals st')) (active st');
  ext_keys : exists more,
    map fst (deals st') = map fst (deals st) ++ more;
  ext_deals : forall pid arr, objGet (deals st) pid = Some arr ->
    exists more, objGet (deals st') pid = Some (arr ++ more)
}.


(** The cards and the class name of a hand object: what the tie-break,
    which overwrites scores, leaves alone. *)
Definition shapeOf (h : HandObj) : list CypherPokerCard * option HandName :=
  (hand h, name h).

(** The hand object that [scoreHands] stores for a permutation. *)
Definition scoredHand (perm : list CypherPokerCard) : HandObj :=
  scoreHand (newHandObj perm).

(** The reference of a winner resolves in [store] to a hand whose cards
    score [H]. *)
Definition resolves (store : list (string * list HandObj)) (H : Z)
    (ref : HandRef) : Prop :=
  exists arr h,
    objGet store (fst ref) = Some arr /\ nth_error arr (snd ref) = Some h
    /\ handScore (hand h) = H.

(** ** Capturing the deck *)

Definition setDeck (st : Analyzer) (d : list DeckSnapshot) : Analyzer :=
  {| players := players st; tableID := tableID st; deck := d;
     mappedDeck := mappedDeck st; deals := deals st; keychains := keychains st;
     analysis := analysis st; active := active st;
     keychainCommitTimeout := keychainCommitTimeout st; timer := timer st;
     gameListeners := gameListeners st; keychainListener := keychainListener st;
     dispatched := dispatched st |}.

Definition setMappedDeck (st : Analyzer) (m : list CypherPokerCard)
    : Analyzer :=
  {| players := players st; tableID := tableID st; deck := deck st;
     mappedDeck := m; deals := deals st; keychains := keychains st;
     analysis := analysis st; active := active st;
     keychainCommitTimeout := keychainCommitTimeout st; timer := timer st;
     gameListeners := gameListeners st; keychainListener := keychainListener st;
     dispatched := dispatched st |}.

(** [getDealer]: the first player flagged as the dealer. *)
Definition getDealer (players : list CypherPokerPlayer)
    : option CypherPokerPlayer :=
  find isDealer players.

(** Modelled from the spec: [this.game.getMappedCard] resolves a mapping to
    the card of the face-up deck of the game that has it, as the analyzer's
    own [getMappedCard] does on its copy; looking up the mapping of a card of
    that deck always finds a card. *)
Definition gameMappedCards (faceup : list CypherPokerCard)
    : list CypherPokerCard :=
  map (fun c => default c (getMappedCard faceup (mapping c))) faceup.

(** [onEncryptCards]; [faceup] is [event.game.cardDecks.faceup],
    [playerPID] is [event.player.privateID] and [selected] is
    [event.selected].  On the first capture the mapped deck is filled
    before the dealer is looked up. *)
Definition onEncryptCards (st : Analyzer) (faceup : list CypherPokerCard)
    (playerPID : string) (selected : list string)
    : Outcome unit * Analyzer :=
  let st1 := setActive st true in
  let infoObj := {| snap_fromPID := playerPID; snap_cards := selected |} in
  match deck st1 with
  | [] =>
      let cardsArr := map mapping faceup in
      let st2 := setMappedDeck st1 (mappedDeck st1 ++ gameMappedCards faceup) in
      match getDealer (players st2) with
      | None => (TypeError, st2)
      | Some dealer =>
          let generated :=
            {| snap_fromPID := privateID dealer; snap_cards := cardsArr |} in
          (Resolved tt, setDeck st2 [generated; infoObj])
      end
  | _ :: _ => (Resolved tt, setDeck st1 (deck st1 ++ [infoObj]))
  end.

(** A [gamecardsencrypt] event, with the fields the handler reads. *)
Record EncryptEvent := {
  enc_faceup : list CypherPokerCard;
  enc_player : string;
  enc_selected : list string
}.

(** The analyzer after the handler has seen a sequence of such events; a
    handler that fails leaves the analyzer as it is by then. *)
Definition recordEncryptions (st : Analyzer) (events : list EncryptEvent)
    : Analyzer :=
  fold_left
    (fun s e =>
       snd (onEncryptCards s (enc_faceup e) (enc_player e) (enc_selected e)))
    events st.

(** ** Property names of the objects used as dictionaries

    [deals] and [_keychains] are plain objects keyed by private IDs.  The
    association lists and maps that stand for them hold their own
    properties; two kinds of names behave differently on the object and are
    singled out here. *)

(** The names that every plain object inherits from [Object.prototype]: the
    lookup of such a name is not [undefined] even when nothing was stored
    under it. *)
Definition inheritedName (k : string) : bool :=
  existsb (String.eqb k)
    ["constructor"; "hasOwnProperty"; "isPrototypeOf"; "propertyIsEnumerable";
     "toLocaleString"; "toString"; "valueOf"; "__proto__";
     "__defineGetter__"; "__defineSetter__"; "__lookupGetter__";
     "__lookupSetter__"].

Definition isDigit (c : Ascii.ascii) : bool :=
  (48 <=? Ascii.nat_of_ascii c)%nat && (Ascii.nat_of_ascii c <=? 57)%nat.

(** A non-empty name made of decimal digits only.  The array-index names,
    which [for ... in] lists before all others and in ascending numeric
    order whatever the order of creation, are among these. *)
Definition digitsOnly (k : string) : bool :=
  negb (String.eqb k EmptyString)
  && forallb isDigit (String.list_ascii_of_string k).

(** A private ID on which the object behaves as the list that stands for
    it: a missing entry reads as [undefined] and a new entry is enumerated
    last. *)
Definition ordinaryID (k : string) : bool :=
  negb (inheritedName k) && negb (digitsOnly k).

(** The private ID under which the handler of an event files its entry. *)
Definition dealingPID (ev : DealEvent) : string :=
  match ev with
  | gamedealselect ownPID _ _ => ownPID
  | gamedecrypt sourcePID _ _ _ => sourcePID
  | gamedealmsg _ sourcePID _ _ _ => sourcePID
  end.

(** *** A tampered deck under keychains of two keypairs *)

Module SampleStages.

Definition spent : Keypair :=
  {| encKey := "9"; decKey := "9"; modulus := "m" |}.

Definition chains : gmap string (list Keypair) :=
  <["P1" := [spent; Sample.kp1]]> (<["P2" := [spent; Sample.kp2]]> ∅).

(** The analyzer of [Sample.tampered], each keychain holding a keypair that
    is no longer in use before the one of the hand. *)
Definition tampered : Analyzer :=
  {| players := [Sample.P1; Sample.P2]; tableID := "table";
     deck := [Sample.generated; Sample.stage1; Sample.stage2];
     mappedDeck := []; deals := Sample.someDeals; keychains := chains;
     analysis := Some newAnalysis; active := true;
     keychainCommitTimeout := Some 10000; timer := None;
     gameListeners := false; keychainListener := false;
     dispatched := ["analyzing"] |}.

End SampleStages.
(** * Properties of the multiset utilities *)

Section MultisetFacts.
Context {A : Type} `{LooseEq A}.

Lemma loose_eqb_refl (x : A) : loose_eqb x x = true.
Proof. now apply loose_eqb_eq. Qed.

Lemma loose_eqb_neq (x y : A) : loose_eqb x y = false <-> x <> y.
Proof.
  split.
  - intros E ->. rewrite loose_eqb_refl in E. discriminate.
  - intros N. destruct (loose_eqb x y) eqn:E; [|reflexivity].
    apply loose_eqb_eq in E. contradiction.
Qed.

Lemma loose_eqb_sym (x y : A) : loose_eqb x y = loose_eqb y x.
Proof.
  destruct (loose_eqb y x) eqn:E.
  - apply loose_eqb_eq in E. subst. apply loose_eqb_refl.
  - apply loose_eqb_neq in E. apply loose_eqb_neq. congruence.
Qed.

Lemma loose_dec (x y : A) : {x = y} + {x <> y}.
Proof.
  destruct (loose_eqb x y) eqn:E.
  - left. now apply loose_eqb_eq.
  - right. now apply loose_eqb_neq.
Qed.

(** *** [compareDecks] *)

Lemma spliceFirst_absent (x : A) (l : list A) :
  ~ In x l -> spliceFirst x l = l.
Proof.
  induction l as [|y l IH]; simpl; intros N; [reflexivity|].
  destruct (loose_eqb y x) eqn:E.
  - apply loose_eqb_eq in E. subst. exfalso. apply N. now left.
  - f_equal. apply IH. intros I. apply N. now right.
Qed.

Lemma spliceFirst_present (x : A) (l : list A) :
  In x l -> Permutation l (x :: spliceFirst x l).
Proof.
  induction l as [|y l IH]; simpl; intros I; [contradiction|].
  destruct (loose_eqb y x) eqn:E.
  - apply loose_eqb_eq in E. subst. reflexivity.
  - destruct I as [->|I]; [rewrite loose_eqb_refl in E; discriminate|].
    rewrite perm_swap. apply perm_skip. now apply IH.
Qed.

Lemma compareLoop_length (d1 d2 : list A) :
  (length d2 <= length (compareLoop d1 d2) + length d1)%nat.
Proof.
  revert d2. induction d1 as [|x d1 IH]; intros d2; simpl; [lia|].
  specialize (IH (spliceFirst x d2)).
  assert (length d2 <= S (length (spliceFirst x d2)))%nat; [|lia].
  clear IH. induction d2 as [|y d2 IH]; simpl; [lia|].
  destruct (loose_eqb y x); simpl; lia.
Qed.

Lemma compareLoop_empty (d1 d2 : list A) :
  length d1 = length d2 ->
  (compareLoop d1 d2 = [] <-> Permutation d1 d2).
Proof.
  revert d2. induction d1 as [|x d1 IH]; intros d2 L; simpl.
  - destruct d2; [|discriminate]. split; auto.
  - destruct (in_dec loose_dec x d2) as [I|N].
    + pose proof (spliceFirst_present x d2 I) as P.
      assert (L' : length d1 = length (spliceFirst x d2)).
      { apply Permutation_length in P. simpl in *. lia. }
      rewrite (IH _ L'). split; intros Q.
      * rewrite P. now apply perm_skip.
      * rewrite P in Q. now apply Permutation_cons_inv in Q.
    + rewrite (spliceFirst_absent x d2 N). split.
      * intros E. pose proof (compareLoop_length d1 d2) as B.
        rewrite E in B. simpl in *. lia.
      * intros Q. exfalso. apply N.
        apply (Permutation_in x Q). now left.
Qed.

Lemma compareDecks_Permutation (d1 d2 : list A) :
  compareDecks d1 d2 = true <-> Permutation d1 d2.
Proof.
  unfold compareDecks.
  destruct (Nat.eqb (length d1) (length d2)) eqn:L; simpl.
  - apply Nat.eqb_eq in L. rewrite <- (compareLoop_empty d1 d2 L).
    rewrite Nat.eqb_eq. split.
    + intros E. now destruct (compareLoop d1 d2).
    + now intros ->.
  - apply Nat.eqb_neq in L. split; [discriminate|].
    intros P. apply Permutation_length in P. contradiction.
Qed.

Lemma compareDecks_perm_l (d1 d1' d2 : list A) :
  Permutation d1 d1' -> compareDecks d1 d2 = compareDecks d1' d2.
Proof.
  intros P. destruct (compareDecks d1' d2) eqn:E.
  - apply compareDecks_Permutation. apply compareDecks_Permutation in E.
    now rewrite P.
  - destruct (compareDecks d1 d2) eqn:E'; [|reflexivity].
    apply compareDecks_Permutation in E'. rewrite P in E'.
    apply compareDecks_Permutation in E'. congruence.
Qed.

Lemma compareDecks_sym (d1 d2 : list A) :
  compareDecks d1 d2 = compareDecks d2 d1.
Proof.
  destruct (compareDecks d2 d1) eqn:E.
  - apply compareDecks_Permutation. apply compareDecks_Permutation in E.
    now symmetry.
  - destruct (compareDecks d1 d2) eqn:E'; [|reflexivity].
    apply compareDecks_Permutation in E'. symmetry in E'.
    apply compareDecks_Permutation in E'. congruence.
Qed.

Lemma compareDecks_refl (d : list A) : compareDecks d d = true.
Proof. now apply compareDecks_Permutation. Qed.

(** *** [removeFromDeck] *)

Lemma spliceAll_filter (x : A) (d : list A) :
  spliceAll x d =
    (List.filter (loose_eqb x) d, List.filter (fun y => negb (loose_eqb x y)) d).
Proof.
  induction d as [|y d IH]; simpl; [reflexivity|].
  rewrite IH. now destruct (loose_eqb x y).
Qed.

Lemma filter_twice (f g : A -> bool) (l : list A) :
  List.filter f (List.filter g l) = List.filter (fun x => g x && f x) l.
Proof.
  induction l as [|y l IH]; simpl; [reflexivity|].
  destruct (g y); simpl; [destruct (f y)|]; now rewrite IH.
Qed.

Lemma filter_split_length (f : A -> bool) (l : list A) :
  (length (List.filter f l) + length (List.filter (fun x => negb (f x)) l)
   = length l)%nat.
Proof.
  induction l as [|y l IH]; simpl; [reflexivity|].
  destruct (f y); simpl; lia.
Qed.

Lemma removeLoop_deck (items removed d : list A) :
  snd (removeLoop items removed d) = remainingDeck items d.
Proof.
  revert removed d. induction items as [|x items IH]; intros removed d; simpl.
  - unfold remainingDeck. simpl. induction d; simpl; congruence.
  - rewrite spliceAll_filter. rewrite IH. unfold remainingDeck.
    rewrite filter_twice. apply List.filter_ext. intros y.
    unfold matchesAny. simpl. now rewrite negb_orb.
Qed.

Lemma removeLoop_conserves (items removed d : list A) :
  (length (fst (removeLoop items removed d))
   + length (snd (removeLoop items removed d))
   = length removed + length d)%nat.
Proof.
  revert removed d. induction items as [|x items IH]; intros removed d; simpl.
  - reflexivity.
  - rewrite spliceAll_filter. rewrite IH. rewrite length_app.
    pose proof (filter_split_length (loose_eqb x) d). lia.
Qed.

Lemma removeFromDeck_deck (items d : list A) :
  snd (removeFromDeck items d) = remainingDeck items d.
Proof.
  unfold removeFromDeck.
  pose proof (removeLoop_deck items [] d) as E.
  destruct (removeLoop items [] d). exact E.
Qed.

Lemma removedCount_matches (items d : list A) :
  removedCount items d = length (List.filter (matchesAny items) d).
Proof.
  unfold removedCount. rewrite removeFromDeck_deck. unfold remainingDeck.
  pose proof (filter_split_length (matchesAny items) d). lia.
Qed.

Lemma removeFromDeck_result (items d : list A) :
  fst (removeFromDeck items d) = Nat.eqb (removedCount items d) (length items).
Proof.
  unfold removedCount. rewrite removeFromDeck_deck.
  unfold removeFromDeck.
  pose proof (removeLoop_deck items [] d) as E.
  pose proof (removeLoop_conserves items [] d) as C.
  destruct (removeLoop items [] d) as [r k]. simpl in *. subst k.
  f_equal. lia.
Qed.

Lemma matchesAny_In (items : list A) (y : A) :
  matchesAny items y = true <-> In y items.
Proof.
  unfold matchesAny. rewrite existsb_exists. split.
  - intros (x & I & E). apply loose_eqb_eq in E. now subst.
  - intros I. exists y. split; [assumption|apply loose_eqb_refl].
Qed.

Lemma matchesAny_perm (items items' : list A) (y : A) :
  Permutation items items' -> matchesAny items y = matchesAny items' y.
Proof.
  intros P. destruct (matchesAny items' y) eqn:E.
  - apply matchesAny_In. apply matchesAny_In in E.
    now apply (Permutation_in y (Permutation_sym P)).
  - destruct (matchesAny items y) eqn:E'; [|reflexivity].
    apply matchesAny_In in E'. apply (Permutation_in y P) in E'.
    apply matchesAny_In in E'. congruence.
Qed.

Lemma removeFromDeck_perm (items items' d : list A) :
  Permutation items items' ->
  removeFromDeck items d = removeFromDeck items' d.
Proof.
  intros P.
  assert (D : remainingDeck items d = remainingDeck items' d).
  { unfold remainingDeck. apply List.filter_ext. intros y.
    now rewrite (matchesAny_perm items items' y P). }
  rewrite (surjective_pairing (removeFromDeck items d)).
  rewrite (surjective_pairing (removeFromDeck items' d)).
  rewrite !removeFromDeck_result, !removeFromDeck_deck.
  unfold removedCount. rewrite !removeFromDeck_deck, D.
  now rewrite (Permutation_length P).
Qed.

Lemma occurrences_NoDup (x : A) (l : list A) :
  List.NoDup l -> (occurrences x l <= 1)%nat.
Proof.
  unfold occurrences. induction 1 as [|y l N _ IH]; simpl; [lia|].
  destruct (loose_eqb x y) eqn:E; [|assumption].
  apply loose_eqb_eq in E. subst y. simpl.
  assert (List.filter (loose_eqb x) l = []) as ->; [|simpl; lia].
  clear IH. induction l as [|z l IH]; simpl; [reflexivity|].
  destruct (loose_eqb x z) eqn:E.
  - apply loose_eqb_eq in E. subst. exfalso. apply N. now left.
  - apply IH. intros I. apply N. now right.
Qed.

(** With a duplicate-free deck, a repeated item fails the count. *)
Lemma removeFromDeck_repeated_item (items d : list A) :
  List.NoDup d -> ~ List.NoDup items -> fst (removeFromDeck items d) = false.
Proof.
  intros Nd Ni. rewrite removeFromDeck_result, removedCount_matches.
  apply Nat.eqb_neq. intros E. apply Ni.
  apply (List.NoDup_incl_NoDup (l := List.filter (matchesAny items) d)).
  - now apply List.NoDup_filter.
  - lia.
  - intros y I. apply List.filter_In in I. now apply matchesAny_In.
Qed.

(** With duplicate-free items that all occur in the deck, an item that the
    deck holds twice fails the count. *)
Lemma removeFromDeck_duplicate_in_deck (items d : list A) (x : A) :
  List.NoDup items -> incl items d -> In x items ->
  (2 <= occurrences x d)%nat ->
  fst (removeFromDeck items d) = false.
Proof.
  intros Ni Sub Ix Occ. rewrite removeFromDeck_result, removedCount_matches.
  apply Nat.eqb_neq. intros E.
  assert (Nm : List.NoDup (List.filter (matchesAny items) d)).
  { apply (List.NoDup_incl_NoDup (l := items)); [assumption|lia|].
    intros y I. apply List.filter_In. split; [now apply Sub|].
    now apply matchesAny_In. }
  pose proof (occurrences_NoDup x _ Nm) as B.
  unfold occurrences in *. rewrite filter_twice in B.
  rewrite (List.filter_ext _ (loose_eqb x)) in B; [lia|].
  intros y. destruct (loose_eqb x y) eqn:Exy.
  - apply loose_eqb_eq in Exy. subst y.
    rewrite andb_true_r. now apply matchesAny_In.
  - apply andb_false_r.
Qed.

End MultisetFacts.

(** * Properties of the hand scorer *)

(** ** [straightType] *)

Ltac destruct_find j F :=
  match goal with
  | |- context [find ?f straightWindows] =>
      destruct (find f straightWindows) as [j|] eqn:F
  end.

Lemma window_perm_unique (j k : Z) :
  Permutation [j; j + 1; j + 2; j + 3; j + 4] [k; k + 1; k + 2; k + 3; k + 4] ->
  j = k.
Proof.
  intros P.
  assert (I1 : In j [k; k + 1; k + 2; k + 3; k + 4]).
  { apply (Permutation_in j P). now left. }
  assert (I2 : In k [j; j + 1; j + 2; j + 3; j + 4]).
  { apply (Permutation_in k (Permutation_sym P)). now left. }
  simpl in I1, I2. lia.
Qed.

Lemma In_straightWindows (k : Z) : In k straightWindows <-> 1 <= k <= 9.
Proof. unfold straightWindows. simpl. lia. Qed.

Lemma straightType_window (l : list Z) (k : Z) :
  1 <= k <= 9 -> Permutation l [k; k + 1; k + 2; k + 3; k + 4] ->
  straightType l = k.
Proof.
  intros R P. unfold straightType.
  rewrite (Permutation_length P).
  change (length _ <? 5)%nat with false. cbv iota.
  destruct_find j F.
  - apply find_some in F. destruct F as [_ F].
    apply compareDecks_Permutation in F.
    apply window_perm_unique. now rewrite <- F.
  - apply In_straightWindows in R. apply (find_none _ _ F k) in R.
    simpl in R. apply compareDecks_Permutation in P. congruence.
Qed.

Lemma straightType_ace_high (l : list Z) :
  Permutation l [10; 11; 12; 13; 1] -> straightType l = 10.
Proof.
  intros P. unfold straightType.
  rewrite (Permutation_length P).
  change (length _ <? 5)%nat with false. cbv iota.
  destruct_find j F.
  - apply find_some in F. destruct F as [Ij F].
    apply compareDecks_Permutation in F. apply In_straightWindows in Ij.
    rewrite P in F.
    assert (I1 : In 13 [j; j + 1; j + 2; j + 3; j + 4]).
    { apply (Permutation_in 13 F). simpl. tauto. }
    assert (I2 : In 1 [j; j + 1; j + 2; j + 3; j + 4]).
    { apply (Permutation_in 1 F). simpl. tauto. }
    simpl in I1, I2. lia.
  - apply compareDecks_Permutation in P. now rewrite P.
Qed.

Lemma straightType_none (l : list Z) :
  (forall k, 1 <= k <= 9 -> ~ Permutation l [k; k + 1; k + 2; k + 3; k + 4]) ->
  ~ Permutation l [10; 11; 12; 13; 1] ->
  straightType l = 0.
Proof.
  intros N1 N2. unfold straightType.
  destruct (length l <? 5)%nat; [reflexivity|].
  destruct_find j F.
  - apply find_some in F. destruct F as [Ij F].
    apply compareDecks_Permutation in F. apply In_straightWindows in Ij.
    now apply N1 in F.
  - destruct (compareDecks l [10; 11; 12; 13; 1]) eqn:E; [|reflexivity].
    apply compareDecks_Permutation in E. contradiction.
Qed.

Lemma find_pointwise {X : Type} (f g : X -> bool) (l : list X) :
  (forall x, f x = g x) -> find f l = find g l.
Proof.
  intros E. induction l as [|x l IH]; simpl; [reflexivity|].
  rewrite E, IH. reflexivity.
Qed.

Lemma straightType_perm (l l' : list Z) :
  Permutation l l' -> straightType l = straightType l'.
Proof.
  intros P. unfold straightType. rewrite (Permutation_length P).
  destruct (length l' <? 5)%nat; [reflexivity|].
  rewrite (compareDecks_perm_l l l' _ P).
  erewrite find_pointwise; [reflexivity|].
  intros k. apply compareDecks_perm_l. assumption.
Qed.

(** ** Sums and maxima *)

Lemma fold_sum_shift {X : Type} (f : X -> Z) (l : list X) (a : Z) :
  fold_left (fun s c => s + f c) l a = a + fold_left (fun s c => s + f c) l 0.
Proof.
  revert a. induction l as [|x l IH]; intros a; simpl; [lia|].
  rewrite (IH (a + f x)), (IH (0 + f x)). lia.
Qed.

Lemma fold_sum_cons {X : Type} (f : X -> Z) (x : X) (l : list X) :
  fold_left (fun s c => s + f c) (x :: l) 0
  = f x + fold_left (fun s c => s + f c) l 0.
Proof. simpl. now rewrite fold_sum_shift. Qed.

Lemma fold_sum_app {X : Type} (f : X -> Z) (l1 l2 : list X) :
  fold_left (fun s c => s + f c) (l1 ++ l2) 0
  = fold_left (fun s c => s + f c) l1 0 + fold_left (fun s c => s + f c) l2 0.
Proof. rewrite fold_left_app. now rewrite fold_sum_shift. Qed.

Lemma fold_sum_perm {X : Type} (f : X -> Z) (l l' : list X) :
  Permutation l l' ->
  fold_left (fun s c => s + f c) l 0 = fold_left (fun s c => s + f c) l' 0.
Proof.
  induction 1 as [|x l l' _ IH|x y l|l l' l'' _ IH1 _ IH2].
  - reflexivity.
  - rewrite !fold_sum_cons. now rewrite IH.
  - rewrite !fold_sum_cons. lia.
  - congruence.
Qed.

Lemma fold_sum_nonneg {X : Type} (f : X -> Z) (l : list X) :
  Forall (fun x => 0 <= f x) l -> 0 <= fold_left (fun s c => s + f c) l 0.
Proof.
  induction 1 as [|x l Hx _ IH]; [simpl; lia|].
  rewrite fold_sum_cons. lia.
Qed.

Lemma fold_max_spec {X : Type} (f : X -> Z) (l : list X) (a : Z) :
  fold_left (fun m c => if m <? f c then f c else m) l a
  = Z.max a (fold_right (fun c m => Z.max (f c) m) a l).
Proof.
  revert a. induction l as [|x l IH]; intros a; simpl; [lia|].
  rewrite IH.
  assert (G : forall b, Z.max a (fold_right (fun c m => Z.max (f c) m) b l)
                        = Z.max a (Z.max b (fold_right (fun c m => Z.max (f c) m) a l))).
  { clear. induction l as [|y l IH]; intros b; simpl; [lia|].
    specialize (IH b). lia. }
  destruct (a <? f x) eqn:E.
  - apply Z.ltb_lt in E. specialize (G (f x)). lia.
  - apply Z.ltb_ge in E. specialize (G (f x)). lia.
Qed.

Lemma fold_max_perm {X : Type} (f : X -> Z) (l l' : list X) (a : Z) :
  Permutation l l' ->
  fold_left (fun m c => if m <? f c then f c else m) l a
  = fold_left (fun m c => if m <? f c then f c else m) l' a.
Proof.
  intros P. rewrite !fold_max_spec. f_equal.
  induction P as [|x l l' _ IH|x y l|l l' l'' _ IH1 _ IH2]; simpl;
    [reflexivity|lia|lia|congruence].
Qed.

Lemma getCardSum_perm (l l' : list CypherPokerCard) (high : bool) :
  Permutation l l' -> getCardSum l high = getCardSum l' high.
Proof. intros P. unfold getCardSum. now apply fold_sum_perm. Qed.

Lemma handValueOf_perm (l l' : list CypherPokerCard) (m : Z) (ah : bool) :
  Permutation l l' -> handValueOf l m ah = handValueOf l' m ah.
Proof.
  intros P. unfold handValueOf. destruct (1 <? m).
  - now apply fold_sum_perm.
  - now apply fold_max_perm.
Qed.

(** ** Value groups *)

Lemma groupEquiv_refl (g : list (Z * list CypherPokerCard)) : groupEquiv g g.
Proof. induction g; constructor; auto. Qed.

Lemma groupEquiv_trans (g1 g2 g3 : list (Z * list CypherPokerCard)) :
  groupEquiv g1 g2 -> groupEquiv g2 g3 -> groupEquiv g1 g3.
Proof.
  intros E. revert g3. induction E as [|a b g1 g2 [K P] _ IH]; intros g3 E';
    inversion E' as [|b' c g2' g3' [K' P'] E'']; subst; constructor.
  - split; [congruence|]. now rewrite P.
  - now apply IH.
Qed.

Ltac split_keys :=
  repeat match goal with
         | |- context [Z.eqb ?a ?b] => destruct (Z.eqb_spec a b)
         | |- context [Z.ltb ?a ?b] => destruct (Z.ltb_spec a b)
         end.

Lemma pushValueGroup_equiv (v : Z) (c : CypherPokerCard)
    (g g' : list (Z * list CypherPokerCard)) :
  groupEquiv g g' -> groupEquiv (pushValueGroup v c g) (pushValueGroup v c g').
Proof.
  induction 1 as [|[k a] [k' b] g g' [K P] E IH]; simpl in *.
  - apply groupEquiv_refl.
  - subst k'. split_keys.
    + constructor; [|assumption]. split; [reflexivity|]. simpl.
      now apply Permutation_app_tail.
    + constructor; [split; reflexivity|]. constructor; [|assumption]. now split.
    + constructor; [now split|]. assumption.
Qed.

Ltac finish_perm :=
  simpl; try reflexivity; try apply perm_swap;
  try (rewrite <- !app_assoc; apply Permutation_app_head; apply perm_swap).

Ltac finish_equiv :=
  repeat first
    [ apply groupEquiv_refl
    | assumption
    | constructor; [split; [reflexivity | finish_perm] | ] ].

Lemma pushValueGroup_comm (v1 v2 : Z) (c1 c2 : CypherPokerCard)
    (g : list (Z * list CypherPokerCard)) :
  groupEquiv (pushValueGroup v2 c2 (pushValueGroup v1 c1 g))
             (pushValueGroup v1 c1 (pushValueGroup v2 c2 g)).
Proof.
  induction g as [|[k a] g IH]; simpl.
  - split_keys; simpl; split_keys; try lia; subst; finish_equiv.
  - split_keys; simpl; split_keys; try lia; subst; finish_equiv.
Qed.

Lemma fold_pushValueGroup_equiv (l : list CypherPokerCard)
    (g g' : list (Z * list CypherPokerCard)) :
  groupEquiv g g' ->
  groupEquiv (fold_left (fun acc c => pushValueGroup (value c) c acc) l g)
             (fold_left (fun acc c => pushValueGroup (value c) c acc) l g').
Proof.
  revert g g'. induction l as [|c l IH]; intros g g' E; simpl; [assumption|].
  apply IH. now apply pushValueGroup_equiv.
Qed.

Lemma fold_pushValueGroup_perm (l l' : list CypherPokerCard) :
  Permutation l l' ->
  forall g,
    groupEquiv (fold_left (fun acc c => pushValueGroup (value c) c acc) l g)
               (fold_left (fun acc c => pushValueGroup (value c) c acc) l' g).
Proof.
  induction 1 as [|x l l' _ IH|x y l|l l' l'' _ IH1 _ IH2]; intros g; simpl.
  - apply groupEquiv_refl.
  - apply IH.
  - apply fold_pushValueGroup_equiv. apply pushValueGroup_comm.
  - eapply groupEquiv_trans; [apply IH1|apply IH2].
Qed.

Lemma valueGroupsOf_perm (l l' : list CypherPokerCard) :
  Permutation l l' -> groupEquiv (valueGroupsOf l) (valueGroupsOf l').
Proof. intros P. now apply fold_pushValueGroup_perm. Qed.

Lemma groupEquiv_profile (g g' : list (Z * list CypherPokerCard)) :
  groupEquiv g g' -> profile g = profile g'.
Proof.
  induction 1 as [|a b g g' [K P] _ IH]; simpl; [reflexivity|].
  rewrite IH, (Permutation_length P), (getCardSum_perm _ _ true P).
  reflexivity.
Qed.

Lemma groupLen_profile (g : list (Z * list CypherPokerCard)) (i : nat) :
  groupLen g i = fst (nth i (profile g) (0%nat, 0)).
Proof.
  unfold groupLen, profile.
  change (0%nat, 0) with
    ((fun kg : Z * list CypherPokerCard =>
        (length (snd kg), getCardSum (snd kg) true)) (0, [])).
  now rewrite map_nth.
Qed.

Lemma adjustLoop_profile (n : nat) (m : Z) (g : list (Z * list CypherPokerCard))
    (a : Z) :
  adjustLoop n m g a =
    fold_left (fun adjust p =>
                 if negb (Nat.eqb (fst p) n) then (snd p * m * -1) + snd p
                 else adjust) (profile g) a.
Proof.
  unfold adjustLoop, profile. revert a.
  induction g as [|kg g IH]; intros a; simpl; [reflexivity|]. apply IH.
Qed.

Lemma classify_profile (n : option HandName) (len : nat) (fl : bool) (sv : Z)
    (g g' : list (Z * list CypherPokerCard)) :
  profile g = profile g' -> classify n len fl sv g = classify n len fl sv g'.
Proof.
  intros E. unfold classify.
  assert (L : length g = length g').
  { apply (f_equal (@length _)) in E. unfold profile in E.
    now rewrite !length_map in E. }
  rewrite L, !groupLen_profile, !adjustLoop_profile, E. reflexivity.
Qed.

Lemma scoreWith_perm (n : option HandName) (fl : bool)
    (h h' : list CypherPokerCard) :
  Permutation h h' ->
  score (scoreWith n fl h) = score (scoreWith n fl h')
  /\ name (scoreWith n fl h) = name (scoreWith n fl h').
Proof.
  intros P. unfold scoreWith.
  rewrite (straightType_perm (map value h) (map value h'))
    by now apply Permutation_map.
  rewrite (Permutation_length P).
  rewrite (classify_profile n _ fl _ (valueGroupsOf h) (valueGroupsOf h'))
    by now apply groupEquiv_profile, valueGroupsOf_perm.
  destruct (classify n (length h') fl _ (valueGroupsOf h')) as [[[m nm] adj] ah].
  simpl. now rewrite (handValueOf_perm h h' m ah P).
Qed.

(** ** Suit groups and the flush test *)

Lemma pushSuitGroup_length (s : Suit) (c : CypherPokerCard)
    (g : list (Suit * list CypherPokerCard)) :
  (length g <= length (pushSuitGroup s c g))%nat.
Proof.
  induction g as [|[k a] g IH]; simpl; [lia|].
  destruct (Suit_eqb k s); simpl; lia.
Qed.

Lemma fold_pushSuitGroup_length (l : list CypherPokerCard)
    (g : list (Suit * list CypherPokerCard)) :
  (length g <=
   length (fold_left (fun acc c => pushSuitGroup (suit c) c acc) l g))%nat.
Proof.
  revert g. induction l as [|c l IH]; intros g; simpl; [lia|].
  specialize (IH (pushSuitGroup (suit c) c g)).
  pose proof (pushSuitGroup_length (suit c) c g). lia.
Qed.

Lemma fold_pushSuitGroup_single (l : list CypherPokerCard) (s : Suit)
    (a : list CypherPokerCard) :
  Nat.eqb
    (length (fold_left (fun acc c => pushSuitGroup (suit c) c acc) l [(s, a)])) 1
  = forallb (fun d => Suit_eqb s (suit d)) l.
Proof.
  revert a. induction l as [|c l IH]; intros a; simpl; [reflexivity|].
  destruct (Suit_eqb s (suit c)); simpl; [apply IH|].
  pose proof (fold_pushSuitGroup_length l [(s, a); (suit c, [c])]) as B.
  simpl in B. apply Nat.eqb_neq. lia.
Qed.

Lemma suitGroups_sameSuit (h : list CypherPokerCard) :
  Nat.eqb (length (suitGroupsOf h)) 1 = sameSuit h.
Proof.
  destruct h as [|c t]; [reflexivity|].
  unfold suitGroupsOf. simpl. apply fold_pushSuitGroup_single.
Qed.

Lemma Suit_eqb_eq (a b : Suit) : Suit_eqb a b = true <-> a = b.
Proof. destruct a, b; simpl; split; congruence. Qed.

Lemma sameSuit_spec (h : list CypherPokerCard) :
  sameSuit h = true <->
  h <> [] /\ forall c d, In c h -> In d h -> suit c = suit d.
Proof.
  destruct h as [|c t]; simpl.
  - split; [discriminate|]. intros [N _]. contradiction.
  - rewrite forallb_forall. split.
    + intros F. split; [discriminate|].
      assert (G : forall d, c = d \/ In d t -> suit d = suit c).
      { intros d [<-|I]; [reflexivity|]. symmetry. now apply Suit_eqb_eq, F. }
      intros x y Ix Iy. rewrite (G x Ix), (G y Iy). reflexivity.
    + intros [_ F] d I. apply Suit_eqb_eq. apply F; auto.
Qed.

Lemma sameSuit_perm (h h' : list CypherPokerCard) :
  Permutation h h' -> sameSuit h = sameSuit h'.
Proof.
  assert (G : forall a b, Permutation a b -> sameSuit a = true -> sameSuit b = true).
  { intros a b P S. apply sameSuit_spec in S. destruct S as [N F].
    apply sameSuit_spec. split.
    - intros ->. apply Permutation_sym, Permutation_nil in P. contradiction.
    - intros c d Ic Id.
      apply F; [apply (Permutation_in c (Permutation_sym P) Ic)
               |apply (Permutation_in d (Permutation_sym P) Id)]. }
  intros P. destruct (sameSuit h') eqn:E.
  - apply (G h' h); [now apply Permutation_sym|assumption].
  - destruct (sameSuit h) eqn:E'; [|reflexivity].
    apply (G h h' P) in E'. congruence.
Qed.

Lemma scoreHand_scoreWith (ho : HandObj) :
  scoreHand ho
  = scoreWith (name ho) (sameSuit (hand ho) && Nat.eqb (length (hand ho)) 5)
      (hand ho).
Proof. unfold scoreHand. now rewrite suitGroups_sameSuit. Qed.

Lemma scoreHand_perm (h h' : list CypherPokerCard) :
  Permutation h h' ->
  score (scoreHand (newHandObj h)) = score (scoreHand (newHandObj h'))
  /\ name (scoreHand (newHandObj h)) = name (scoreHand (newHandObj h')).
Proof.
  intros P. rewrite !scoreHand_scoreWith. simpl.
  rewrite (sameSuit_perm h h' P), (Permutation_length P).
  now apply scoreWith_perm.
Qed.

(** ** Reduction of a hand to its sorted values *)

Lemma In_ranks (v : Z) : In v ranks <-> 1 <= v <= 13.
Proof. unfold ranks. simpl. lia. Qed.

Lemma In_ranksFrom (x y : Z) : In y (ranksFrom x) <-> x <= y /\ 1 <= y <= 13.
Proof.
  unfold ranksFrom. rewrite List.filter_In, In_ranks, Z.leb_le. tauto.
Qed.

Lemma sortedHands_complete (a b c d e : Z) :
  1 <= a -> a <= b -> b <= c -> c <= d -> d <= e -> e <= 13 ->
  In [a; b; c; d; e] sortedHands.
Proof.
  intros. unfold sortedHands.
  apply in_flat_map. exists a. split; [apply In_ranks; lia|].
  apply in_flat_map. exists b. split; [apply In_ranksFrom; lia|].
  apply in_flat_map. exists c. split; [apply In_ranksFrom; lia|].
  apply in_flat_map. exists d. split; [apply In_ranksFrom; lia|].
  apply in_map_iff. exists e. split; [reflexivity|apply In_ranksFrom; lia].
Qed.

Lemma insertZ_perm (x : Z) (l : list Z) : Permutation (x :: l) (insertZ x l).
Proof.
  induction l as [|y l IH]; simpl; [reflexivity|].
  destruct (x <=? y); [reflexivity|].
  rewrite perm_swap. now apply perm_skip.
Qed.

Lemma sortZ_perm (l : list Z) : Permutation l (sortZ l).
Proof.
  induction l as [|x l IH]; simpl; [reflexivity|].
  rewrite <- insertZ_perm. now apply perm_skip.
Qed.

Lemma insertZ_nondecreasing (x : Z) (l : list Z) :
  nondecreasing l = true -> nondecreasing (insertZ x l) = true.
Proof.
  induction l as [|y l IH]; intros S; [reflexivity|].
  simpl insertZ. destruct (Z.leb_spec x y) as [L|L].
  - simpl. simpl in S. rewrite S. apply Z.leb_le in L. now rewrite L.
  - destruct l as [|z l].
    + simpl. assert (E : (y <=? x) = true) by (apply Z.leb_le; lia).
      now rewrite E.
    + simpl in S. apply andb_true_iff in S. destruct S as [S1 S2].
      specialize (IH S2). simpl insertZ in *.
      destruct (Z.leb_spec x z) as [L'|L'].
      * cbn [nondecreasing] in *.
        assert (E : (y <=? x) = true) by (apply Z.leb_le; lia).
        now rewrite E.
      * cbn [nondecreasing] in *. now rewrite S1.
Qed.

Lemma sortZ_nondecreasing (l : list Z) : nondecreasing (sortZ l) = true.
Proof.
  induction l as [|x l IH]; simpl; [reflexivity|].
  now apply insertZ_nondecreasing.
Qed.

Lemma nodupb_NoDup (l : list Z) : nodupb l = true <-> List.NoDup l.
Proof.
  induction l as [|x l IH]; simpl.
  - split; [constructor|reflexivity].
  - rewrite andb_true_iff, negb_true_iff, IH, List.NoDup_cons_iff.
    assert (E : existsb (Z.eqb x) l = false <-> ~ In x l); [|tauto].
    split.
    + intros F I. assert (T : existsb (Z.eqb x) l = true); [|congruence].
      apply existsb_exists. exists x. split; [assumption|apply Z.eqb_refl].
    + intros N. destruct (existsb (Z.eqb x) l) eqn:F; [|reflexivity].
      apply existsb_exists in F. destruct F as (y & I & E).
      apply Z.eqb_eq in E. subst. contradiction.
Qed.

(** Relabelling cards without touching their weights leaves the score and
    the name alone. *)

Lemma pushValueGroup_map (f : CypherPokerCard -> CypherPokerCard) (v : Z)
    (c : CypherPokerCard) (g : list (Z * list CypherPokerCard)) :
  pushValueGroup v (f c) (mapGroups f g) = mapGroups f (pushValueGroup v c g).
Proof.
  induction g as [|[k a] g IH]; simpl; [reflexivity|].
  destruct (k =? v); simpl; [now rewrite map_app|].
  destruct (v <? k); simpl; [reflexivity|]. now rewrite IH.
Qed.

Lemma valueGroupsOf_map (f : CypherPokerCard -> CypherPokerCard)
    (h : list CypherPokerCard) :
  (forall c, value (f c) = value c) ->
  valueGroupsOf (map f h) = mapGroups f (valueGroupsOf h).
Proof.
  intros V. unfold valueGroupsOf.
  change (@nil (Z * list CypherPokerCard)) with (mapGroups f []) at 1.
  generalize (@nil (Z * list CypherPokerCard)).
  induction h as [|c h IH]; intros g; simpl; [reflexivity|].
  rewrite V, pushValueGroup_map. apply IH.
Qed.

Lemma getCardSum_map (f : CypherPokerCard -> CypherPokerCard)
    (l : list CypherPokerCard) (high : bool) :
  (forall c, value (f c) = value c) ->
  (forall c, highvalue (f c) = highvalue c) ->
  getCardSum (map f l) high = getCardSum l high.
Proof.
  intros V Hv. unfold getCardSum. generalize 0.
  induction l as [|c l IH]; intros a; simpl; [reflexivity|].
  rewrite V, Hv. apply IH.
Qed.

Lemma profile_mapGroups (f : CypherPokerCard -> CypherPokerCard)
    (g : list (Z * list CypherPokerCard)) :
  (forall c, value (f c) = value c) ->
  (forall c, highvalue (f c) = highvalue c) ->
  profile (mapGroups f g) = profile g.
Proof.
  intros V Hv. unfold profile, mapGroups. rewrite map_map.
  apply map_ext. intros [k a]. simpl.
  now rewrite length_map, getCardSum_map.
Qed.

Lemma handValueOf_map (f : CypherPokerCard -> CypherPokerCard)
    (l : list CypherPokerCard) (m : Z) (ah : bool) :
  (forall c, value (f c) = value c) ->
  (forall c, highvalue (f c) = highvalue c) ->
  handValueOf (map f l) m ah = handValueOf l m ah.
Proof.
  intros V Hv. unfold handValueOf. destruct (1 <? m); generalize 0;
    induction l as [|c l IH]; intros a; simpl; try reflexivity;
    rewrite ?V, ?Hv; apply IH.
Qed.

Lemma scoreWith_map (f : CypherPokerCard -> CypherPokerCard)
    (n : option HandName) (fl : bool) (h : list CypherPokerCard) :
  (forall c, value (f c) = value c) ->
  (forall c, highvalue (f c) = highvalue c) ->
  score (scoreWith n fl (map f h)) = score (scoreWith n fl h)
  /\ name (scoreWith n fl (map f h)) = name (scoreWith n fl h).
Proof.
  intros V Hv. unfold scoreWith.
  rewrite map_map, (map_ext (fun c => value (f c)) value V), length_map.
  rewrite (classify_profile n _ fl _ (valueGroupsOf (map f h)) (valueGroupsOf h))
    by (rewrite valueGroupsOf_map by assumption; now apply profile_mapGroups).
  destruct (classify n (length h) fl _ (valueGroupsOf h)) as [[[m nm] adj] ah].
  simpl. now rewrite handValueOf_map.
Qed.

Lemma strip_valid (h : list CypherPokerCard) :
  Forall validCard h -> map stripCard h = map plainCard (map value h).
Proof.
  induction 1 as [|c h [_ E] _ IH]; simpl; [reflexivity|].
  rewrite IH. f_equal. unfold stripCard, plainCard. now rewrite E.
Qed.

Lemma scoreHand_values (h : list CypherPokerCard) (vs : list Z) :
  length h = 5%nat -> Forall validCard h -> Permutation (map value h) vs ->
  let r := scoreWith None (sameSuit h) (map plainCard vs) in
  score (scoreHand (newHandObj h)) = score r
  /\ name (scoreHand (newHandObj h)) = name r.
Proof.
  intros L V P. cbv zeta.
  rewrite scoreHand_scoreWith. simpl. rewrite L. simpl. rewrite andb_true_r.
  destruct (scoreWith_map stripCard None (sameSuit h) h) as [E1 E2];
    try reflexivity.
  rewrite <- E1, <- E2, (strip_valid h V).
  apply scoreWith_perm. now apply Permutation_map.
Qed.

Lemma scoreHand_sorted (h : list CypherPokerCard) :
  validHand h ->
  let r := scoreWith None (sameSuit h) (map plainCard (sortZ (map value h))) in
  score (scoreHand (newHandObj h)) = score r
  /\ name (scoreHand (newHandObj h)) = name r.
Proof.
  intros (L & V & _). apply scoreHand_values; try assumption. apply sortZ_perm.
Qed.

(** What distinct cards of four suits allow. *)

Lemma flush_values_distinct (h : list CypherPokerCard) :
  List.NoDup (map (fun c => (suit c, value c)) h) ->
  sameSuit h = true -> List.NoDup (map value h).
Proof.
  intros N S. apply sameSuit_spec in S. destruct S as [Ne F].
  destruct h as [|c0 t]; [contradiction|].
  apply (List.NoDup_map_inv (fun v => (suit c0, v))).
  rewrite map_map.
  rewrite (map_ext_in _ (fun c => (suit c, value c))); [assumption|].
  intros c I. f_equal. apply F; [now left|assumption].
Qed.

Lemma five_of_a_value_impossible (h : list CypherPokerCard) (v : Z) :
  length h = 5%nat ->
  List.NoDup (map (fun c => (suit c, value c)) h) ->
  Forall (fun c => value c = v) h -> False.
Proof.
  intros L N F.
  assert (Ns : List.NoDup (map suit h)).
  { apply (List.NoDup_map_inv (fun s => (s, v))). rewrite map_map.
    rewrite (map_ext_in _ (fun c => (suit c, value c))); [assumption|].
    intros c I. rewrite List.Forall_forall in F. now rewrite (F c I). }
  assert (B : (length (map suit h) <= length [Clubs; Diamonds; Hearts; Spades])%nat).
  { apply List.NoDup_incl_length; [assumption|].
    intros s _. destruct s; simpl; tauto. }
  rewrite length_map, L in B. simpl in B. lia.
Qed.

Lemma allEqual_Forall (l : list Z) (x : Z) :
  In x l -> allEqual l = true -> Forall (fun y => y = x) l.
Proof.
  destruct l as [|a l]; simpl; [contradiction|].
  intros I E. rewrite forallb_forall in E.
  assert (G : forall y, a = y \/ In y l -> y = a).
  { intros y [<-|J]; [reflexivity|]. symmetry. now apply Z.eqb_eq, E. }
  rewrite (G x I). apply List.Forall_forall. intros y J. now apply G.
Qed.

Lemma validHand_admissible (h : list CypherPokerCard) :
  validHand h -> admissible (sameSuit h) (sortZ (map value h)) = true.
Proof.
  intros (L & V & N). unfold admissible.
  destruct (sameSuit h) eqn:S.
  - apply nodupb_NoDup.
    apply (Permutation_NoDup (sortZ_perm (map value h))).
    now apply flush_values_distinct.
  - apply negb_true_iff. destruct (allEqual _) eqn:E; [|reflexivity].
    exfalso. destruct h as [|c0 t]; [discriminate|].
    apply (five_of_a_value_impossible (c0 :: t) (value c0) L N).
    assert (I : In (value c0) (sortZ (map value (c0 :: t)))).
    { apply (Permutation_in _ (sortZ_perm _)). now left. }
    pose proof (allEqual_Forall _ _ I E) as F.
    apply List.Forall_forall. intros c J. rewrite List.Forall_forall in F.
    apply F. apply (Permutation_in _ (sortZ_perm _)). now apply in_map.
Qed.

Lemma validHand_sortedHands (h : list CypherPokerCard) :
  validHand h -> In (sortZ (map value h)) sortedHands.
Proof.
  intros (L & V & _).
  pose proof (sortZ_nondecreasing (map value h)) as S.
  pose proof (sortZ_perm (map value h)) as P.
  assert (R : Forall (fun v => 1 <= v <= 13) (sortZ (map value h))).
  { apply (Permutation_Forall P). apply List.Forall_map.
    apply (List.Forall_impl _ (fun c H => proj1 H) V). }
  apply Permutation_length in P. rewrite length_map, L in P.
  destruct (sortZ (map value h)) as [|a [|b [|c [|d [|e [|x l]]]]]];
    try discriminate.
  simpl in S. rewrite !andb_true_iff, !Z.leb_le in S.
  repeat match goal with
         | H : Forall _ (_ :: _) |- _ => inversion H; clear H; subst
         end.
  apply sortedHands_complete; lia.
Qed.

Lemma checkHand_exhaustive : forallb checkHand sortedHands = true.
Proof. vm_compute. reflexivity. Qed.

Lemma HandName_eqb_eq (a b : HandName) : HandName_eqb a b = true -> a = b.
Proof. destruct a, b; simpl; intros E; try reflexivity; discriminate. Qed.

(** Every valid hand is named by its standard class and scored within the
    range of that class. *)
Lemma scoreHand_class_range (h : list CypherPokerCard) :
  validHand h ->
  name (scoreHand (newHandObj h)) = Some (pokerClass h)
  /\ fst (classRange (pokerClass h)) <= score (scoreHand (newHandObj h))
     <= snd (classRange (pokerClass h)).
Proof.
  intros V. destruct (scoreHand_sorted h V) as [Es En].
  rewrite Es, En. clear Es En.
  pose proof (validHand_admissible h V) as Ad.
  pose proof (validHand_sortedHands h V) as I.
  pose proof checkHand_exhaustive as C.
  rewrite forallb_forall in C. specialize (C _ I).
  unfold checkHand in C. unfold pokerClass.
  assert (K : checkScore (sameSuit h) (sortZ (map value h)) = true).
  { apply andb_true_iff in C. destruct C as [C1 C2].
    destruct (sameSuit h); [rewrite Ad in C1|rewrite Ad in C2]; assumption. }
  unfold checkScore in K.
  destruct (name _) as [m|]; [|discriminate].
  rewrite !andb_true_iff, !Z.leb_le in K. destruct K as [[K1 K2] K3].
  apply HandName_eqb_eq in K1. subst m. auto.
Qed.

Lemma classRange_separated (n1 n2 : HandName) :
  outranks n1 n2 -> snd (classRange n2) < fst (classRange n1).
Proof.
  unfold outranks. destruct n1, n2; simpl; intros R; try lia.
Qed.

(** ** Winner resolution *)

Lemma holeScore_max_min (c1 c2 : CypherPokerCard) :
  holeScore c1 c2
  = Z.max (highvalue c1) (highvalue c2) * 10
    + Z.min (highvalue c1) (highvalue c2).
Proof.
  unfold holeScore. destruct (Z.ltb_spec (highvalue c2) (highvalue c1)); lia.
Qed.

Lemma bestSoFar_ext (seen1 seen2 : nat -> list CypherPokerCard -> Prop)
    (st : ScoreState) :
  (forall i p, seen1 i p <-> seen2 i p) ->
  bestSoFar seen1 st -> bestSoFar seen2 st.
Proof.
  intros E [B1 B2 B3 B4 B5]. split.
  - intros i p S. apply E in S. exact (B1 _ _ S).
  - assumption.
  - destruct B3 as [B3|(i & p & S & B3)]; [now left|right].
    exists i, p. split; [now apply E|assumption].
  - intros c I. destruct (B4 c I) as (p & S & B).
    exists p. split; [now apply E|assumption].
  - intros i p S. apply E in S. exact (B5 _ _ S).
Qed.

Lemma scorePerms_best (seen : nat -> list CypherPokerCard -> Prop)
    (player : nat) (pid : string) (perms : list (list CypherPokerCard)) :
  forall (count : nat) (st : ScoreState),
    bestSoFar seen st ->
    bestSoFar (fun i perm => seen i perm \/ (i = player /\ In perm perms))
      (scorePerms player pid count perms st).
Proof.
  revert seen.
  induction perms as [|perm perms IH]; intros seen count st B; simpl.
  - destruct B as [B1 B2 B3 B4 B5]. split.
    + intros i p [S|[_ []]]. exact (B1 _ _ S).
    + assumption.
    + destruct B3 as [E|(i & p & S & E)]; [now left|right; eauto].
    + intros c I. destruct (B4 c I) as (p & S & E). eauto.
    + intros i p [S|[_ []]] E. exact (B5 _ _ S E).
  - fold (handScore perm).
    set (seen' := fun i p => seen i p \/ (i = player /\ p = perm)).
    match goal with
    | |- bestSoFar _ (scorePerms _ _ _ _ ?s) =>
        assert (B' : bestSoFar seen' s)
    end.
    { destruct B as [B1 B2 B3 B4 B5]. unfold seen'.
      destruct (Z.eqb_spec (handScore perm) (highestScore st)) as [E|N];
        [|destruct (Z.ltb_spec (highestScore st) (handScore perm)) as [L|L]];
        split; simpl.
      - intros i p [S|[-> ->]]; [exact (B1 _ _ S)|lia].
      - assumption.
      - right. exists player, perm. auto.
      - intros c I. apply in_app_or in I. destruct I as [I|[<-|[]]].
        + destruct (B4 c I) as (p & S & E'). eauto.
        + simpl. eauto.
      - intros i p [S|[-> ->]] E'; rewrite map_app; apply in_or_app.
        + left. exact (B5 _ _ S E').
        + right. simpl. auto.
      - intros i p [S|[-> ->]]; [specialize (B1 i p S); lia|lia].
      - lia.
      - right. exists player, perm. auto.
      - intros c [<-|[]]. simpl. eauto.
      - intros i p [S|[-> ->]] E'; [specialize (B1 i p S); lia|simpl; auto].
      - intros i p [S|[-> ->]]; [exact (B1 _ _ S)|lia].
      - assumption.
      - destruct B3 as [E|(i & p & S & E)]; [now left|right; eauto].
      - intros c I. destruct (B4 c I) as (p & S & E'). eauto.
      - intros i p [S|[-> ->]] E'; [exact (B5 _ _ S E')|lia]. }
    specialize (IH seen' (S count) _ B').
    revert IH. apply bestSoFar_ext.
    intros i p. unfold seen'. simpl. intuition (subst; auto).
Qed.

Lemma bestSoFar_store (seen : nat -> list CypherPokerCard -> Prop)
    (st : ScoreState) (store : list (string * list HandObj)) :
  bestSoFar seen st ->
  bestSoFar seen {| highestScore := highestScore st; winners := winners st;
                    handStore := store |}.
Proof. intros [B1 B2 B3 B4 B5]. split; simpl; assumption. Qed.

Lemma scorePlayers_best (players : list CypherPokerPlayer)
    (pub : list CypherPokerCard)
    (playersObj : list (string * list CypherPokerCard)) :
  forall (seen : nat -> list CypherPokerCard -> Prop) (st : ScoreState),
    bestSoFar seen st ->
    bestSoFar
      (fun i perm =>
         seen i perm \/
         exists pid cards p,
           In (pid, cards) playersObj
           /\ getPlayer players pid = Some i
           /\ nth_error players i = Some p
           /\ hasFolded p = false
           /\ In perm (createCardPermutations (cards ++ pub)))
      (scorePlayers players pub playersObj st).
Proof.
  induction playersObj as [|[pid cards] rest IH]; intros seen st B; simpl.
  - revert B. apply bestSoFar_ext. intros i p. split; [now left|].
    intros [S|(? & ? & ? & [] & _)]. assumption.
  - set (here := fun i perm =>
        exists p, getPlayer players pid = Some i
                  /\ nth_error players i = Some p
                  /\ hasFolded p = false
                  /\ In perm (createCardPermutations (cards ++ pub))).
    match goal with
    | |- bestSoFar _ (scorePlayers _ _ _ ?s) =>
        assert (B' : bestSoFar (fun i perm => seen i perm \/ here i perm) s)
    end.
    { unfold here.
      destruct (getPlayer players pid) as [player|] eqn:G.
      - destruct (nth_error players player) as [p|] eqn:N.
        + destruct (hasFolded p) eqn:F.
          * revert B. apply bestSoFar_ext. intros i perm.
            split; [now left|]. intros [S|(q & E & Nq & Fq & _)]; [assumption|].
            congruence.
          * apply (bestSoFar_store _ _ (objSet pid [] (handStore st))) in B.
            apply (scorePerms_best seen player pid
                     (createCardPermutations (cards ++ pub)) 0%nat) in B.
            revert B. apply bestSoFar_ext. intros i perm. split.
            -- intros [S|[-> I]]; [now left|right]. exists p. auto.
            -- intros [S|(q & E & Nq & Fq & I)]; [now left|right].
               split; congruence.
        + revert B. apply bestSoFar_ext. intros i perm.
          split; [now left|]. intros [S|(q & E & Nq & _)]; [assumption|].
          congruence.
      - revert B. apply bestSoFar_ext. intros i perm.
        split; [now left|]. intros [S|(q & E & _)]; [assumption|discriminate]. }
    apply IH in B'. revert B'. apply bestSoFar_ext. intros i perm.
    unfold here. split.
    + intros [[S|(p & G & N & F & I)]|(pid' & cards' & p & I & R)].
      * now left.
      * right. exists pid, cards, p. simpl. auto.
      * right. exists pid', cards', p. simpl. auto.
    + intros [S|(pid' & cards' & p & [E|I] & G & N & F & J)].
      * left. now left.
      * inversion E; subst. left. right. exists p. auto.
      * right. exists pid', cards', p. auto.
Qed.

Lemma scorePlayers_contenders (players : list CypherPokerPlayer)
    (cardsObj : Analysis) :
  bestSoFar (contender players cardsObj)
    (scorePlayers players (public cardsObj) (private cardsObj)
       {| highestScore := -1; winners := []; handStore := [] |}).
Proof.
  assert (B : bestSoFar (fun _ _ => False)
                {| highestScore := -1; winners := []; handStore := [] |}).
  { split; simpl; try contradiction; auto. lia. }
  apply (scorePlayers_best players (public cardsObj) (private cardsObj)) in B.
  revert B. apply bestSoFar_ext. intros i perm. unfold contender.
  split; [intros [[]|C]; exact C|intros C; right; exact C].
Qed.

(** The tie-break keeps every candidate whose hole-card score is the
    largest. *)
Lemma tieBreak_keeps (players : list CypherPokerPlayer) (cardsObj : Analysis)
    (T : Z) (candidates : list (nat * HandRef)) :
  forall st : ScoreState,
    (forall c, In c candidates ->
       exists t, tiebreakOf players cardsObj (fst c) = Some t /\ t <= T) ->
    highestScore st <= T ->
    exists st',
      tieBreak players (private cardsObj) candidates st = Resolved st'
      /\ highestScore st' <= T
      /\ forall i, tiebreakOf players cardsObj i = Some T ->
           In i (map fst candidates)
           \/ (highestScore st = T /\ In i (map fst (winners st))) ->
           highestScore st' = T /\ In i (map fst (winners st')).
Proof.
  induction candidates as [|[player ref] rest IH]; intros st TB B; simpl.
  - exists st. split; [reflexivity|]. split; [assumption|].
    intros i _ [[]|K]. exact K.
  - destruct (TB (player, ref) (or_introl eq_refl)) as (t & Et & Lt).
    unfold tiebreakOf in Et. simpl in Et.
    destruct (nth_error players player) as [p|] eqn:N; [|discriminate].
    destruct (objGet (private cardsObj) (privateID p))
      as [[|c1 [|c2 more]]|] eqn:G; try discriminate.
    injection Et as Et.
    match goal with
    | |- exists st', tieBreak _ _ _ ?s = _ /\ _ => set (st1 := s)
    end.
    assert (B1 : highestScore st1 <= T).
    { unfold st1. rewrite Et.
      destruct (Z.ltb_spec (highestScore st) t);
        [|destruct (Z.eqb_spec t (highestScore st))]; simpl; lia. }
    destruct (IH st1 (fun c I => TB c (or_intror I)) B1) as (st' & R & B' & K).
    exists st'. split; [exact R|]. split; [exact B'|].
    intros i Ti D. apply (K i Ti). destruct D as [[E0|I]|[E I]].
    + simpl in E0. subst i. right. unfold st1. rewrite Et.
      assert (t = T) as ->.
      { unfold tiebreakOf in Ti. rewrite N, G in Ti. congruence. }
      destruct (Z.ltb_spec (highestScore st) T);
        [|destruct (Z.eqb_spec T (highestScore st))]; simpl.
      * auto.
      * split; [congruence|]. rewrite map_app. apply in_or_app. right.
        simpl. auto.
      * lia.
    + now left.
    + right. unfold st1. rewrite Et.
      destruct (Z.ltb_spec (highestScore st) t);
        [|destruct (Z.eqb_spec t (highestScore st))]; simpl.
      * lia.
      * split; [assumption|]. rewrite map_app. apply in_or_app. now left.
      * auto.
Qed.

Lemma eliminateDuplicates_spec (candidates : list (nat * HandRef)) :
  forall acc : list (nat * HandRef),
    List.NoDup (map fst acc) ->
    List.NoDup (map fst (eliminateDuplicates candidates acc))
    /\ forall i, In i (map fst acc) \/ In i (map fst candidates) ->
         In i (map fst (eliminateDuplicates candidates acc)).
Proof.
  induction candidates as [|[w ref] rest IH]; intros acc N; simpl.
  - split; [assumption|]. intros i [I|[]]. assumption.
  - destruct (existsb (fun x => Nat.eqb (fst x) w) acc) eqn:E.
    + destruct (IH acc N) as [N' K]. split; [assumption|].
      intros i [I|[<-|I]]; apply K; auto.
      left. apply existsb_exists in E. destruct E as (x & Ix & Ex).
      apply Nat.eqb_eq in Ex. subst. now apply in_map.
    + assert (N1 : List.NoDup (map fst (acc ++ [(w, ref)]))).
      { rewrite map_app. simpl.
        apply (Permutation_NoDup (Permutation_cons_append _ _)).
        constructor; [|assumption].
        intros I. apply in_map_iff in I. destruct I as (x & Ex & Ix).
        assert (T : existsb (fun y => Nat.eqb (fst y) w) acc = true);
          [|congruence].
        apply existsb_exists. exists x. split; [assumption|].
        now apply Nat.eqb_eq. }
      destruct (IH _ N1) as [N' K]. split; [assumption|].
      intros i J. apply K. rewrite map_app, in_app_iff. simpl. tauto.
Qed.

(** Whenever [scoreHands] returns, its list of winners has no duplicates. *)
Lemma scoreHands_winners_NoDup (players : list CypherPokerPlayer)
    (cardsObj scored : Analysis) :
  scoreHands players cardsObj = Resolved scored ->
  List.NoDup (winningPlayers scored).
Proof.
  unfold scoreHands.
  match goal with
  | |- context [if ?b then ?x else ?y] => destruct (if b then x else y) as [st2| |]
  end; simpl; try discriminate.
  intros E. injection E as <-. simpl.
  apply (eliminateDuplicates_spec (winners st2) [] (List.NoDup_nil _)).
Qed.

(** ** Scores are not negative *)

Lemma getCardSum_snoc (a : list CypherPokerCard) (c : CypherPokerCard) :
  getCardSum (a ++ [c]) true = getCardSum a true + highvalue c.
Proof. unfold getCardSum. rewrite fold_sum_app. simpl. lia. Qed.

Lemma pushValueGroup_sums (v : Z) (c : CypherPokerCard)
    (g : list (Z * list CypherPokerCard)) :
  sumZ (map snd (profile (pushValueGroup v c g)))
  = sumZ (map snd (profile g)) + highvalue c.
Proof.
  induction g as [|[k a] g IH]; simpl.
  - unfold getCardSum. simpl. lia.
  - destruct (k =? v); simpl; [rewrite getCardSum_snoc; lia|].
    destruct (v <? k); simpl; [unfold getCardSum at 1; simpl; lia|].
    rewrite IH. lia.
Qed.

Lemma pushValueGroup_sizes (v : Z) (c : CypherPokerCard)
    (g : list (Z * list CypherPokerCard)) :
  list_sum (map fst (profile (pushValueGroup v c g)))
  = S (list_sum (map fst (profile g))).
Proof.
  induction g as [|[k a] g IH]; simpl; [reflexivity|].
  destruct (k =? v); simpl; [rewrite length_app; simpl; lia|].
  destruct (v <? k); simpl; [reflexivity|]. rewrite IH. lia.
Qed.

Lemma pushValueGroup_nonneg (v : Z) (c : CypherPokerCard)
    (g : list (Z * list CypherPokerCard)) :
  0 <= highvalue c ->
  Forall (fun p => 0 <= snd p) (profile g) ->
  Forall (fun p => 0 <= snd p) (profile (pushValueGroup v c g)).
Proof.
  intros Hc. induction g as [|[k a] g IH]; simpl; intros F.
  - constructor; [|constructor]. simpl. unfold getCardSum. simpl. lia.
  - inversion F as [|? ? F1 F2]; subst. simpl in F1.
    destruct (k =? v); simpl.
    + constructor; [|assumption]. simpl. rewrite getCardSum_snoc. lia.
    + destruct (v <? k); simpl.
      * constructor; [simpl; unfold getCardSum; simpl; lia|].
        constructor; assumption.
      * constructor; [assumption|]. now apply IH.
Qed.

Lemma valueGroups_totals (h : list CypherPokerCard) :
  Forall weighted h ->
  sumZ (map snd (profile (valueGroupsOf h))) = getCardSum h true
  /\ list_sum (map fst (profile (valueGroupsOf h))) = length h
  /\ Forall (fun p => 0 <= snd p) (profile (valueGroupsOf h)).
Proof.
  intros W. unfold valueGroupsOf.
  assert (G : forall g,
             Forall (fun p => 0 <= snd p) (profile g) ->
             let g' := fold_left (fun acc c => pushValueGroup (value c) c acc) h g in
             sumZ (map snd (profile g'))
             = sumZ (map snd (profile g)) + getCardSum h true
             /\ list_sum (map fst (profile g'))
                = (list_sum (map fst (profile g)) + length h)%nat
             /\ Forall (fun p => 0 <= snd p) (profile g')).
  { induction W as [|c h [_ Hc] _ IH]; intros g F; cbv zeta.
    - simpl. unfold getCardSum. simpl. split; [lia|]. split; [lia|assumption].
    - simpl fold_left.
      destruct (IH _ (pushValueGroup_nonneg (value c) c g Hc F))
        as (E1 & E2 & E3).
      rewrite E1, E2, pushValueGroup_sums, pushValueGroup_sizes.
      unfold getCardSum. rewrite fold_sum_cons. simpl. split; [lia|].
      split; [lia|assumption]. }
  destruct (G [] (List.Forall_nil _)) as (E1 & E2 & E3).
  simpl in E1, E2. auto.
Qed.

Lemma sumZ_bound (P : list (nat * Z)) (p : nat * Z) :
  Forall (fun q => 0 <= snd q) P -> In p P ->
  0 <= snd p <= sumZ (map snd P).
Proof.
  induction 1 as [|q P Hq F IH]; intros I; [contradiction|].
  simpl. assert (0 <= sumZ (map snd P)).
  { clear -F. induction F; simpl; lia. }
  destruct I as [->|I]; [lia|]. specialize (IH I). lia.
Qed.

Lemma adjust_cases (n : nat) (m : Z) (P : list (nat * Z)) :
  forall a : Z,
    let r := fold_left
               (fun adjust p =>
                  if negb (Nat.eqb (fst p) n) then (snd p * m * -1) + snd p
                  else adjust) P a in
    r = a \/ exists p, In p P /\ r = (snd p * m * -1) + snd p.
Proof.
  induction P as [|q P IH]; intros a; cbv zeta; simpl; [now left|].
  match goal with
  | |- context [fold_left _ P ?b] => destruct (IH b) as [E|(p & I & E)]
  end.
  - cbv zeta in E. rewrite E.
    destruct (negb (Nat.eqb (fst q) n)); [right|now left].
    exists q. auto.
  - right. exists p. auto.
Qed.

(** The multiplier, the adjustment and the flag that [classify] returns. *)
Ltac adjust_branch g :=
  split; [lia|];
  match goal with
  | |- context [adjustLoop ?n ?m g 0] =>
      let E := fresh "E" in
      let p := fresh "p" in
      let I := fresh "I" in
      destruct (adjust_cases n m (profile g) 0) as [E|(p & I & E)];
      cbv zeta in E; rewrite <- adjustLoop_profile in E; rewrite E;
      [now left
      |right; split; [reflexivity|]; split; [lia|]; exists p; auto]
  end.

Lemma classify_shape (n : option HandName) (len : nat) (fl : bool) (sv : Z)
    (g : list (Z * list CypherPokerCard)) :
  list_sum (map fst (profile g)) = len -> (len <= 5)%nat ->
  let '(m, _, adj, ah) := classify n len fl sv g in
  1 <= m /\
  (adj = 0 \/
   (ah = true /\ 1 < m /\
    exists p, In p (profile g) /\ adj = (snd p * m * -1) + snd p)).
Proof.
  intros Sz L. unfold classify.
  repeat match goal with
         | |- context [if ?b then _ else _] =>
             lazymatch b with
             | context [if _ then _ else _] => fail
             | _ => destruct b eqn:?
             end
         end;
    first
      [ split; [lia|now left]
      | solve [adjust_branch g]
      | (* four of a kind and full house at once need seven cards *)
        exfalso;
        repeat match goal with
               | H : _ && _ = true |- _ => apply andb_true_iff in H; destruct H
               | H : _ || _ = true |- _ => apply orb_true_iff in H; destruct H
               | H : Nat.eqb _ _ = true |- _ => apply Nat.eqb_eq in H
               end;
        rewrite !groupLen_profile in *;
        match goal with
        | H : length g = 2%nat |- _ =>
            assert (Lp : length (profile g) = 2%nat)
              by (unfold profile; now rewrite length_map)
        end;
        destruct (profile g) as [|[s0 c0] [|[s1 c1] [|? ?]]];
        try discriminate; simpl in *; lia ].
Qed.

Lemma handValueOf_nonneg (h : list CypherPokerCard) (m : Z) (ah : bool) :
  Forall weighted h -> 0 <= handValueOf h m ah.
Proof.
  intros W. unfold handValueOf. destruct (1 <? m).
  - apply fold_sum_nonneg.
    apply (List.Forall_impl _ (fun c (H : weighted c) =>
             match ah return 0 <= (if ah then highvalue c else value c) with
             | true => proj2 H | false => proj1 H end) W).
  - rewrite fold_max_spec. lia.
Qed.

Lemma handScore_nonneg (h : list CypherPokerCard) :
  (length h <= 5)%nat -> Forall weighted h -> 0 <= handScore h.
Proof.
  intros L W. unfold handScore. rewrite scoreHand_scoreWith. simpl.
  unfold scoreWith.
  destruct (valueGroups_totals h W) as (E1 & E2 & E3).
  pose proof (classify_shape None (length h)
                (sameSuit h && Nat.eqb (length h) 5)
                (straightType (map value h)) (valueGroupsOf h) E2 L) as C.
  destruct (classify None (length h) _ _ (valueGroupsOf h))
    as [[[m nm] adj] ah].
  simpl. destruct C as [M [->|(-> & M1 & p & I & ->)]].
  - pose proof (handValueOf_nonneg h m ah W). nia.
  - unfold handValueOf. apply Z.ltb_lt in M1. rewrite M1.
    fold (getCardSum h true). rewrite <- E1.
    pose proof (sumZ_bound _ _ E3 I). nia.
Qed.

Lemma validCard_weighted (c : CypherPokerCard) : validCard c -> weighted c.
Proof.
  intros [R E]. split; [lia|]. rewrite E. unfold highOf.
  destruct (value c =? 1); lia.
Qed.

(** Every permutation that [createCardPermutations] builds has at most five
    cards, all taken from its argument. *)
Lemma createCardPermutations_spec (cardsArr perm : list CypherPokerCard) :
  In perm (createCardPermutations cardsArr) ->
  (length perm <= 5)%nat /\ incl perm cardsArr.
Proof.
  intros I.
  destruct cardsArr as [|c0 [|c1 [|c2 [|c3 [|c4 [|c5 [|c6 rest]]]]]]];
    simpl in I;
    repeat (destruct I as [<-|I]; [split; [simpl; lia|]|]);
    try contradiction;
    intros x Hx; simpl in Hx; simpl; tauto.
Qed.

Lemma objGet_In {V : Type} (o : list (string * V)) (k : string) (v : V) :
  objGet o k = Some v -> exists k', In (k', v) o.
Proof.
  induction o as [|[k' v'] o IH]; simpl; [discriminate|].
  destruct (String.eqb k' k).
  - intros E. injection E as ->. exists k'. now left.
  - intros E. destruct (IH E) as (k'' & I). exists k''. now right.
Qed.

(** * Properties of the verification pipeline *)

Section VerificationFacts.
Variable invoke : CryptoOp -> string -> option Keypair -> string.

Lemma stageOf_first (p c : DeckSnapshot) (rest : list DeckSnapshot) :
  stageOf (p :: c :: rest) 1 = Some (p, c).
Proof. reflexivity. Qed.

Lemma stageOf_shift (p : DeckSnapshot) (l : list DeckSnapshot) (k : nat) :
  (0 < k)%nat -> stageOf (p :: l) (S k) = stageOf l k.
Proof.
  intros K. unfold stageOf. destruct k as [|k]; [lia|]. simpl.
  rewrite Nat.sub_0_r. reflexivity.
Qed.

Lemma stageOf_zero (l : list DeckSnapshot) : stageOf l 0 = None.
Proof.
  unfold stageOf. simpl. destruct l; reflexivity.
Qed.

Lemma stageOf_bound (l : list DeckSnapshot) (i : nat) (p c : DeckSnapshot) :
  stageOf l i = Some (p, c) -> (0 < i < length l)%nat.
Proof.
  unfold stageOf. intros E.
  destruct (nth_error l (i - 1)); [|discriminate].
  destruct (nth_error l i) eqn:N; [|discriminate].
  destruct i; [discriminate|].
  assert (nth_error l (S i) <> None) as B by congruence.
  apply nth_error_Some in B. lia.
Qed.

Lemma last_cons_default {X : Type} (l : list X) :
  forall x d : X, List.last (x :: l) d = List.last l x.
Proof.
  induction l as [|y l IH]; intros x d; [reflexivity|].
  change (List.last (x :: y :: l) d) with (List.last (y :: l) d).
  rewrite !IH. reflexivity.
Qed.

Lemma cryptAll_stored (kcs : gmap string (list Keypair))
    (p c : DeckSnapshot) :
  is_Some (kcs !! snap_fromPID c) ->
  cryptAll invoke Encrypt (kcs !! snap_fromPID c) (snap_cards p)
  = Resolved (reEncrypt invoke kcs p c).
Proof.
  intros [kc E]. unfold cryptAll, reEncrypt. rewrite E. simpl.
  destruct (snap_cards p); reflexivity.
Qed.

Lemma stage_compare (kcs : gmap string (list Keypair)) (p c : DeckSnapshot) :
  compareDecks (snap_cards c) (reEncrypt invoke kcs p c) = true
  <-> stageHolds invoke kcs p c.
Proof.
  unfold stageHolds. rewrite compareDecks_Permutation.
  split; intros P; now symmetry.
Qed.

Lemma verifyDeck_passes (kcs : gmap string (list Keypair))
    (snapshots : list DeckSnapshot) :
  forall (previous : DeckSnapshot) (count : nat),
    (forall j p c, stageOf (previous :: snapshots) j = Some (p, c) ->
                   is_Some (kcs !! snap_fromPID c)) ->
    (forall j p c, stageOf (previous :: snapshots) j = Some (p, c) ->
                   stageHolds invoke kcs p c) ->
    verifyDeck invoke kcs (snap_cards previous) count snapshots
    = DeckPassed (snap_cards (List.last snapshots previous)).
Proof.
  induction snapshots as [|s rest IH]; intros previous count K Hs;
    [reflexivity|].
  cbn [verifyDeck].
  rewrite (cryptAll_stored kcs previous s (K 1%nat _ _ (stageOf_first _ _ _))).
  pose proof (Hs 1%nat _ _ (stageOf_first _ _ _)) as H1.
  apply stage_compare in H1. rewrite H1.
  rewrite (IH s (S count)).
  - now rewrite last_cons_default.
  - intros j p c E. destruct j as [|j]; [now rewrite stageOf_zero in E|].
    apply (K (S (S j)) p c). rewrite stageOf_shift by lia. exact E.
  - intros j p c E. destruct j as [|j]; [now rewrite stageOf_zero in E|].
    apply (Hs (S (S j)) p c). rewrite stageOf_shift by lia. exact E.
Qed.

Lemma verifyDeck_fails (kcs : gmap string (list Keypair))
    (snapshots : list DeckSnapshot) :
  forall (previous : DeckSnapshot) (count i : nat) (p c : DeckSnapshot),
    (forall j p c, stageOf (previous :: snapshots) j = Some (p, c) ->
                   is_Some (kcs !! snap_fromPID c)) ->
    stageOf (previous :: snapshots) i = Some (p, c) ->
    (forall j p' c', (j < i)%nat ->
       stageOf (previous :: snapshots) j = Some (p', c') ->
       stageHolds invoke kcs p' c') ->
    ~ stageHolds invoke kcs p c ->
    verifyDeck invoke kcs (snap_cards previous) count snapshots
    = DeckFailed (count + i - 1) (snap_fromPID c).
Proof.
  induction snapshots as [|s rest IH]; intros previous count i p c K E Hs N.
  - unfold stageOf in E. destruct i as [|[|[|i]]]; simpl in E; discriminate.
  - cbn [verifyDeck].
    rewrite (cryptAll_stored kcs previous s (K 1%nat _ _ (stageOf_first _ _ _))).
    destruct i as [|[|i]].
    + now rewrite stageOf_zero in E.
    + rewrite stageOf_first in E. inversion E; subst p c; clear E.
      destruct (compareDecks _ _) eqn:C.
      * apply stage_compare in C. contradiction.
      * f_equal. lia.
    + pose proof (Hs 1%nat _ _ ltac:(lia) (stageOf_first _ _ _)) as H1.
      apply stage_compare in H1. rewrite H1.
      rewrite (IH s (S count) (S i) p c).
      * f_equal. lia.
      * intros j p' c' E'. destruct j as [|j]; [now rewrite stageOf_zero in E'|].
        apply (K (S (S j)) p' c'). rewrite stageOf_shift by lia. exact E'.
      * rewrite stageOf_shift in E by lia. exact E.
      * intros j p' c' L E'. destruct j as [|j]; [now rewrite stageOf_zero in E'|].
        apply (Hs (S (S j)) p' c'); [lia|].
        rewrite stageOf_shift by lia. exact E'.
      * exact N.
Qed.

(** *** Keychains *)

Lemma commitLoop_keeps (players : list CypherPokerPlayer) :
  forall (kcs : gmap string (list Keypair)) (pid : string)
         (kc : list Keypair),
    kcs !! pid = Some kc -> (commitLoop players kcs).2 !! pid = Some kc.
Proof.
  induction players as [|player rest IH]; intros kcs pid kc E; simpl;
    [assumption|].
  destruct (kcs !! privateID player) as [old|] eqn:L.
  - rewrite L. destruct old; [assumption|]. now apply IH.
  - rewrite lookup_insert_eq.
    assert (E' : <[privateID player := keychain player]> kcs !! pid = Some kc).
    { rewrite lookup_insert_ne; [assumption|]. congruence. }
    destruct (keychain player); [assumption|]. now apply IH.
Qed.

Lemma throwError_keychains {X : Type} (st : Analyzer) (e : Error) :
  keychains (@throwError X st e).2 = keychains st.
Proof. unfold throwError. destruct (analysis st); reflexivity. Qed.

Lemma analyzeCards_keychains (st : Analyzer) :
  keychains (analyzeCards invoke st).2 = keychains st.
Proof.
  unfold analyzeCards, analyzeDeals. destruct (deck st); [reflexivity|].
  destruct (verifyDeck _ _ _ _ _); try reflexivity.
  - destruct (verifyDeals _ _ _ _ _) as [[? ?]| |]; try reflexivity.
    apply throwError_keychains.
  - apply throwError_keychains.
Qed.

Lemma dispatchEvent_keychains (st : Analyzer) (type : string) :
  keychains (dispatchEvent st type) = keychains st.
Proof.
  unfold dispatchEvent, getAnalysis. destruct (analysis st); reflexivity.
Qed.

Lemma onPlayerKeychain_stores (st : Analyzer) (pid : string)
    (kc : list Keypair) :
  keychains (onPlayerKeychain invoke st pid kc).2 !! pid = Some kc.
Proof.
  unfold onPlayerKeychain, allKeychainsCommitted.
  pose proof (commitLoop_keeps (players (setActive st true))
                (<[pid := kc]> (keychains (setActive st true))) pid kc
                (lookup_insert_eq _ _ _)) as K.
  cbn [players keychains setActive setKeychains] in *.
  destruct (commitLoop (players st) (<[pid:=kc]> (keychains st)))
    as [all kcs]. simpl in K.
  destruct all; [|exact K].
  match goal with
  | |- context [analyzeCards invoke ?s] =>
      pose proof (analyzeCards_keychains s) as A;
      rewrite dispatchEvent_keychains in A;
      destruct (analyzeCards invoke s) as [[result| |] st6]
  end; cbn [snd fst keychains setGate setKeychains] in A.
  - assert (K7 : keychains (dispatchEvent (setAnalysis st6 result) "analyzed")
                 = kcs) by (rewrite dispatchEvent_keychains; exact A).
    revert K7.
    generalize (dispatchEvent (setAnalysis st6 result) "analyzed").
    intros st7 K7. destruct (analysis st7) as [cardsObj|].
    + destruct (scoreHands (players st7) cardsObj);
        cbn [snd]; [|rewrite K7; exact K..].
      change (keychains (dispatchEvent
                (setAnalysis st7 (Some (setVerdict a true None))) "scored")
              !! pid = Some kc).
      rewrite dispatchEvent_keychains. cbn [keychains setAnalysis].
      rewrite K7. exact K.
    + cbn [snd]. rewrite K7. exact K.
  - cbn [snd]. rewrite A. exact K.
  - cbn [snd]. rewrite A. exact K.
Qed.

End VerificationFacts.

(** * The claims *)

(** C4.  For all arrays of card-value strings, [compareDecks] returns true
    exactly when the two arrays are equal as multisets (one is a
    permutation of the other); it is symmetric and reflexive, duplicates
    included. *)
Theorem compareDecks_multiset_equality (A B : list string) :
  (compareDecks A B = true <-> Permutation A B)
  /\ compareDecks A B = compareDecks B A
  /\ compareDecks A A = true.
Proof.
  split; [apply compareDecks_Permutation|].
  split; [apply compareDecks_sym|apply compareDecks_refl].
Qed.

(** C5, as stated, fails: a card submitted twice, or held twice by the deck,
    does not always fail the count.  With the items ["c"; "c"] and the deck
    ["c"; "c"] the two copies in the deck are removed by the first item and
    the call returns true. *)
Lemma removeFromDeck_duplicates_can_pass :
  ~ (forall (A D : list string) (x : string),
       (2 <= occurrences x A)%nat -> fst (removeFromDeck A D) = false)
  /\ ~ (forall (A D : list string) (x : string),
          In x A -> (2 <= occurrences x D)%nat ->
          fst (removeFromDeck A D) = false).
Proof.
  split; intros H.
  - specialize (H ["c"; "c"] ["c"; "c"] "c"). vm_compute in H.
    specialize (H (le_n 2)). discriminate.
  - specialize (H ["c"; "c"] ["c"; "c"] "c" (or_introl eq_refl)).
    vm_compute in H. specialize (H (le_n 2)). discriminate.
Qed.

(** C5, amended.  [removeFromDeck A D] leaves in [D] exactly the elements
    that equal no element of [A], returns true exactly when the number of
    elements removed is the length of [A], and does the same for every
    permutation of [A].  A repeated item fails the count when the deck has
    no duplicates, and a duplicate in the deck of one of the items fails the
    count when the items are distinct and all occur in the deck. *)
Theorem removeFromDeck_spec (A D : list string) :
  snd (removeFromDeck A D) = remainingDeck A D
  /\ (fst (removeFromDeck A D) = true <-> removedCount A D = length A)
  /\ (forall A', Permutation A A' -> removeFromDeck A' D = removeFromDeck A D)
  /\ (List.NoDup D -> ~ List.NoDup A -> fst (removeFromDeck A D) = false)
  /\ (forall x, List.NoDup A -> incl A D -> In x A ->
        (2 <= occurrences x D)%nat -> fst (removeFromDeck A D) = false).
Proof.
  split; [apply removeFromDeck_deck|].
  split; [rewrite removeFromDeck_result; apply Nat.eqb_eq|].
  split; [intros A' P; symmetry; now apply removeFromDeck_perm|].
  split; [apply removeFromDeck_repeated_item|].
  intros x. apply removeFromDeck_duplicate_in_deck.
Qed.

Lemma removeFromDeck_spec_witness :
  snd (removeFromDeck ["b"; "a"] ["a"; "x"; "b"; "y"]) = ["x"; "y"]
  /\ fst (removeFromDeck ["b"; "a"] ["a"; "x"; "b"; "y"]) = true
  /\ removeFromDeck ["a"; "b"] ["a"; "x"; "b"; "y"]
     = removeFromDeck ["b"; "a"] ["a"; "x"; "b"; "y"]
  /\ fst (removeFromDeck ["a"; "a"] ["a"; "x"]) = false
  /\ fst (removeFromDeck ["a"] ["a"; "x"; "a"]) = false.
Proof.
  split.
  { exact (proj1 (removeFromDeck_spec ["b"; "a"] ["a"; "x"; "b"; "y"])). }
  split.
  { apply (proj1 (proj2 (removeFromDeck_spec ["b"; "a"] ["a"; "x"; "b"; "y"]))).
    reflexivity. }
  split.
  { apply (proj1 (proj2 (proj2
             (removeFromDeck_spec ["b"; "a"] ["a"; "x"; "b"; "y"])))).
    apply perm_swap. }
  split.
  { apply (proj1 (proj2 (proj2 (proj2
             (removeFromDeck_spec ["a"; "a"] ["a"; "x"]))))).
    - repeat constructor; simpl; intuition discriminate.
    - intros N. inversion N as [|? ? I _]; subst. apply I. now left. }
  { apply (proj2 (proj2 (proj2 (proj2
             (removeFromDeck_spec ["a"] ["a"; "x"; "a"])))) "a").
    - repeat constructor; simpl; tauto.
    - intros y [<-|[]]. now left.
    - now left.
    - vm_compute. lia. }
Defined.

(** C10.  [removeFromDeck] is not atomic on failure: there are inputs for
    which it returns false and the deck array has lost elements. *)
Theorem removeFromDeck_not_atomic :
  exists A D : list string,
    fst (removeFromDeck A D) = false
    /\ snd (removeFromDeck A D) <> D
    /\ (length (snd (removeFromDeck A D)) < length D)%nat.
Proof.
  exists ["a"; "z"], ["a"; "b"]. vm_compute.
  split; [reflexivity|]. split; [discriminate|lia].
Qed.

(** C7.  For a list of five ranks, [straightType] returns the low rank [k]
    (1..9) when the ranks are, as a multiset, [k .. k+4], returns 10 for the
    ace-high window and 0 otherwise; and [scoreHand] scores every low-ace
    straight A-2-3-4-5 strictly below every straight 2-3-4-5-6 of the same
    kind (both flushes or both not). *)
Theorem straightType_windows_and_low_ace :
  (forall l : list Z, length l = 5%nat ->
     (forall k, 1 <= k <= 9 ->
        Permutation l [k; k + 1; k + 2; k + 3; k + 4] -> straightType l = k)
     /\ (Permutation l [10; 11; 12; 13; 1] -> straightType l = 10)
     /\ ((forall k, 1 <= k <= 9 ->
            ~ Permutation l [k; k + 1; k + 2; k + 3; k + 4]) ->
         ~ Permutation l [10; 11; 12; 13; 1] -> straightType l = 0))
  /\ (forall h1 h2 : list CypherPokerCard,
        validHand h1 -> validHand h2 ->
        Permutation (map value h1) [1; 2; 3; 4; 5] ->
        Permutation (map value h2) [2; 3; 4; 5; 6] ->
        sameSuit h1 = sameSuit h2 ->
        handScore h1 < handScore h2).
Proof.
  split.
  - intros l _. split; [intros k; apply straightType_window|].
    split; [apply straightType_ace_high|apply straightType_none].
  - intros h1 h2 (L1 & V1 & _) (L2 & V2 & _) P1 P2 S. unfold handScore.
    rewrite (proj1 (scoreHand_values h1 _ L1 V1 P1)).
    rewrite (proj1 (scoreHand_values h2 _ L2 V2 P2)).
    rewrite S. destruct (sameSuit h2); vm_compute; reflexivity.
Qed.

(** C6.  The score of a five-card hand of the standard deck does not depend
    on the order of the cards; [scoreHand] names the hand by its class, and
    a hand of a class that ranks higher in the table scores strictly more
    than any hand of a class that ranks lower. *)
Theorem scoreHand_permutation_invariant_and_monotone
    (h1 h2 : list CypherPokerCard) :
  validHand h1 -> validHand h2 ->
  (forall h1', Permutation h1 h1' -> handScore h1' = handScore h1)
  /\ name (scoreHand (newHandObj h1)) = Some (pokerClass h1)
  /\ (outranks (pokerClass h1) (pokerClass h2) -> handScore h2 < handScore h1).
Proof.
  intros V1 V2. split.
  - intros h1' P. unfold handScore. symmetry. now apply scoreHand_perm.
  - destruct (scoreHand_class_range h1 V1) as [N1 R1].
    destruct (scoreHand_class_range h2 V2) as [N2 R2].
    split; [assumption|]. intros O. unfold handScore.
    pose proof (classRange_separated _ _ O). lia.
Qed.

Lemma contender_score_nonneg (players : list CypherPokerPlayer)
    (cardsObj : Analysis) (i : nat) (perm : list CypherPokerCard) :
  registeredCards cardsObj -> contender players cardsObj i perm ->
  0 <= handScore perm.
Proof.
  intros [Vp Vc] (pid & cards & p & I & _ & _ & _ & J).
  apply createCardPermutations_spec in J. destruct J as [L Sub].
  apply handScore_nonneg; [assumption|].
  apply List.Forall_forall. intros c Ic. apply validCard_weighted.
  apply Sub, in_app_or in Ic. destruct Ic as [Ic|Ic].
  - specialize (Vc pid cards I). rewrite List.Forall_forall in Vc. auto.
  - rewrite List.Forall_forall in Vp. auto.
Qed.

Lemma tiebreakOf_nonneg (players : list CypherPokerPlayer)
    (cardsObj : Analysis) (i : nat) (t : Z) :
  registeredCards cardsObj -> tiebreakOf players cardsObj i = Some t ->
  0 <= t.
Proof.
  intros [_ Vc]. unfold tiebreakOf.
  destruct (nth_error players i) as [p|]; [|discriminate].
  destruct (objGet (private cardsObj) (privateID p))
    as [[|c1 [|c2 more]]|] eqn:G; try discriminate.
  intros E. injection E as <-.
  destruct (objGet_In _ _ _ G) as (k & I). specialize (Vc _ _ I).
  inversion Vc as [|? ? V1 Vc']; subst. inversion Vc' as [|? ? V2 _]; subst.
  apply validCard_weighted in V1, V2. destruct V1, V2.
  rewrite holeScore_max_min. lia.
Qed.

(** C8, amended.  With the cards of the registry: if two players who have
    not folded each hold a permutation with the top score, their hole-card
    scores (the larger high weight of the two hole cards times 10 plus the
    smaller one) are equal and no player at the top score has a larger one,
    then [scoreHands] lists both as winners; and no player is listed twice,
    however many of their permutations reach the top score. *)
Theorem scoreHands_split_pot (players : list CypherPokerPlayer)
    (cardsObj : Analysis) (S T : Z) (i1 i2 : nat)
    (perm1 perm2 : list CypherPokerCard) :
  registeredCards cardsObj ->
  topScore players cardsObj S ->
  contender players cardsObj i1 perm1 -> handScore perm1 = S ->
  contender players cardsObj i2 perm2 -> handScore perm2 = S ->
  tiebreakOf players cardsObj i1 = Some T ->
  tiebreakOf players cardsObj i2 = Some T ->
  (forall j perm, contender players cardsObj j perm -> handScore perm = S ->
     exists t, tiebreakOf players cardsObj j = Some t /\ t <= T) ->
  exists scored,
    scoreHands players cardsObj = Resolved scored
    /\ In i1 (winningPlayers scored)
    /\ In i2 (winningPlayers scored)
    /\ List.NoDup (winningPlayers scored).
Proof.
  intros Reg Top C1 E1 C2 E2 T1 T2 Others.
  assert (S0 : 0 <= S)
    by (rewrite <- E1; now apply (contender_score_nonneg players cardsObj i1)).
  assert (T0 : 0 <= T) by now apply (tiebreakOf_nonneg players cardsObj i1).
  unfold scoreHands.
  pose proof (scorePlayers_contenders players cardsObj) as B.
  set (st1 := scorePlayers players (public cardsObj) (private cardsObj) _) in *.
  destruct B as [B1 B2 B3 B4 B5].
  assert (Hs : highestScore st1 = S).
  { pose proof (B1 _ _ C1) as L1.
    destruct B3 as [E|(i & p & C & E)]; [lia|].
    pose proof (Top _ _ C). lia. }
  assert (I1 : In i1 (map fst (winners st1))) by (apply (B5 _ _ C1); congruence).
  assert (I2 : In i2 (map fst (winners st1))) by (apply (B5 _ _ C2); congruence).
  assert (Fin : forall st2,
             In i1 (map fst (winners st2)) -> In i2 (map fst (winners st2)) ->
             exists scored,
               (let final := eliminateDuplicates (winners st2) [] in
                Resolved (setScores cardsObj (handStore st2) (map fst final)
                            (map snd final))) = Resolved scored
               /\ In i1 (winningPlayers scored) /\ In i2 (winningPlayers scored)
               /\ List.NoDup (winningPlayers scored)).
  { intros st2 J1 J2.
    destruct (eliminateDuplicates_spec (winners st2) [] (List.NoDup_nil _))
      as [N K].
    eexists. split; [reflexivity|]. simpl. auto. }
  destruct (1 <? length (winners st1))%nat.
  - destruct (tieBreak_keeps players cardsObj T (winners st1)
                {| highestScore := 0; winners := [];
                   handStore := handStore st1 |}) as (st2 & R & _ & K).
    + intros c I. destruct (B4 c I) as (p & C & E).
      apply (Others _ _ C). congruence.
    + simpl. assumption.
    + rewrite R. simpl. apply Fin.
      * apply (K i1 T1). now left.
      * apply (K i2 T2). now left.
  - simpl. now apply Fin.
Qed.

Lemma setDeals_same (st : Analyzer) : setDeals st (deals st) = st.
Proof. destruct st; reflexivity. Qed.

Lemma lastKeypair_snoc (kc : list Keypair) (kp : Keypair) :
  lastKeypair (kc ++ [kp]) = Some kp.
Proof.
  unfold lastKeypair. rewrite length_app. simpl.
  replace (length kc + 1 - 1)%nat with (length kc) by lia.
  rewrite nth_error_app2 by lia. now rewrite Nat.sub_diag.
Qed.

Section VerificationClaims.
Variable invoke : CryptoOp -> string -> option Keypair -> string.

(** C1.  With a captured deck of the plaintext snapshot and [n]
    encryption snapshots, stage [i] holds when the cards of snapshot
    [i-1], each encrypted under the last keypair of the keychain stored for
    the sender of snapshot [i], are the cards of snapshot [i] as a multiset.
    When every stage holds, [analyzeCards] goes on to the deals with the
    last snapshot as the encrypted deck.  At the first stage that does not
    hold it rejects with an error whose code is 1 and whose message names
    the stage and the sender; the error is stored in the analysis, which is
    marked complete and keeps its cards and hands; nothing else of the
    analyzer changes; and the outcome is the same whatever the deals
    are. *)
Theorem analyzeCards_deck_stages (st : Analyzer) (a : Analysis)
    (generated : DeckSnapshot) (snapshots : list DeckSnapshot) :
  deck st = generated :: snapshots ->
  analysis st = Some a ->
  (forall j p c, stageOf (deck st) j = Some (p, c) ->
                 is_Some (keychains st !! snap_fromPID c)) ->
  (forall p c kc kp,
     keychains st !! snap_fromPID c = Some (kc ++ [kp]) ->
     (stageHolds invoke (keychains st) p c
      <-> Permutation
            (map (fun v => invoke Encrypt v (Some kp)) (snap_cards p))
            (snap_cards c)))
  /\ ((forall j p c, stageOf (deck st) j = Some (p, c) ->
                     stageHolds invoke (keychains st) p c) ->
      analyzeCards invoke st
      = analyzeDeals invoke st (snap_cards (List.last snapshots generated)))
  /\ (forall i previous current,
        stageOf (deck st) i = Some (previous, current) ->
        (forall j p c, (j < i)%nat -> stageOf (deck st) j = Some (p, c) ->
                       stageHolds invoke (keychains st) p c) ->
        ~ stageHolds invoke (keychains st) previous current ->
        exists e a',
          message e
          = "Deck encryption at stage " +:+ showNat i +:+ " by " +:+ dq
              +:+ snap_fromPID current +:+ dq +:+ " failed."
          /\ code e = Some 1
          /\ error a' = Some e /\ complete a' = true
          /\ private a' = private a /\ public a' = public a
          /\ hands a' = hands a /\ winningPlayers a' = winningPlayers a
          /\ winningHands a' = winningHands a
          /\ forall st2,
               deck st2 = deck st -> keychains st2 = keychains st ->
               analysis st2 = Some a ->
               let r := analyzeCards invoke st2 in
               r.1 = Rejected e /\ analysis r.2 = Some a'
               /\ players r.2 = players st2 /\ tableID r.2 = tableID st2
               /\ deck r.2 = deck st2 /\ mappedDeck r.2 = mappedDeck st2
               /\ deals r.2 = deals st2 /\ keychains r.2 = keychains st2
               /\ active r.2 = active st2
               /\ keychainCommitTimeout r.2 = keychainCommitTimeout st2
               /\ timer r.2 = timer st2
               /\ gameListeners r.2 = gameListeners st2
               /\ keychainListener r.2 = keychainListener st2
               /\ dispatched r.2 = dispatched st2).
Proof.
  intros D A K. split; [|split].
  - intros p c kc kp E. unfold stageHolds, reEncrypt. rewrite E.
    change (default [] (Some (kc ++ [kp]))) with (kc ++ [kp]).
    now rewrite lastKeypair_snoc.
  - intros Hs. unfold analyzeCards. rewrite D in *.
    now rewrite (verifyDeck_passes invoke (keychains st) snapshots generated
                   1 K Hs).
  - intros i previous current E Hs N.
    exists (codedError (deckStageMessage i (snap_fromPID current)) 1).
    exists (setVerdict a true
              (Some (codedError (deckStageMessage i (snap_fromPID current)) 1))).
    do 9 (split; [reflexivity|]).
    intros st2 D2 K2 A2. cbv zeta.
    assert (analyzeCards invoke st2
            = (Rejected
                 (codedError (deckStageMessage i (snap_fromPID current)) 1),
               setAnalysis st2
                 (Some (setVerdict a true
                          (Some (codedError
                                   (deckStageMessage i (snap_fromPID current))
                                   1)))))) as ->.
    { unfold analyzeCards. rewrite D2, K2. rewrite D in *.
      rewrite (verifyDeck_fails invoke (keychains st) snapshots generated
                 1 i previous current K E Hs N).
      replace (1 + i - 1)%nat with i by lia.
      unfold throwError. now rewrite A2. }
    cbn. repeat split; reflexivity.
Qed.

(** C9.  When no deck snapshot was captured, [analyzeCards] resolves with
    [null] and leaves the analyzer as it was: no error is raised and
    [analysis.error] keeps its value. *)
Theorem analyzeCards_empty_deck (st : Analyzer) :
  deck st = [] ->
  analyzeCards invoke st = (Resolved None, st).
Proof. intros D. unfold analyzeCards. now rewrite D. Qed.

(** C3, amended.  A submission stores the submitted keychain for the
    private ID of the event, whatever was stored for that ID before: the
    last submission wins, and submitting the stored keychain again leaves
    it as it is. *)
Theorem onPlayerKeychain_last_submission_wins (st : Analyzer)
    (pid : string) (kc : list Keypair) :
  keychains (onPlayerKeychain invoke st pid kc).2 !! pid = Some kc.
Proof. apply onPlayerKeychain_stores. Qed.

End VerificationClaims.

(** C1 at the tampered deck: the second snapshot was altered, stage 1 holds
    under the last keypair of the first player and stage 2 does not. *)
Lemma analyzeCards_deck_stages_witness :
  exists e a',
    message e
    = "Deck encryption at stage 2 by " +:+ dq +:+ "P2" +:+ dq +:+ " failed."
    /\ code e = Some 1 /\ error a' = Some e /\ complete a' = true
    /\ (analyzeCards Sample.toyInvoke SampleStages.tampered).1 = Rejected e
    /\ analysis (analyzeCards Sample.toyInvoke SampleStages.tampered).2
       = Some a'.
Proof.
  destruct (proj2 (proj2 (analyzeCards_deck_stages Sample.toyInvoke
                            SampleStages.tampered newAnalysis Sample.generated
                            [Sample.stage1; Sample.stage2] eq_refl eq_refl
                            ltac:(intros j p c E;
                                  pose proof (stageOf_bound _ _ _ _ E) as B;
                                  destruct j as [|[|[|j]]]; simpl in B;
                                  try lia; vm_compute in E; inversion E;
                                  subst; vm_compute; eauto)))
              2%nat Sample.stage1 Sample.stage2 eq_refl
              ltac:(intros j p c L E;
                    pose proof (stageOf_bound _ _ _ _ E) as B;
                    destruct j as [|[|j]]; try lia;
                    vm_compute in E; inversion E; subst;
                    apply stage_compare; vm_compute; reflexivity)
              ltac:(intros Hs; apply stage_compare in Hs;
                    vm_compute in Hs; discriminate))
    as (e & a' & M & C & Er & Co & _ & _ & _ & _ & _ & R).
  destruct (R SampleStages.tampered eq_refl eq_refl eq_refl) as (R1 & R2 & _).
  exists e, a'. repeat split; assumption.
Defined.

Lemma analyzeCards_empty_deck_witness :
  analyzeCards Sample.toyInvoke Sample.noDeck = (Resolved None, Sample.noDeck).
Proof. exact (analyzeCards_empty_deck Sample.toyInvoke Sample.noDeck eq_refl). Defined.

(** C3, as stated, fails: [P2] has not committed yet, so the keychain
    listener is still registered after the first submission of [P1]; the
    second submission of [P1] replaces the stored keychain. *)
Lemma onPlayerKeychain_second_submission_overwrites :
  let st0 := (onGameAnalyze Sample.playing
                [Sample.P1; Sample.P2pending] "P1").2 in
  let st1 := (onPlayerKeychain Sample.toyInvoke st0 "P1" [Sample.kp1]).2 in
  let st2 := (onPlayerKeychain Sample.toyInvoke st1 "P1" [Sample.kp2]).2 in
  keychainListener st1 = true
  /\ keychains st1 !! "P1" = Some [Sample.kp1]
  /\ keychains st2 !! "P1" = Some [Sample.kp2]
  /\ keychains st2 !! "P1" <> keychains st1 !! "P1".
Proof.
  cbv zeta. split; [vm_compute; reflexivity|].
  rewrite !onPlayerKeychain_stores.
  split; [reflexivity|]. split; [reflexivity|]. discriminate.
Qed.

(** C2.  The timer callback at an analyzer whose second player has not
    committed: the timer was armed with the default delay, and when it fires
    the analysis is marked complete and an [Error] without a [code] is
    thrown; [analysis.error] stays [null] and no event is dispatched. *)
Theorem onKCSTimeout_leaves_error_unset :
  let st := (onGameAnalyze Sample.playing
               [Sample.P1; Sample.P2pending] "P1").2 in
  let e := {| message := timeoutMessage "table"; code := None |} in
  timer st = Some 10000
  /\ (allKeychainsCommitted st).1 = false
  /\ onKCSTimeout st
     = (Rejected e, setAnalysis st (Some (setVerdict newAnalysis true None)))
  /\ dispatched (onKCSTimeout st).2 = [].
Proof. vm_compute. repeat split; reflexivity. Qed.

(** The same for every analyzer: the callback never assigns a code and
    never touches [analysis.error]. *)
Lemma onKCSTimeout_general (context : Analyzer) :
  let a := (getAnalysis context).1 in
  onKCSTimeout context
  = (Rejected {| message := timeoutMessage (tableID context); code := None |},
     setAnalysis context (Some (setVerdict a true (error a)))).
Proof.
  unfold onKCSTimeout, getAnalysis. destruct (analysis context); reflexivity.
Qed.

(** ** Worked instances of the scoring claims *)

Ltac prove_validHand :=
  split; [reflexivity|];
  split;
  [ repeat constructor; cbn; lia
  | repeat constructor; cbn; intuition discriminate ].

Ltac prove_perm :=
  apply compareDecks_Permutation; vm_compute; reflexivity.

Lemma scoreHand_permutation_invariant_and_monotone_witness :
  handScore Sample.aFlushShuffled = handScore Sample.aFlush
  /\ name (scoreHand (newHandObj Sample.aFlush)) = Some Flush
  /\ handScore Sample.aStraight < handScore Sample.aFlush.
Proof.
  assert (V1 : validHand Sample.aFlush) by prove_validHand.
  assert (V2 : validHand Sample.aStraight) by prove_validHand.
  destruct (scoreHand_permutation_invariant_and_monotone
              Sample.aFlush Sample.aStraight V1 V2) as (A & B & C).
  split; [apply A; apply perm_swap|].
  split; [exact B|].
  apply C. vm_compute. lia.
Defined.

Lemma straightType_windows_and_low_ace_witness :
  straightType [5; 3; 7; 6; 4] = 3
  /\ straightType [13; 1; 10; 12; 11] = 10
  /\ straightType [1; 3; 5; 7; 9] = 0
  /\ handScore Sample.lowAce < handScore Sample.sixHigh.
Proof.
  destruct straightType_windows_and_low_ace as [W L].
  split; [apply (proj1 (W [5; 3; 7; 6; 4] eq_refl) 3); [lia|prove_perm]|].
  split; [apply (proj1 (proj2 (W [13; 1; 10; 12; 11] eq_refl))); prove_perm|].
  split.
  - apply (proj2 (proj2 (W [1; 3; 5; 7; 9] eq_refl))).
    + intros k R P.
      assert (I1 : In 1 [k; k + 1; k + 2; k + 3; k + 4])
        by (apply (Permutation_in 1 P); simpl; tauto).
      assert (I9 : In 9 [k; k + 1; k + 2; k + 3; k + 4])
        by (apply (Permutation_in 9 P); simpl; tauto).
      simpl in I1, I9. lia.
    + intros P. apply compareDecks_Permutation in P. vm_compute in P.
      discriminate.
  - apply L; [prove_validHand|prove_validHand|prove_perm|prove_perm|reflexivity].
Defined.

Ltac each_contender C :=
  destruct C as (pid & cards & p & I & G & N & F & J);
  cbn in I; destruct I as [I|[I|[]]]; inversion I; subst pid cards; clear I;
  vm_compute in G; inversion G; subst; clear G;
  cbn in J;
  repeat (destruct J as [J|J]; [subst|]); try contradiction.

Ltac each_contender3 C :=
  destruct C as (pid & cards & p & I & G & N & F & J);
  cbn in I; destruct I as [I|[I|[I|[]]]]; inversion I; subst pid cards; clear I;
  vm_compute in G; inversion G; subst; clear G;
  cbn in J;
  repeat (destruct J as [J|J]; [subst|]); try contradiction.

(** C8, as stated, fails with a third player: the three players share the
    top score of the board, the first two have equal hole-card scores (32),
    and the third one, with an ace and a king (153), is the only winner. *)
Lemma scoreHands_third_player_outkicks :
  let players := [Sample.P1; Sample.P2; Sample.P3] in
  topScore players Sample.showdown3 60000000000
  /\ contender players Sample.showdown3 0 Sample.board
  /\ contender players Sample.showdown3 1 Sample.board
  /\ handScore Sample.board = 60000000000
  /\ tiebreakOf players Sample.showdown3 0 = Some 32
  /\ tiebreakOf players Sample.showdown3 1 = Some 32
  /\ exists scored,
       scoreHands players Sample.showdown3 = Resolved scored
       /\ winningPlayers scored = [2%nat]
       /\ ~ In 0%nat (winningPlayers scored)
       /\ ~ In 1%nat (winningPlayers scored).
Proof.
  cbv zeta. split.
  { intros i perm C. each_contender3 C; vm_compute; discriminate. }
  split.
  { exists "P1", [Sample.card Hearts 2; Sample.card Diamonds 3], Sample.P1.
    repeat split; cbn; auto. }
  split.
  { exists "P2", [Sample.card Diamonds 2; Sample.card Hearts 3], Sample.P2.
    repeat split; cbn; auto. }
  split; [reflexivity|]. split; [reflexivity|]. split; [reflexivity|].
  eexists. split; [vm_compute; reflexivity|]. cbn.
  split; [reflexivity|]. split; intros [E|[]]; discriminate.
Qed.

Lemma scoreHands_split_pot_witness :
  exists scored,
    scoreHands [Sample.P1; Sample.P2] Sample.showdown = Resolved scored
    /\ In 0%nat (winningPlayers scored)
    /\ In 1%nat (winningPlayers scored)
    /\ List.NoDup (winningPlayers scored).
Proof.
  apply (scoreHands_split_pot [Sample.P1; Sample.P2] Sample.showdown
           60000000000 32 0 1 Sample.board Sample.board).
  - split; [repeat constructor; cbn; lia|].
    intros pid cards [E|[E|[]]]; inversion E; repeat constructor; cbn; lia.
  - intros i perm C. each_contender C; vm_compute; discriminate.
  - exists "P1", [Sample.card Hearts 2; Sample.card Diamonds 3], Sample.P1.
    repeat split; cbn; auto.
  - reflexivity.
  - exists "P2", [Sample.card Diamonds 2; Sample.card Hearts 3], Sample.P2.
    repeat split; cbn; auto.
  - reflexivity.
  - reflexivity.
  - reflexivity.
  - intros j perm C _. exists 32.
    destruct C as (pid & cards & p & I & G & _).
    cbn in I. destruct I as [I|[I|[]]]; inversion I; subst pid cards;
      vm_compute in G; inversion G; subst; (split; [reflexivity|lia]).
Defined.

(** * More on the hand scorer *)

(** ** [createCardPermutations] enumerates every choice of five cards *)

Ltac pick_permutation :=
  cbn [createCardPermutations dropAt];
  match goal with
  | |- exists p, In p ?L /\ _ =>
      let rec try_all l :=
        lazymatch l with
        | ?p :: ?rest =>
            first [ exists p; split; [simpl; tauto | solve_Permutation]
                  | try_all rest ]
        end in
      try_all L
  end.

Lemma createCardPermutations_six (cardsArr : list CypherPokerCard) (i : nat) :
  length cardsArr = 6%nat -> (i < 6)%nat ->
  exists perm, In perm (createCardPermutations cardsArr)
               /\ Permutation perm (dropAt i cardsArr).
Proof.
  intros L Hi.
  destruct cardsArr as [|c0 [|c1 [|c2 [|c3 [|c4 [|c5 [|c6 rest]]]]]]];
    try discriminate.
  destruct i as [|[|[|[|[|[|i]]]]]]; try lia; pick_permutation.
Qed.

Lemma createCardPermutations_seven (cardsArr : list CypherPokerCard)
    (i j : nat) :
  length cardsArr = 7%nat -> (i < j < 7)%nat ->
  exists perm, In perm (createCardPermutations cardsArr)
               /\ Permutation perm (dropAt i (dropAt j cardsArr)).
Proof.
  intros L Hij.
  destruct cardsArr as [|c0 [|c1 [|c2 [|c3 [|c4 [|c5 [|c6 [|c7 rest]]]]]]]];
    try discriminate.
  destruct j as [|[|[|[|[|[|[|j]]]]]]]; try lia;
    destruct i as [|[|[|[|[|[|i]]]]]]; try lia; pick_permutation.
Qed.

(** X1.  With at most five cards the single hand is the argument itself.  With
    six cards the six hands are the six ways of leaving one card out, and
    with seven cards the twenty-one hands are the twenty-one ways of leaving
    two cards out, each up to the order of its cards. *)
Theorem createCardPermutations_covers (cardsArr : list CypherPokerCard) :
  ((length cardsArr <= 5)%nat -> createCardPermutations cardsArr = [cardsArr])
  /\ (length cardsArr = 6%nat ->
      length (createCardPermutations cardsArr) = 6%nat
      /\ forall i, (i < 6)%nat ->
           exists perm, In perm (createCardPermutations cardsArr)
                        /\ Permutation perm (dropAt i cardsArr))
  /\ (length cardsArr = 7%nat ->
      length (createCardPermutations cardsArr) = 21%nat
      /\ forall i j, (i < j < 7)%nat ->
           exists perm, In perm (createCardPermutations cardsArr)
                        /\ Permutation perm (dropAt i (dropAt j cardsArr))).
Proof.
  split; [|split].
  - intros L.
    destruct cardsArr as [|c0 [|c1 [|c2 [|c3 [|c4 [|c5 rest]]]]]];
      try reflexivity. simpl in L. lia.
  - intros L. split; [|intros i; now apply createCardPermutations_six].
    destruct cardsArr as [|c0 [|c1 [|c2 [|c3 [|c4 [|c5 [|c6 rest]]]]]]];
      try discriminate. reflexivity.
  - intros L. split; [|intros i j; now apply createCardPermutations_seven].
    destruct cardsArr as [|c0 [|c1 [|c2 [|c3 [|c4 [|c5 [|c6 [|c7 rest]]]]]]]];
      try discriminate. reflexivity.
Qed.

Lemma createCardPermutations_covers_witness :
  createCardPermutations Sample.board = [Sample.board]
  /\ (exists perm,
        In perm (createCardPermutations (Sample.card Hearts 2 :: Sample.board))
        /\ Permutation perm (dropAt 3 (Sample.card Hearts 2 :: Sample.board)))
  /\ (exists perm,
        In perm (createCardPermutations
                   (Sample.card Hearts 2 :: Sample.card Hearts 3 :: Sample.board))
        /\ Permutation perm
             (dropAt 1 (dropAt 4
                (Sample.card Hearts 2 :: Sample.card Hearts 3 :: Sample.board)))).
Proof.
  split.
  { apply (proj1 (createCardPermutations_covers Sample.board)). simpl. lia. }
  split.
  { apply (proj2 (proj1 (proj2 (createCardPermutations_covers
             (Sample.card Hearts 2 :: Sample.board))) eq_refl)). lia. }
  { apply (proj2 (proj2 (proj2 (createCardPermutations_covers
             (Sample.card Hearts 2 :: Sample.card Hearts 3 :: Sample.board)))
             eq_refl)). lia. }
Defined.

(** X2.  With cards of the registry: whichever five of a player's six or seven
    cards make the best hand, a hand with that score and that name is among
    the scored permutations. *)
Theorem scored_permutations_reach_every_choice
    (cardsArr : list CypherPokerCard) :
  Forall validCard cardsArr ->
  (length cardsArr = 6%nat ->
   forall i, (i < 6)%nat ->
     exists perm, In perm (createCardPermutations cardsArr)
       /\ Forall validCard perm
       /\ handScore perm = handScore (dropAt i cardsArr)
       /\ name (scoreHand (newHandObj perm))
          = name (scoreHand (newHandObj (dropAt i cardsArr))))
  /\ (length cardsArr = 7%nat ->
      forall i j, (i < j < 7)%nat ->
        exists perm, In perm (createCardPermutations cardsArr)
          /\ Forall validCard perm
          /\ handScore perm = handScore (dropAt i (dropAt j cardsArr))
          /\ name (scoreHand (newHandObj perm))
             = name (scoreHand (newHandObj (dropAt i (dropAt j cardsArr))))).
Proof.
  intros V.
  assert (Sub : forall perm, In perm (createCardPermutations cardsArr) ->
                  Forall validCard perm).
  { intros perm I. apply createCardPermutations_spec in I.
    destruct I as [_ Inc]. apply List.Forall_forall. intros c Ic.
    rewrite List.Forall_forall in V. auto. }
  split.
  - intros L i Hi.
    destruct (createCardPermutations_six cardsArr i L Hi) as (perm & I & P).
    exists perm. split; [assumption|]. split; [now apply Sub|].
    now apply scoreHand_perm.
  - intros L i j Hij.
    destruct (createCardPermutations_seven cardsArr i j L Hij) as (perm & I & P).
    exists perm. split; [assumption|]. split; [now apply Sub|].
    now apply scoreHand_perm.
Qed.

Lemma scored_permutations_reach_every_choice_witness :
  exists perm,
    In perm (createCardPermutations
               (Sample.card Hearts 2 :: Sample.card Hearts 3 :: Sample.board))
    /\ Forall validCard perm
    /\ handScore perm = handScore Sample.board
    /\ name (scoreHand (newHandObj perm))
       = name (scoreHand (newHandObj Sample.board)).
Proof.
  apply (proj2 (scored_permutations_reach_every_choice
                  (Sample.card Hearts 2 :: Sample.card Hearts 3 :: Sample.board)
                  ltac:(repeat (apply List.Forall_cons;
                                [unfold validCard, Sample.card, highOf;
                                 simpl; lia|]);
                        apply List.Forall_nil))
           eq_refl 0%nat 1%nat). lia.
Defined.

(** ** [straightType] only answers with a window that is there *)

Lemma straightType_find (l : list Z) (k : Z) :
  straightType l = k -> k <> 0 ->
  (1 <= k <= 10) /\ Permutation l (windowOf k).
Proof.
  unfold straightType. destruct (length l <? 5)%nat; [congruence|].
  destruct_find j F.
  - apply find_some in F. destruct F as [Ij F].
    apply In_straightWindows in Ij. apply compareDecks_Permutation in F.
    intros <- _. split; [lia|]. unfold windowOf.
    destruct (Z.eqb_spec j 10); [lia|assumption].
  - destruct (compareDecks l [10; 11; 12; 13; 1]) eqn:E; [|congruence].
    apply compareDecks_Permutation in E. intros <- _. split; [lia|exact E].
Qed.

(** X3.  The answer of [straightType] lies between 0 and 10, and an answer other
    than 0 means that the values are exactly the five ranks of that
    straight (so there are five of them, all different). *)
Theorem straightType_sound (cardValues : list Z) :
  0 <= straightType cardValues <= 10
  /\ (straightType cardValues <> 0 ->
      Permutation cardValues (windowOf (straightType cardValues))
      /\ length cardValues = 5%nat
      /\ List.NoDup cardValues).
Proof.
  destruct (Z.eq_dec (straightType cardValues) 0) as [E|N].
  - rewrite E. split; [lia|]. congruence.
  - destruct (straightType_find cardValues _ eq_refl N) as [R P].
    split; [lia|]. intros _. split; [assumption|].
    split.
    + rewrite (Permutation_length P). unfold windowOf.
      destruct (_ =? 10); reflexivity.
    + apply (Permutation_NoDup (Permutation_sym P)). unfold windowOf.
      destruct (_ =? 10); repeat constructor; simpl; lia.
Qed.

Lemma straightType_sound_witness :
  Permutation [12; 10; 1; 13; 11] (windowOf (straightType [12; 10; 1; 13; 11])).
Proof.
  apply (proj2 (straightType_sound [12; 10; 1; 13; 11])).
  vm_compute. discriminate.
Defined.

(** ** The score in closed form *)

Lemma checkExpected_exhaustive : forallb checkExpected sortedHands = true.
Proof. vm_compute. reflexivity. Qed.

(** X4.  The score of a hand of five distinct registry cards is the multiplier
    of its class times the sum of the high weights of its cards (the low
    weights for the low-ace straight); for four of a kind, three of a kind,
    two pairs and one pair it is lowered by (multiplier - 1) times the high
    weight of one kicker, the one with the largest low value; a high card
    scores its largest high weight. *)
Theorem scoreHand_closed_form (h : list CypherPokerCard) :
  validHand h ->
  handScore h = expectedScore (sameSuit h) (sortZ (map value h)).
Proof.
  intros V. unfold handScore. rewrite (proj1 (scoreHand_sorted h V)).
  pose proof (validHand_admissible h V) as Ad.
  pose proof (validHand_sortedHands h V) as I.
  pose proof checkExpected_exhaustive as C.
  rewrite forallb_forall in C. specialize (C _ I).
  unfold checkExpected in C. apply andb_true_iff in C. destruct C as [C1 C2].
  destruct (sameSuit h); [rewrite Ad in C1|rewrite Ad in C2];
    simpl in *; now apply Z.eqb_eq.
Qed.

Lemma scoreHand_closed_form_witness :
  handScore Sample.aFlush
  = expectedScore (sameSuit Sample.aFlush) (sortZ (map value Sample.aFlush)).
Proof. apply scoreHand_closed_form. prove_validHand. Defined.

(** ** Hands of fewer than five cards *)

(** X5.  A hand of fewer than five cards (the hole cards before the flop, say) is
    never given a straight, a flush, four of a kind or a full house: it is
    named three of a kind, two pairs, one pair or high card. *)
Theorem scoreHand_short_hand (h : list CypherPokerCard) :
  (length h < 5)%nat ->
  In (name (scoreHand (newHandObj h)))
     [Some ThreeOfAKind; Some TwoPairs; Some OnePair; Some HighCard].
Proof.
  intros L. unfold scoreHand, newHandObj, scoreWith. cbn [hand name].
  assert (Nat.eqb (length h) 5 = false) as E5 by (apply Nat.eqb_neq; lia).
  assert (Nat.leb 5 (length h) = false) as L5 by (apply Nat.leb_gt; lia).
  assert (straightType (map value h) = 0) as S0.
  { unfold straightType. rewrite length_map.
    now apply Nat.ltb_lt in L as ->. }
  rewrite S0, E5, andb_false_r. unfold classify. rewrite L5.
  cbn [Z.eqb Z.ltb Z.compare andb orb negb].
  rewrite andb_false_r.
  repeat match goal with
         | |- context [if ?b then _ else _] => destruct b
         end; cbn [name]; simpl; tauto.
Qed.

Lemma scoreHand_short_hand_witness :
  In (name (scoreHand (newHandObj [Sample.card Hearts 9; Sample.card Spades 9])))
     [Some ThreeOfAKind; Some TwoPairs; Some OnePair; Some HighCard].
Proof. apply scoreHand_short_hand. simpl. lia. Defined.

(** X6.  Two hole cards of the registry on their own: two cards of one value are
    one pair and score 15 times the sum of their high weights; two cards of
    different values are a high card and score the larger high weight. *)
Theorem scoreHand_two_cards (c1 c2 : CypherPokerCard) :
  validCard c1 -> validCard c2 ->
  let r := scoreHand (newHandObj [c1; c2]) in
  (value c1 = value c2 ->
   name r = Some OnePair /\ score r = 15 * (highvalue c1 + highvalue c2))
  /\ (value c1 <> value c2 ->
      name r = Some HighCard
      /\ score r = Z.max (highvalue c1) (highvalue c2)).
Proof.
  intros V1 V2.
  assert (0 < highvalue c1 /\ 0 < highvalue c2) as [P1 P2].
  { destruct V1 as [B1 ->], V2 as [B2 ->]. unfold highOf.
    destruct (value c1 =? 1), (value c2 =? 1); lia. }
  cbv zeta. unfold scoreHand, newHandObj, scoreWith. cbn [hand name length].
  rewrite andb_false_r.
  change (straightType (map value [c1; c2])) with 0.
  unfold valueGroupsOf. cbn [fold_left pushValueGroup].
  split.
  - intros E. rewrite E, Z.eqb_refl. cbn. split; [reflexivity|lia].
  - intros N. apply Z.eqb_neq in N as N'. rewrite N'.
    assert (forall g : list (Z * list CypherPokerCard),
               length g = 2%nat ->
               classify None 2 false 0 g = (1, Some HighCard, 0, true)) as C.
    { intros g Lg. unfold classify. rewrite Lg. reflexivity. }
    destruct (value c2 <? value c1); rewrite C by reflexivity;
      cbn [name score]; (split; [reflexivity|]);
      unfold handValueOf; change (1 <? 1) with false; cbv iota;
      cbn [fold_left];
      destruct (Z.ltb_spec 0 (highvalue c1));
      match goal with
      | |- context [?a <? ?b] => destruct (Z.ltb_spec a b)
      end; lia.
Qed.

Lemma scoreHand_two_cards_witness :
  let c1 := Sample.card Hearts 9 in
  let c2 := Sample.card Spades 9 in
  let c3 := Sample.card Spades 1 in
  (name (scoreHand (newHandObj [c1; c2])) = Some OnePair
   /\ score (scoreHand (newHandObj [c1; c2])) = 270)
  /\ (name (scoreHand (newHandObj [c1; c3])) = Some HighCard
      /\ score (scoreHand (newHandObj [c1; c3])) = 14).
Proof.
  assert (forall s v, 1 <= v <= 13 -> validCard (Sample.card s v)) as V
    by (intros s v B; split; [exact B|reflexivity]).
  cbv zeta. split.
  - apply (proj1 (scoreHand_two_cards (Sample.card Hearts 9)
                    (Sample.card Spades 9)
                    (V Hearts 9 ltac:(lia)) (V Spades 9 ltac:(lia)))).
    reflexivity.
  - apply (proj2 (scoreHand_two_cards (Sample.card Hearts 9)
                    (Sample.card Spades 1)
                    (V Hearts 9 ltac:(lia)) (V Spades 1 ltac:(lia)))).
    discriminate.
Defined.

(** X7.  A hand of at most five cards whose weights are not negative never
    scores below zero, whatever its class and kicker adjustment. *)
Theorem scoreHand_never_negative (h : list CypherPokerCard) :
  (length h <= 5)%nat -> Forall weighted h -> 0 <= handScore h.
Proof. intros L W. now apply handScore_nonneg. Qed.

Lemma scoreHand_never_negative_witness : 0 <= handScore Sample.lowAce.
Proof.
  apply scoreHand_never_negative; [simpl; lia|].
  unfold Sample.lowAce.
  repeat (apply List.Forall_cons;
          [unfold weighted, Sample.card, highOf; simpl; lia|]).
  apply List.Forall_nil.
Defined.

(** ** Rescoring *)

Lemma scoreHand_hand (h : HandObj) : hand (scoreHand h) = hand h.
Proof.
  unfold scoreHand, scoreWith. destruct (classify _ _ _ _ _) as [[[m n] a] ah].
  reflexivity.
Qed.

Lemma pushValueGroup_nonempty (v : Z) (c : CypherPokerCard)
    (g : list (Z * list CypherPokerCard)) :
  Forall (fun p => (1 <= fst p)%nat) (profile g) ->
  Forall (fun p => (1 <= fst p)%nat) (profile (pushValueGroup v c g)).
Proof.
  unfold profile. induction g as [|[k a] g IH]; simpl; intros F.
  - repeat constructor.
  - inversion F as [|? ? F1 F2]; subst.
    destruct (k =? v); simpl.
    + constructor; [rewrite length_app; simpl; lia|assumption].
    + destruct (v <? k); simpl.
      * constructor; [simpl; lia|]. now constructor.
      * constructor; [assumption|now apply IH].
Qed.

Lemma valueGroups_sizes (h : list CypherPokerCard) :
  list_sum (map fst (profile (valueGroupsOf h))) = length h
  /\ Forall (fun p => (1 <= fst p)%nat) (profile (valueGroupsOf h)).
Proof.
  unfold valueGroupsOf.
  assert (G : forall g,
             Forall (fun p => (1 <= fst p)%nat) (profile g) ->
             let g' := fold_left
                         (fun acc c => pushValueGroup (value c) c acc) h g in
             list_sum (map fst (profile g'))
             = (list_sum (map fst (profile g)) + length h)%nat
             /\ Forall (fun p => (1 <= fst p)%nat) (profile g')).
  { induction h as [|c h IH]; intros g F; cbv zeta; simpl.
    - split; [lia|assumption].
    - destruct (IH _ (pushValueGroup_nonempty (value c) c g F)) as [E F'].
      cbv zeta in E. rewrite E, pushValueGroup_sizes. split; [lia|exact F']. }
  destruct (G [] (List.Forall_nil _)) as [E F]. simpl in E. auto.
Qed.

Lemma classify_previous (n : option HandName) (len : nat) (fl : bool)
    (sv : Z) (g : list (Z * list CypherPokerCard)) :
  list_sum (map fst (profile g)) = len -> (len <= 5)%nat ->
  Forall (fun p => (1 <= fst p)%nat) (profile g) ->
  classify n len fl sv g = classify None len fl sv g.
Proof.
  intros Sz L F. unfold classify.
  destruct ((sv =? 10) && fl); [reflexivity|].
  destruct ((false || (0 <? sv)) && fl); [reflexivity|].
  destruct (Nat.eqb (length g) 2 && Nat.leb 5 len) eqn:Q; [|reflexivity].
  apply andb_true_iff in Q. destruct Q as [Q1 Q2].
  apply Nat.eqb_eq in Q1. apply Nat.leb_le in Q2.
  rewrite !groupLen_profile.
  assert (length (profile g) = 2%nat) as Lp
    by (unfold profile; now rewrite length_map).
  destruct (profile g) as [|[a1 s1] [|[a2 s2] [|? ?]]]; try discriminate.
  simpl in *. inversion F as [|? ? F1 F']; subst.
  inversion F' as [|? ? F2 _]; subst. simpl in *.
  destruct a1 as [|[|[|[|[|a1]]]]]; destruct a2 as [|[|[|[|[|a2]]]]];
    simpl; try reflexivity; lia.
Qed.

(** X8.  [scoreHand] does not depend on the score and the name of the hand
    object it is given, for a hand of at most five cards: it returns what it
    returns for a fresh hand object with these cards, so scoring a scored
    hand again changes nothing. *)
Theorem scoreHand_ignores_previous (h : HandObj) :
  (length (hand h) <= 5)%nat ->
  scoreHand h = scoreHand (newHandObj (hand h))
  /\ scoreHand (scoreHand h) = scoreHand h.
Proof.
  intros L.
  assert (Fresh : forall x : HandObj,
            (length (hand x) <= 5)%nat ->
            scoreHand x = scoreHand (newHandObj (hand x))).
  { intros x Lx. rewrite !scoreHand_scoreWith. cbn [hand name newHandObj].
    unfold scoreWith. destruct (valueGroups_sizes (hand x)) as [Sz F].
    now rewrite (classify_previous (name x)). }
  split; [now apply Fresh|].
  rewrite (Fresh (scoreHand h)) by now rewrite scoreHand_hand.
  rewrite scoreHand_hand. symmetry. now apply Fresh.
Qed.

Lemma scoreHand_ignores_previous_witness :
  let h := {| hand := Sample.aStraight; score := 7; name := Some Flush |} in
  scoreHand h = scoreHand (newHandObj (hand h))
  /\ scoreHand (scoreHand h) = scoreHand h.
Proof.
  apply scoreHand_ignores_previous. simpl. lia.
Defined.


(** ** Removal on a deck without duplicates, and removals in sequence *)

Lemma remainingDeck_In (A D : list string) (y : string) :
  In y (remainingDeck A D) <-> In y D /\ ~ In y A.
Proof.
  unfold remainingDeck. rewrite filter_In. rewrite negb_true_iff.
  split; intros [I N]; split; try assumption.
  - intros J. apply matchesAny_In in J. congruence.
  - destruct (matchesAny A y) eqn:E; [|reflexivity].
    apply matchesAny_In in E. contradiction.
Qed.

Lemma remainingDeck_NoDup (A D : list string) :
  List.NoDup D -> List.NoDup (remainingDeck A D).
Proof. intros N. now apply List.NoDup_filter. Qed.

Lemma removeFromDeck_distinct (A D : list string) :
  List.NoDup D ->
  (fst (removeFromDeck A D) = true <-> List.NoDup A /\ incl A D).
Proof.
  intros ND. rewrite removeFromDeck_result, removedCount_matches, Nat.eqb_eq.
  set (M := List.filter (matchesAny A) D).
  assert (List.NoDup M) as NM by now apply List.NoDup_filter.
  assert (incl M A) as IM.
  { intros y I. apply filter_In in I. now apply matchesAny_In. }
  split.
  - intros E.
    assert (List.NoDup A) as NA.
    { apply (List.NoDup_incl_NoDup (l := M) (l' := A)); [assumption|lia|assumption]. }
    split; [assumption|].
    assert (incl A M) as IA.
    { apply List.NoDup_length_incl; [assumption|lia|assumption]. }
    intros y I. apply IA in I. apply filter_In in I. tauto.
  - intros [NA IA].
    assert (incl A M) as IA'.
    { intros y I. apply filter_In. split; [auto|now apply matchesAny_In]. }
    pose proof (List.NoDup_incl_length NA IA').
    pose proof (List.NoDup_incl_length NM IM). lia.
Qed.

Lemma NoDup_app_disjoint {X : Type} (l k : list X) :
  List.NoDup (l ++ k)
  <-> List.NoDup l /\ (forall x, In x l -> ~ In x k) /\ List.NoDup k.
Proof.
  induction l as [|a l IH]; simpl.
  - split; [intros N; repeat split; [constructor|tauto|assumption]|tauto].
  - rewrite !List.NoDup_cons_iff, IH, in_app_iff. split.
    + intros (N & Nl & Dis & Nk). repeat split; try tauto.
      intros x [->|I]; [tauto|now apply Dis].
    + intros ((N & Nl) & Dis & Nk). repeat split; try tauto.
      * intros [I|I]; [tauto|]. apply (Dis a); tauto.
      * intros x I. apply Dis. now right.
Qed.

Lemma remainingDeck_app (A B D : list string) :
  remainingDeck B (remainingDeck A D) = remainingDeck (A ++ B) D.
Proof.
  unfold remainingDeck. rewrite filter_twice. apply List.filter_ext.
  intros y. unfold matchesAny. rewrite existsb_app.
  now destruct (existsb _ A), (existsb _ B).
Qed.

(** X9.  On a deck without duplicates, [removeFromDeck] returns true exactly when
    the items are pairwise different and all of them are in the deck. *)
Theorem removeFromDeck_distinct_deck (A D : list string) :
  List.NoDup D ->
  (fst (removeFromDeck A D) = true <-> List.NoDup A /\ incl A D).
Proof. apply removeFromDeck_distinct. Qed.

Lemma removeFromDeck_distinct_deck_witness :
  fst (removeFromDeck ["b"; "a"] ["a"; "x"; "b"; "y"]) = true
  <-> List.NoDup ["b"; "a"] /\ incl ["b"; "a"] ["a"; "x"; "b"; "y"].
Proof.
  apply removeFromDeck_distinct_deck.
  repeat (apply List.NoDup_cons; [simpl; intuition discriminate|]).
  apply List.NoDup_nil.
Defined.

(** X10.  Removals compose: taking [B] out of what a removal of [A] left gives the
    deck that one removal of [A ++ B] leaves; on a deck without duplicates
    the two removals both return true exactly when the single one does.
    Taking the same items out a second time changes nothing, and fails
    unless there were no items. *)
Theorem removeFromDeck_in_sequence (A B D : list string) :
  let D1 := snd (removeFromDeck A D) in
  snd (removeFromDeck B D1) = snd (removeFromDeck (A ++ B) D)
  /\ (List.NoDup D ->
      (fst (removeFromDeck A D) = true /\ fst (removeFromDeck B D1) = true
       <-> fst (removeFromDeck (A ++ B) D) = true))
  /\ removeFromDeck A D1 = (Nat.eqb 0 (length A), D1).
Proof.
  cbv zeta. rewrite !removeFromDeck_deck. split; [apply remainingDeck_app|].
  split.
  - intros ND.
    rewrite !removeFromDeck_distinct
      by (try apply remainingDeck_NoDup; assumption).
    rewrite NoDup_app_disjoint. split.
    + intros [[NA IA] [NB IB]]. split; [split; [assumption|split; [|assumption]]|].
      * intros y Iy Jy. apply IB, remainingDeck_In in Jy. tauto.
      * intros y I. apply in_app_or in I. destruct I as [I|I]; [auto|].
        apply IB, remainingDeck_In in I. tauto.
    + intros [(NA & Dis & NB) I]. split; split; try assumption.
      * intros y Iy. apply I, in_or_app. now left.
      * intros y Iy. apply remainingDeck_In. split.
        -- apply I, in_or_app. now right.
        -- intros Jy. exact (Dis y Jy Iy).
  - rewrite (surjective_pairing (removeFromDeck A (remainingDeck A D))).
    rewrite removeFromDeck_result, removedCount_matches, removeFromDeck_deck.
    rewrite remainingDeck_app.
    assert (remainingDeck (A ++ A) D = remainingDeck A D) as E.
    { unfold remainingDeck. apply List.filter_ext. intros y.
      unfold matchesAny. rewrite existsb_app. now destruct (existsb _ A). }
    rewrite E. f_equal.
    assert (List.filter (matchesAny A) (remainingDeck A D) = []) as ->.
    { unfold remainingDeck. rewrite filter_twice. clear E.
      induction D as [|d D IH]; simpl; [reflexivity|].
      destruct (matchesAny A d); simpl; exact IH. }
    reflexivity.
Qed.

Lemma removeFromDeck_in_sequence_witness :
  fst (removeFromDeck ["a"] ["a"; "x"; "b"; "y"]) = true
  /\ fst (removeFromDeck ["b"] (snd (removeFromDeck ["a"] ["a"; "x"; "b"; "y"])))
     = true
  <-> fst (removeFromDeck (["a"] ++ ["b"]) ["a"; "x"; "b"; "y"]) = true.
Proof.
  apply (proj1 (proj2 (removeFromDeck_in_sequence ["a"] ["b"]
                         ["a"; "x"; "b"; "y"]))).
  repeat (apply List.NoDup_cons; [simpl; intuition discriminate|]).
  apply List.NoDup_nil.
Defined.

(** ** Players and committed keychains *)

Lemma getPlayerFrom_spec (ps : list CypherPokerPlayer) (pid : string) :
  forall n,
    match getPlayerFrom n ps pid with
    | Some i =>
        exists k p, i = (n + k)%nat /\ nth_error ps k = Some p
                    /\ privateID p = pid
                    /\ forall j q, (j < k)%nat -> nth_error ps j = Some q ->
                                   privateID q <> pid
    | None => forall p, In p ps -> privateID p <> pid
    end.
Proof.
  induction ps as [|a ps IH]; intros n; simpl.
  - intros p [].
  - destruct (String.eqb (privateID a) pid) eqn:E.
    + apply String.eqb_eq in E. exists 0%nat, a.
      repeat split; [lia|assumption|]. intros j q L. lia.
    + apply String.eqb_neq in E. specialize (IH (S n)).
      destruct (getPlayerFrom (S n) ps pid).
      * destruct IH as (k & p & -> & N & P & F). exists (S k), p.
        repeat split; [lia|assumption|assumption|].
        intros [|j] q L Q; simpl in Q.
        -- injection Q as <-. assumption.
        -- apply (F j q); [lia|assumption].
      * intros p [<-|I]; [assumption|now apply IH].
Qed.

Lemma getPlayer_found (ps : list CypherPokerPlayer) (pid : string) :
  match getPlayer ps pid with
  | Some i => exists p, nth_error ps i = Some p /\ privateID p = pid
  | None => True
  end.
Proof.
  unfold getPlayer. pose proof (getPlayerFrom_spec ps pid 0) as G.
  destruct (getPlayerFrom 0 ps pid); [|exact I].
  destruct G as (k & p & -> & N & P & _). exists p. auto.
Qed.

(** X11.  [getPlayer] returns the first player of the array that has the private
    ID, and none only when no player has it. *)
Theorem getPlayer_first_match (ps : list CypherPokerPlayer) (pid : string) :
  match getPlayer ps pid with
  | Some i =>
      exists p, nth_error ps i = Some p /\ privateID p = pid
                /\ forall j q, (j < i)%nat -> nth_error ps j = Some q ->
                               privateID q <> pid
  | None => forall p, In p ps -> privateID p <> pid
  end.
Proof.
  unfold getPlayer. pose proof (getPlayerFrom_spec ps pid 0) as G.
  destruct (getPlayerFrom 0 ps pid); [|assumption].
  destruct G as (k & p & -> & N & P & F). exists p. auto.
Qed.

Lemma commitLoop_spec (ps : list CypherPokerPlayer) :
  forall kcs : gmap string (list Keypair),
    (forall pid kc, kcs !! pid = None ->
       (commitLoop ps kcs).2 !! pid = Some kc ->
       exists p, In p ps /\ privateID p = pid /\ keychain p = kc)
    /\ ((commitLoop ps kcs).1 = true ->
        forall p, In p ps ->
          exists k kc, (commitLoop ps kcs).2 !! privateID p = Some (k :: kc))
    /\ ((commitLoop ps kcs).1 = false ->
        exists p, In p ps /\ (commitLoop ps kcs).2 !! privateID p = Some [])
    /\ ((forall p, In p ps ->
           match kcs !! privateID p with
           | Some kc => kc <> []
           | None => keychain p <> []
           end) ->
        (commitLoop ps kcs).1 = true).
Proof.
  induction ps as [|a ps IH]; intros kcs.
  - simpl. repeat split.
    + intros pid kc N E. congruence.
    + intros _ p [].
    + discriminate.
  - cbn [commitLoop].
    set (kcs' := match kcs !! privateID a with
                 | Some _ => kcs
                 | None => <[privateID a := keychain a]> kcs
                 end).
    assert (K : forall pid kc, kcs !! pid = Some kc -> kcs' !! pid = Some kc).
    { intros pid kc E. subst kcs'. destruct (kcs !! privateID a) eqn:L;
        [assumption|]. rewrite lookup_insert_ne; [assumption|congruence]. }
    assert (Own : kcs' !! privateID a
                  = Some (default (keychain a) (kcs !! privateID a))).
    { subst kcs'. destruct (kcs !! privateID a) eqn:L; simpl;
        [assumption|apply lookup_insert_eq]. }
    assert (New : forall pid kc, kcs !! pid = None -> kcs' !! pid = Some kc ->
                    privateID a = pid /\ keychain a = kc).
    { intros pid kc N E. subst kcs'. destruct (kcs !! privateID a) eqn:L;
        [congruence|].
      destruct (decide (privateID a = pid)) as [<-|D].
      - rewrite lookup_insert_eq in E. split; congruence.
      - rewrite lookup_insert_ne in E by assumption. congruence. }
    destruct (IH kcs') as (I1 & I2 & I3 & I4).
    rewrite Own.
    destruct (default (keychain a) (kcs !! privateID a)) as [|k kc0] eqn:Dk.
    + cbn [fst snd]. repeat split.
      * intros pid kc N E. destruct (New pid kc N E). exists a. simpl. auto.
      * discriminate.
      * intros _. exists a. split; [now left|]. now rewrite Own.
      * intros Hp. specialize (Hp a (or_introl eq_refl)).
        destruct (kcs !! privateID a); simpl in Dk; congruence.
    + repeat split.
      * intros pid kc N E. destruct (kcs' !! pid) as [kc'|] eqn:L.
        -- pose proof (commitLoop_keeps ps kcs' pid kc' L) as Kp.
           destruct (New pid kc' N L). exists a. simpl.
           split; [now left|]. split; congruence.
        -- destruct (I1 pid kc L E) as (p & I & P). exists p. simpl. tauto.
      * intros T p [<-|I]; [|now apply I2].
        exists k, kc0. apply commitLoop_keeps. now rewrite Own.
      * intros F. destruct (I3 F) as (p & I & E). exists p. simpl. tauto.
      * intros Hp. apply I4. intros p I.
        pose proof (Hp p (or_intror I)) as Hq.
        destruct (kcs !! privateID p) as [kc|] eqn:L.
        -- now rewrite (K _ _ L).
        -- destruct (kcs' !! privateID p) as [kc'|] eqn:L'; [|assumption].
           destruct (New _ _ L L') as [Ea <-].
           pose proof (Hp a (or_introl eq_refl)) as Ha.
           rewrite Ea, L in Ha. assumption.
Qed.

(** X12.  When no player is named by a property that every object inherits, so
    that a keychain that is not stored reads as [undefined]:
    [allKeychainsCommitted] touches nothing but the stored keychains and
    never replaces a stored keychain; a keychain it adds is a copy of the
    keychain of a player object with that private ID.  It returns true only
    when every player has a non-empty keychain stored, false only when some
    player has an empty one stored, and true whenever each player has a
    non-empty keychain, stored or on the player object. *)
Theorem allKeychainsCommitted_spec (st : Analyzer) :
  Forall (fun p => inheritedName (privateID p) = false) (players st) ->
  let r := allKeychainsCommitted st in
  r.2 = setKeychains st (keychains r.2)
  /\ (forall pid kc, keychains st !! pid = Some kc ->
        keychains r.2 !! pid = Some kc)
  /\ (forall pid kc, keychains st !! pid = None ->
        keychains r.2 !! pid = Some kc ->
        exists p, In p (players st) /\ privateID p = pid /\ keychain p = kc)
  /\ (r.1 = true ->
      forall p, In p (players st) ->
        exists k kc, keychains r.2 !! privateID p = Some (k :: kc))
  /\ (r.1 = false ->
      exists p, In p (players st) /\ keychains r.2 !! privateID p = Some [])
  /\ ((forall p, In p (players st) ->
         match keychains st !! privateID p with
         | Some kc => kc <> []
         | None => keychain p <> []
         end) ->
      r.1 = true).
Proof.
  intros _. cbv zeta. unfold allKeychainsCommitted.
  pose proof (commitLoop_spec (players st) (keychains st)) as (S1 & S2 & S3 & S4).
  pose proof (commitLoop_keeps (players st) (keychains st)) as S0.
  destruct (commitLoop (players st) (keychains st)) as [b kcs].
  cbn [fst snd keychains setKeychains] in *. repeat split; assumption.
Qed.

Lemma allKeychainsCommitted_spec_witness :
  (allKeychainsCommitted Sample.playing).1 = false
  /\ exists p, In p (players Sample.playing)
       /\ keychains (allKeychainsCommitted Sample.playing).2 !! privateID p
          = Some [].
Proof.
  assert ((allKeychainsCommitted Sample.playing).1 = false) as E
    by (vm_compute; reflexivity).
  split; [exact E|].
  refine (proj1 (proj2 (proj2 (proj2 (proj2
            (allKeychainsCommitted_spec Sample.playing _))))) E).
  repeat (apply List.Forall_cons; [reflexivity|]). apply List.Forall_nil.
Defined.

(** ** The start of the keychain wait *)

(** X13.  [onGameAnalyze] starts the wait for the keychains.  When the own player
    is among the players of the game, it stores a copy of that player's
    keychain under the own private ID, replacing what was stored there and
    keeping every other stored keychain, removes the listeners of the game
    events but not the keychain listener, and arms the timer with the
    configured delay, 10000 when none was set.  When the own player is not
    among them, it fails after refreshing the players: no keychain is
    stored, the listeners stay and no timer is armed.  In both cases the
    captured deck and deals are left alone. *)
Theorem onGameAnalyze_starts_wait (st : Analyzer)
    (gamePlayers : list CypherPokerPlayer) (ownPID : string) :
  let r := onGameAnalyze st gamePlayers ownPID in
  players r.2 = gamePlayers /\ deck r.2 = deck st /\ deals r.2 = deals st
  /\ keychainListener r.2 = keychainListener st
  /\ ((forall p, In p gamePlayers -> privateID p <> ownPID) ->
      r.1 = TypeError /\ keychains r.2 = keychains st
      /\ gameListeners r.2 = gameListeners st /\ timer r.2 = timer st)
  /\ (forall i own,
        getPlayer gamePlayers ownPID = Some i ->
        nth_error gamePlayers i = Some own ->
        r.1 = Resolved true
        /\ keychains r.2 !! ownPID = Some (keychain own)
        /\ (forall pid, pid <> ownPID ->
              keychains r.2 !! pid = keychains st !! pid)
        /\ gameListeners r.2 = false
        /\ timer r.2 = Some (default 10000 (keychainCommitTimeout st))).
Proof.
  cbv zeta. unfold onGameAnalyze.
  pose proof (getPlayer_found gamePlayers ownPID) as G.
  destruct (getPlayer gamePlayers ownPID) as [i|].
  - destruct G as (own & N & P). rewrite N. cbn.
    do 4 (split; [reflexivity|]). split.
    + intros No. exfalso. apply nth_error_In in N. exact (No own N P).
    + intros j own' Ej Nj. injection Ej as <-. rewrite N in Nj.
      injection Nj as <-. split; [reflexivity|].
      split; [apply lookup_insert_eq|].
      split; [intros pid D; now apply lookup_insert_ne|].
      split; reflexivity.
  - cbn. do 4 (split; [reflexivity|]). split.
    + intros _. repeat split; reflexivity.
    + intros j own' Ej. discriminate Ej.
Qed.

Lemma onGameAnalyze_starts_wait_witness :
  let r := onGameAnalyze Sample.playing [Sample.P1; Sample.P2] "P2" in
  r.1 = Resolved true
  /\ keychains r.2 !! "P2" = Some (keychain Sample.P2)
  /\ (forall pid, pid <> "P2" ->
        keychains r.2 !! pid = keychains Sample.playing !! pid)
  /\ gameListeners r.2 = false
  /\ timer r.2 = Some (default 10000 (keychainCommitTimeout Sample.playing)).
Proof.
  apply (proj2 (proj2 (proj2 (proj2 (proj2
           (onGameAnalyze_starts_wait Sample.playing [Sample.P1; Sample.P2]
              "P2")))))
         1%nat Sample.P2); reflexivity.
Defined.

(** ** Failures of the analysis and the keychain gate *)

Lemma codeTwo_bind {X Y : Type} (m : Outcome X) (k : X -> Outcome Y) :
  codeTwo m -> (forall a, codeTwo (k a)) -> codeTwo (m ≫= k).
Proof.
  intros Hm Hk e. destruct m as [a|e'|]; simpl.
  - apply Hk.
  - intros E. apply Hm. injection E as <-. reflexivity.
  - discriminate.
Qed.

Lemma codeTwo_resolved {X : Type} (a : X) : codeTwo (Resolved a).
Proof. intros e. discriminate. Qed.

Lemma codeTwo_typeError {X : Type} : codeTwo (@TypeError X).
Proof. intros e. discriminate. Qed.

Lemma codeTwo_coded {X : Type} (msg : string) :
  codeTwo (@Rejected X (codedError msg 2)).
Proof. intros e E. injection E as <-. reflexivity. Qed.

Lemma codeTwo_addressOf (ps : list CypherPokerPlayer) (pid : string) :
  codeTwo (addressOf ps pid).
Proof.
  unfold addressOf. destruct (getPlayer ps pid) as [i|];
    [destruct (nth_error ps i)|]; intros e; discriminate.
Qed.

(** An error that is built with code 2 and then thrown. *)
Lemma codeTwo_throw {X : Type} (m : Outcome Error) :
  codeTwo m -> (forall e, m = Resolved e -> code e = Some 2) ->
  codeTwo (e ← m; @Rejected X e).
Proof.
  intros Hm Hr e. destruct m as [a|e'|]; simpl.
  - intros E. injection E as <-. now apply Hr.
  - intros E. apply Hm. injection E as <-. reflexivity.
  - discriminate.
Qed.

Lemma addressed_error (ps : list CypherPokerPlayer) (a b : string)
    (msg : string -> string -> string) :
  let m := (from ← addressOf ps a; source ← addressOf ps b;
            Resolved (codedError (msg from source) 2)) in
  codeTwo m /\ forall e, m = Resolved e -> code e = Some 2.
Proof.
  cbv zeta. unfold addressOf.
  destruct (getPlayer ps a) as [i|]; [destruct (nth_error ps i)|];
    destruct (getPlayer ps b) as [j|]; try destruct (nth_error ps j);
    simpl; split; intros e E; try discriminate; injection E as <-; reflexivity.
Qed.

Section AnalysisFacts.
Variable invoke : CryptoOp -> string -> option Keypair -> string.

Lemma codeTwo_cryptAll (op : CryptoOp) (kc : option (list Keypair))
    (values : list string) :
  codeTwo (cryptAll invoke op kc values).
Proof.
  unfold cryptAll. destruct values; [|destruct kc]; intros e; discriminate.
Qed.

Lemma codeTwo_dealCards (mapped : list CypherPokerCard)
    (noMap : string -> Outcome Error) (isPrivate : bool) (src : string)
    (results : list string) :
  (forall r, codeTwo (noMap r)) ->
  (forall r e, noMap r = Resolved e -> code e = Some 2) ->
  forall obj, codeTwo (dealCards mapped noMap isPrivate src results obj).
Proof.
  intros H1 H2. induction results as [|r results IH]; intros obj; simpl.
  - apply codeTwo_resolved.
  - destruct (getMappedCard mapped r); [apply IH|].
    apply codeTwo_throw; [apply H1|apply H2].
Qed.

Lemma codeTwo_selectFromDeck (cards d : list string) (dup : Outcome Error) :
  codeTwo dup -> (forall e, dup = Resolved e -> code e = Some 2) ->
  codeTwo (selectFromDeck cards d dup).
Proof.
  intros H1 H2. unfold selectFromDeck.
  destruct (removeFromDeck cards d) as [[|] d'];
    [apply codeTwo_resolved|now apply codeTwo_throw].
Qed.

Ltac code_two :=
  repeat first
    [ apply codeTwo_resolved
    | apply codeTwo_typeError
    | apply codeTwo_coded
    | apply codeTwo_addressOf
    | apply codeTwo_cryptAll
    | apply codeTwo_bind; [|intros ?]
    | match goal with
      | |- codeTwo (if ?b then _ else _) => destruct b
      | |- codeTwo (match ?x with _ => _ end) => destruct x
      end ].

Lemma codeTwo_dealStep (st : Analyzer) (src : string) (len count : nat)
    (prev : option DealEntry) (cur : DealEntry) (d : list string)
    (obj : Analysis) :
  codeTwo (dealStep invoke st src len count prev cur d obj).
Proof.
  unfold dealStep.
  destruct (match prev with Some p => deal_type p | None => select end),
    (deal_type cur).
  - destruct (0 <? count)%nat; [apply codeTwo_coded|].
    apply codeTwo_bind; [|intros ?; apply codeTwo_resolved].
    apply codeTwo_selectFromDeck; [apply codeTwo_resolved|].
    intros e E. injection E as <-. reflexivity.
  - destruct (count <? len - 1)%nat; [apply codeTwo_resolved|].
    destruct (Nat.eqb count (len - 1)).
    + apply codeTwo_bind; [apply codeTwo_cryptAll|intros results].
      apply codeTwo_bind; [|intros ?; apply codeTwo_resolved].
      apply codeTwo_dealCards; [intros r; apply codeTwo_resolved|].
      intros r e E. injection E as <-. reflexivity.
    + code_two.
  - apply codeTwo_bind; [apply codeTwo_cryptAll|intros results].
    apply codeTwo_bind.
    + apply codeTwo_dealCards; intros r;
        apply (addressed_error (players st) (deal_fromPID cur) src
                 (fun from source => finalForMessage count from source r)).
    + intros obj'. apply codeTwo_bind; [|intros ?; apply codeTwo_resolved].
      apply codeTwo_selectFromDeck;
        apply (addressed_error (players st) (deal_fromPID cur) src
                 (fun from source => duplicatesMessage count from source)).
  - destruct (Nat.eqb count (len - 1)).
    + apply codeTwo_bind; [apply codeTwo_cryptAll|intros results].
      apply codeTwo_bind; [|intros ?; apply codeTwo_resolved].
      apply codeTwo_dealCards; [intros r; apply codeTwo_resolved|].
      intros r e E. injection E as <-. reflexivity.
    + code_two.
Qed.

Lemma codeTwo_dealLoop (st : Analyzer) (src : string) (len : nat)
    (entries : list DealEntry) :
  forall count prev d obj,
    codeTwo (dealLoop invoke st src len count prev entries d obj).
Proof.
  induction entries as [|cur entries IH]; intros count prev d obj; simpl.
  - apply codeTwo_resolved.
  - apply codeTwo_bind; [apply codeTwo_dealStep|].
    intros [d' obj']. apply IH.
Qed.

Lemma codeTwo_verifyDeals (st : Analyzer)
    (dealsObj : list (string * list DealEntry)) :
  forall d obj, codeTwo (verifyDeals invoke st dealsObj d obj).
Proof.
  induction dealsObj as [|[pid arr] rest IH]; intros d obj; simpl.
  - apply codeTwo_resolved.
  - apply codeTwo_bind; [apply codeTwo_dealLoop|].
    intros [d' obj']. apply IH.
Qed.

Lemma analyzeCards_outcomes (st : Analyzer) :
  match analyzeCards invoke st with
  | (Rejected e, st') =>
      exists a, analysis st = Some a
                /\ (code e = Some 1 \/ code e = Some 2)
                /\ st' = setAnalysis st (Some (setVerdict a true (Some e)))
  | (_, st') => st' = st
  end.
Proof.
  unfold analyzeCards, analyzeDeals, throwError.
  destruct (deck st) as [|generated snapshots]; [reflexivity|].
  destruct (verifyDeck _ _ _ _ _) as [d|count fromPID|]; [| |reflexivity].
  - pose proof (codeTwo_verifyDeals st (deals st) d newAnalysis) as C.
    destruct (verifyDeals _ _ _ _ _) as [[d' obj]|e|]; try reflexivity.
    destruct (analysis st) as [a|]; [|reflexivity].
    exists a. repeat split. right. now apply C.
  - destruct (analysis st) as [a|]; [|reflexivity].
    exists a. repeat split. now left.
Qed.

(** X14.  Whenever [analyzeCards] rejects, the error carries code 1 or 2; the
    analysis that was there now holds that error and is marked complete,
    its cards, hands and winners being as before; and every other field of
    the analyzer, the captured deck, the deals and the keychains among them,
    is as it was.  Whenever it resolves or fails on a missing object, the
    analyzer is left exactly as it was. *)
Theorem analyzeCards_failure_discipline (st : Analyzer) :
  match analyzeCards invoke st with
  | (Rejected e, st') =>
      (code e = Some 1 \/ code e = Some 2)
      /\ exists a a',
           analysis st = Some a /\ analysis st' = Some a'
           /\ error a' = Some e /\ complete a' = true
           /\ private a' = private a /\ public a' = public a
           /\ hands a' = hands a /\ winningPlayers a' = winningPlayers a
           /\ winningHands a' = winningHands a
           /\ players st' = players st /\ tableID st' = tableID st
           /\ deck st' = deck st /\ mappedDeck st' = mappedDeck st
           /\ deals st' = deals st /\ keychains st' = keychains st
           /\ active st' = active st
           /\ keychainCommitTimeout st' = keychainCommitTimeout st
           /\ timer st' = timer st
           /\ gameListeners st' = gameListeners st
           /\ keychainListener st' = keychainListener st
           /\ dispatched st' = dispatched st
  | (_, st') => st' = st
  end.
Proof.
  pose proof (analyzeCards_outcomes st) as O.
  destruct (analyzeCards invoke st) as [[r|e|] st']; try exact O.
  destruct O as (a & A & C & ->). split; [exact C|].
  exists a, (setVerdict a true (Some e)).
  split; [exact A|]. cbn. repeat split; reflexivity.
Qed.

Lemma tieBreak_not_rejected (ps : list CypherPokerPlayer)
    (priv : list (string * list CypherPokerCard))
    (candidates : list (nat * HandRef)) :
  forall st e, tieBreak ps priv candidates st <> Rejected e.
Proof.
  induction candidates as [|[i ref] rest IH]; intros st e; simpl;
    [discriminate|].
  destruct (nth_error ps i) as [p|]; [|discriminate].
  destruct (objGet priv (privateID p)) as [[|c1 [|c2 more]]|];
    try discriminate.
  apply IH.
Qed.

Lemma scoreHands_not_rejected (ps : list CypherPokerPlayer)
    (cardsObj : Analysis) (e : Error) :
  scoreHands ps cardsObj <> Rejected e.
Proof.
  unfold scoreHands.
  match goal with
  | |- context [if ?b then ?x else ?y] =>
      pose proof (tieBreak_not_rejected ps (private cardsObj)) as T;
      destruct b;
      [match goal with
       | |- context [tieBreak ?a ?b ?c ?d] =>
           specialize (T c d); destruct (tieBreak a b c d)
       end|]
  end; simpl; try discriminate.
  exfalso. exact (T e0 eq_refl).
Qed.

Lemma analyzeCards_bookkeeping (st : Analyzer) :
  let st' := (analyzeCards invoke st).2 in
  dispatched st' = dispatched st /\ timer st' = timer st
  /\ keychainListener st' = keychainListener st /\ active st' = active st
  /\ players st' = players st.
Proof.
  cbv zeta. pose proof (analyzeCards_outcomes st) as O.
  destruct (analyzeCards invoke st) as [[r|e|] st']; cbn [snd];
    [subst; auto| |subst; auto].
  destruct O as (a & _ & _ & ->). auto.
Qed.

Lemma dispatchEvent_fields (st : Analyzer) (type : string) :
  dispatched (dispatchEvent st type) = dispatched st ++ [type]
  /\ timer (dispatchEvent st type) = timer st
  /\ keychainListener (dispatchEvent st type) = keychainListener st
  /\ active (dispatchEvent st type) = active st
  /\ analysis (dispatchEvent st type)
     = Some (default newAnalysis (analysis st)).
Proof.
  unfold dispatchEvent, getAnalysis.
  destruct (analysis st) eqn:E; cbn; rewrite ?E; repeat split; reflexivity.
Qed.

(** X15.  The keychain gate.  While some player has an empty keychain after the
    submission is stored, the handler returns true and neither dispatches
    an event nor touches the timer, the listener or the analysis.  Once
    every keychain is there, the timer is cleared and the keychain listener
    removed, and the handler ends in one of three ways: it returns true
    after the events analyzing, analyzed and scored, with the analysis
    complete and free of errors and the analyzer inactive; it returns false
    after the event analyzing alone, when the analysis did not resolve; or
    it fails after analyzing and analyzed, when scoring failed.  It never
    rejects with an error of its own. *)
Theorem onPlayerKeychain_gate (st : Analyzer) (pid : string)
    (kc : list Keypair) :
  let r := onPlayerKeychain invoke st pid kc in
  let all := (commitLoop (players st) (<[pid := kc]> (keychains st))).1 in
  (all = false ->
   r.1 = Resolved true /\ dispatched r.2 = dispatched st
   /\ timer r.2 = timer st /\ keychainListener r.2 = keychainListener st
   /\ analysis r.2 = analysis st /\ active r.2 = true)
  /\ (all = true ->
      timer r.2 = None /\ keychainListener r.2 = false
      /\ ((r.1 = Resolved true
           /\ dispatched r.2
              = dispatched st ++ ["analyzing"; "analyzed"; "scored"]
           /\ active r.2 = false
           /\ exists a, analysis r.2 = Some a /\ complete a = true
                        /\ error a = None)
          \/ (r.1 = Resolved false
              /\ dispatched r.2 = dispatched st ++ ["analyzing"]
              /\ active r.2 = true)
          \/ (r.1 = TypeError
              /\ dispatched r.2 = dispatched st ++ ["analyzing"; "analyzed"]
              /\ active r.2 = true))).
Proof.
  cbv zeta. unfold onPlayerKeychain, allKeychainsCommitted.
  cbn [players keychains setActive setKeychains].
  destruct (commitLoop (players st) (<[pid:=kc]> (keychains st)))
    as [[|] kcs]; cbn [fst]; (split; [|]); try discriminate; intros _.
  - match goal with
    | |- context [dispatchEvent ?s "analyzing"] =>
        pose proof (dispatchEvent_fields s "analyzing")
          as (D5 & T5 & L5 & A5 & _);
        remember (dispatchEvent s "analyzing") as st5 eqn:E5; clear E5
    end.
    cbn [timer keychainListener dispatched active setGate setKeychains
         setActive] in D5, T5, L5, A5.
    pose proof (analyzeCards_bookkeeping st5) as (B1 & B2 & B3 & B4 & B5).
    destruct (analyzeCards invoke st5) as [[result|e|] st6]; cbn [snd] in *.
    + pose proof (dispatchEvent_fields (setAnalysis st6 result) "analyzed")
        as (D7 & T7 & L7 & A7 & N7).
      remember (dispatchEvent (setAnalysis st6 result) "analyzed") as st7
        eqn:E7; clear E7.
      cbn [timer keychainListener dispatched active setAnalysis]
        in D7, T7, L7, A7.
      rewrite N7.
      pose proof (scoreHands_not_rejected (players st7)
                    (default newAnalysis (analysis (setAnalysis st6 result))))
        as NR.
      destruct (scoreHands (players st7) _) as [scored|e|].
      * cbn [fst snd].
        match goal with
        | |- context [dispatchEvent ?s "scored"] =>
            pose proof (dispatchEvent_fields s "scored")
              as (D8 & T8 & L8 & A8 & N8);
            remember (dispatchEvent s "scored") as st8 eqn:E8; clear E8
        end.
        cbn [timer keychainListener dispatched active analysis setActive
             setAnalysis] in *.
        split; [congruence|]. split; [congruence|]. left.
        split; [reflexivity|]. split.
        -- rewrite D8, D7, B1, D5, <- !app_assoc. reflexivity.
        -- split; [reflexivity|]. eexists. split; [exact N8|]. auto.
      * exfalso. exact (NR e eq_refl).
      * cbn [fst snd]. split; [congruence|]. split; [congruence|].
        right. right. split; [reflexivity|]. split.
        -- rewrite D7, B1, D5, <- !app_assoc. reflexivity.
        -- congruence.
    + cbn [fst snd]. split; [congruence|]. split; [congruence|].
      right. left. split; [reflexivity|]. split; congruence.
    + cbn [fst snd]. split; [congruence|]. split; [congruence|].
      right. left. split; [reflexivity|]. split; congruence.
  - cbn. repeat split; reflexivity.
Qed.

End AnalysisFacts.

Lemma onPlayerKeychain_gate_witness :
  let r := onPlayerKeychain Sample.toyInvoke Sample.playing "P1" [Sample.kp1] in
  r.1 = Resolved true /\ dispatched r.2 = dispatched Sample.playing
  /\ timer r.2 = timer Sample.playing
  /\ keychainListener r.2 = keychainListener Sample.playing
  /\ analysis r.2 = analysis Sample.playing /\ active r.2 = true.
Proof.
  apply (proj1 (onPlayerKeychain_gate Sample.toyInvoke Sample.playing "P1"
                  [Sample.kp1])).
  vm_compute. reflexivity.
Defined.

(** ** After the timeout *)

Lemma setAnalysis_twice (st : Analyzer) (a b : option Analysis) :
  setAnalysis (setAnalysis st a) b = setAnalysis st b.
Proof. reflexivity. Qed.

Lemma setAnalysis_same (st : Analyzer) : setAnalysis st (analysis st) = st.
Proof. now destruct st. Qed.

Lemma dispatchEvent_setAnalysis (st : Analyzer) (a : Analysis)
    (type : string) :
  dispatchEvent (setAnalysis st (Some a)) type
  = setAnalysis (dispatchEvent st type) (Some a).
Proof.
  unfold dispatchEvent, getAnalysis. cbn [analysis setAnalysis].
  destruct (analysis st); reflexivity.
Qed.

Lemma dispatchEvent_analysis (st : Analyzer) (type : string) :
  dispatchEvent st type
  = setAnalysis (dispatchEvent st type)
      (Some (default newAnalysis (analysis st))).
Proof.
  rewrite <- (setAnalysis_same (dispatchEvent st type)) at 1.
  f_equal. apply dispatchEvent_fields.
Qed.

Section TimeoutFacts.
Variable invoke : CryptoOp -> string -> option Keypair -> string.

Lemma dealLoop_setAnalysis (st : Analyzer) (a : option Analysis)
    (src : string) (len : nat) (entries : list DealEntry) :
  forall count prev d obj,
    dealLoop invoke (setAnalysis st a) src len count prev entries d obj
    = dealLoop invoke st src len count prev entries d obj.
Proof.
  induction entries as [|cur entries IH]; intros count prev d obj; simpl;
    [reflexivity|].
  change (dealStep invoke (setAnalysis st a) src len count prev cur d obj)
    with (dealStep invoke st src len count prev cur d obj).
  destruct (dealStep invoke st src len count prev cur d obj) as [[d' obj']| |];
    simpl; [apply IH|reflexivity|reflexivity].
Qed.

Lemma verifyDeals_setAnalysis (st : Analyzer) (a : option Analysis)
    (dealsObj : list (string * list DealEntry)) :
  forall d obj,
    verifyDeals invoke (setAnalysis st a) dealsObj d obj
    = verifyDeals invoke st dealsObj d obj.
Proof.
  induction dealsObj as [|[pid arr] rest IH]; intros d obj; simpl;
    [reflexivity|].
  rewrite dealLoop_setAnalysis.
  destruct (dealLoop invoke st pid (length arr) 0 None arr d obj)
    as [[d' obj']| |]; simpl; [apply IH|reflexivity|reflexivity].
Qed.

(** The outcome of [analyzeCards] does not depend on which analysis object
    is there, as long as there is one. *)
Lemma analyzeCards_setAnalysis (st : Analyzer) (a b : Analysis) :
  (analyzeCards invoke (setAnalysis st (Some a))).1
  = (analyzeCards invoke (setAnalysis st (Some b))).1.
Proof.
  unfold analyzeCards, analyzeDeals, throwError.
  cbn [deck keychains deals analysis setAnalysis].
  destruct (deck st) as [|generated snapshots]; [reflexivity|].
  destruct (verifyDeck _ _ _ _ _); try reflexivity.
  rewrite !verifyDeals_setAnalysis.
  destruct (verifyDeals _ _ _ _ _) as [[d' obj]| |]; reflexivity.
Qed.

Lemma onPlayerKeychain_setAnalysis (st : Analyzer) (a0 : Analysis)
    (pid : string) (kc : list Keypair) :
  let r' := onPlayerKeychain invoke (setAnalysis st (Some a0)) pid kc in
  let r := onPlayerKeychain invoke st pid kc in
  r'.1 = r.1 /\ dispatched r'.2 = dispatched r.2
  /\ keychains r'.2 = keychains r.2.
Proof.
  cbv zeta. unfold onPlayerKeychain, allKeychainsCommitted.
  cbn [players keychains setActive setKeychains setAnalysis].
  destruct (commitLoop (players st) (<[pid:=kc]> (keychains st)))
    as [[|] kcs]; [|cbn; auto].
  match goal with
  | |- (let (_, _) := analyzeCards invoke (dispatchEvent ?x "analyzing") in _).1
       = (let (_, _) := analyzeCards invoke (dispatchEvent ?y "analyzing")
          in _).1 /\ _ =>
      change x with (setAnalysis y (Some a0)); set (base := y)
  end.
  rewrite dispatchEvent_setAnalysis.
  set (a1 := default newAnalysis (analysis base)).
  set (s5 := dispatchEvent base "analyzing").
  assert (Es : exists s, s5 = setAnalysis s (Some a1))
    by (exists s5; apply dispatchEvent_analysis).
  clearbody s5 a1. destruct Es as (s & ->). rewrite !setAnalysis_twice.
  rename s into s5.
  pose proof (analyzeCards_setAnalysis s5 a0 a1) as O.
  pose proof (analyzeCards_outcomes invoke (setAnalysis s5 (Some a0))) as O0.
  pose proof (analyzeCards_outcomes invoke (setAnalysis s5 (Some a1))) as O1.
  destruct (analyzeCards invoke (setAnalysis s5 (Some a0)))
    as [[r0|e0|] s60];
    destruct (analyzeCards invoke (setAnalysis s5 (Some a1)))
      as [[r1|e1|] s61]; cbn [fst] in O; try discriminate.
  - injection O as ->. subst s60 s61. rewrite !setAnalysis_twice. auto.
  - destruct O0 as (x0 & _ & _ & ->), O1 as (x1 & _ & _ & ->). cbn. auto.
  - subst s60 s61. cbn. auto.
Qed.

(** X16.  The timeout does not close the gate.  The timer callback leaves the
    keychain listener, the stored keychains, the deck and the deals as they
    are; and a keychain submitted after the timer has fired is handled as it
    would have been before: the handler returns the same value, dispatches
    the same events and stores the same keychains, so that the late
    submission that completes the set still starts the analysis. *)
Theorem onKCSTimeout_keeps_gate_open (st : Analyzer) (pid : string)
    (kc : list Keypair) :
  let late := (onKCSTimeout st).2 in
  keychainListener late = keychainListener st
  /\ keychains late = keychains st /\ deck late = deck st
  /\ deals late = deals st
  /\ (onPlayerKeychain invoke late pid kc).1
     = (onPlayerKeychain invoke st pid kc).1
  /\ dispatched (onPlayerKeychain invoke late pid kc).2
     = dispatched (onPlayerKeychain invoke st pid kc).2
  /\ keychains (onPlayerKeychain invoke late pid kc).2
     = keychains (onPlayerKeychain invoke st pid kc).2.
Proof.
  cbv zeta. rewrite onKCSTimeout_general. cbn [snd].
  do 4 (split; [reflexivity|]).
  apply onPlayerKeychain_setAnalysis.
Qed.

End TimeoutFacts.

(** ** What a resolved analysis guarantees *)

Lemma bind_resolved {X Y : Type} (m : Outcome X) (k : X -> Outcome Y) (r : Y) :
  m ≫= k = Resolved r -> exists a, m = Resolved a /\ k a = Resolved r.
Proof. destruct m as [a| |]; simpl; try discriminate. eauto. Qed.

Ltac invert_resolved :=
  repeat match goal with
         | H : mbind _ _ = Resolved _ |- _ =>
             apply bind_resolved in H; destruct H as (? & ? & H)
         | H : (if ?b then _ else _) = Resolved _ |- _ => destruct b eqn:?
         | H : Rejected _ = Resolved _ |- _ => discriminate H
         | H : TypeError = Resolved _ |- _ => discriminate H
         | H : Resolved (_, _) = Resolved _ |- _ => injection H as ? ?
         end.

Lemma remainingDeck_nil (D : list string) : remainingDeck [] D = D.
Proof.
  unfold remainingDeck. simpl. induction D; simpl; congruence.
Qed.

Lemma getMappedCard_spec (mapped : list CypherPokerCard) (m : string)
    (c : CypherPokerCard) :
  getMappedCard mapped m = Some c -> In c mapped /\ mapping c = m.
Proof.
  unfold getMappedCard. intros F. apply find_some in F.
  destruct F as [I E]. apply String.eqb_eq in E. auto.
Qed.

Lemma objSet_In {V : Type} (k k0 : string) (v v0 : V) (o : list (string * V)) :
  In (k, v) (objSet k0 v0 o) -> (k = k0 /\ v = v0) \/ In (k, v) o.
Proof.
  induction o as [|[k' v'] o IH]; simpl.
  - intros [E|[]]. injection E as <- <-. now left.
  - destruct (String.eqb k' k0) eqn:Q.
    + apply String.eqb_eq in Q. subst k'. intros [E|I].
      * injection E as <- <-. now left.
      * right. now right.
    + intros [E|I]; [right; now left|].
      destruct (IH I) as [L|R]; [now left|right; now right].
Qed.

Lemma objGet_key {V : Type} (o : list (string * V)) (k : string) (v : V) :
  objGet o k = Some v -> In (k, v) o.
Proof.
  induction o as [|[k' v'] o IH]; simpl; [discriminate|].
  destruct (String.eqb k' k) eqn:Q.
  - apply String.eqb_eq in Q. subst k'. intros E. injection E as ->. now left.
  - intros E. right. now apply IH.
Qed.

Section ResolvedFacts.
Variable invoke : CryptoOp -> string -> option Keypair -> string.

Lemma cryptAll_resolved (st : Analyzer) (op : CryptoOp) (pid : string)
    (values r : list string) :
  cryptAll invoke op (keychains st !! pid) values = Resolved r ->
  r = map (fun v => invoke op v
                      (lastKeypair (default [] (keychains st !! pid)))) values.
Proof.
  unfold cryptAll. destruct values as [|v values].
  - intros E. injection E as <-. reflexivity.
  - destruct (keychains st !! pid); [|discriminate].
    intros E. injection E as <-. reflexivity.
Qed.

Lemma selectFromDeck_resolved (cards d d' : list string)
    (dup : Outcome Error) :
  selectFromDeck cards d dup = Resolved d' ->
  removeFromDeck cards d = (true, d').
Proof.
  unfold selectFromDeck. destruct (removeFromDeck cards d) as [[|] d1].
  - intros E. injection E as <-. reflexivity.
  - destruct dup; simpl; discriminate.
Qed.

(** *** The pool of encrypted cards *)

Lemma dealStep_pool (st : Analyzer) (src : string) (len count : nat)
    (prev : option DealEntry) (cur : DealEntry) (d d' : list string)
    (obj obj' : Analysis) :
  dealStep invoke st src len count prev cur d obj = Resolved (d', obj') ->
  match deal_type cur with
  | select => removeFromDeck (deal_cards cur) d = (true, d')
  | decrypt => d' = d
  end.
Proof.
  unfold dealStep. cbv zeta.
  destruct (match prev with Some p => deal_type p | None => select end),
    (deal_type cur); intros E; invert_resolved; subst;
    try reflexivity; try congruence;
    eauto using selectFromDeck_resolved.
Qed.

Lemma dealLoop_pool (st : Analyzer) (src : string) (len : nat)
    (entries : list DealEntry) :
  forall count prev d obj d' obj',
    dealLoop invoke st src len count prev entries d obj = Resolved (d', obj') ->
    d' = remainingDeck (selectedCards entries) d
    /\ (List.NoDup d ->
        List.NoDup (selectedCards entries) /\ incl (selectedCards entries) d).
Proof.
  induction entries as [|cur entries IH]; intros count prev d obj d' obj' E.
  - simpl in E. injection E as <- <-. simpl. rewrite remainingDeck_nil.
    split; [reflexivity|]. intros _. split; [constructor|intros y []].
  - simpl in E. apply bind_resolved in E. destruct E as ([d1 obj1] & S & E).
    apply dealStep_pool in S. apply IH in E. destruct E as [-> E].
    unfold selectedCards in *. cbn [flat_map].
    fold (selectedCards entries) in *.
    destruct (deal_type cur).
    + pose proof (f_equal snd S) as S2. rewrite removeFromDeck_deck in S2.
      simpl in S2. subst d1. split; [apply remainingDeck_app|].
      intros N. pose proof (f_equal fst S) as S1. simpl in S1.
      apply (removeFromDeck_distinct _ _ N) in S1. destruct S1 as [NA IA].
      destruct (E (remainingDeck_NoDup _ _ N)) as [NB IB].
      split.
      * apply NoDup_app_disjoint. split; [assumption|]. split; [|assumption].
        intros y Iy Jy. apply IB, remainingDeck_In in Jy. tauto.
      * intros y I. apply in_app_or in I. destruct I as [I|I]; [auto|].
        apply IB, remainingDeck_In in I. tauto.
    + subst d1. simpl. split; [reflexivity|exact E].
Qed.

Lemma verifyDeals_pool (st : Analyzer)
    (dealsObj : list (string * list DealEntry)) :
  forall d obj d' obj',
    verifyDeals invoke st dealsObj d obj = Resolved (d', obj') ->
    d' = remainingDeck (allSelected dealsObj) d
    /\ (List.NoDup d ->
        List.NoDup (allSelected dealsObj) /\ incl (allSelected dealsObj) d).
Proof.
  induction dealsObj as [|[pid arr] rest IH]; intros d obj d' obj' E.
  - simpl in E. injection E as <- <-. simpl. rewrite remainingDeck_nil.
    split; [reflexivity|]. intros _. split; [constructor|intros y []].
  - simpl in E. apply bind_resolved in E. destruct E as ([d1 obj1] & S & E).
    apply dealLoop_pool in S. destruct S as [-> S].
    apply IH in E. destruct E as [-> E].
    unfold allSelected in *. cbn [flat_map snd].
    fold (allSelected rest) in *.
    split; [apply remainingDeck_app|].
    intros N. destruct (S N) as [NA IA].
    destruct (E (remainingDeck_NoDup _ _ N)) as [NB IB].
    split.
    + apply NoDup_app_disjoint. split; [assumption|]. split; [|assumption].
      intros y Iy Jy. apply IB, remainingDeck_In in Jy. tauto.
    + intros y I. apply in_app_or in I. destruct I as [I|I]; [auto|].
      apply IB, remainingDeck_In in I. tauto.
Qed.

Lemma verifyDeck_passed (kcs : gmap string (list Keypair))
    (snapshots : list DeckSnapshot) :
  forall (previous : DeckSnapshot) (count : nat) (d : list string),
    verifyDeck invoke kcs (snap_cards previous) count snapshots = DeckPassed d ->
    d = snap_cards (List.last snapshots previous)
    /\ forall j p c, stageOf (previous :: snapshots) j = Some (p, c) ->
                     stageHolds invoke kcs p c.
Proof.
  induction snapshots as [|s snapshots IH]; intros previous count d E.
  - simpl in E. injection E as <-. split; [reflexivity|].
    intros j p c Hs. pose proof (stageOf_bound _ _ _ _ Hs) as B.
    simpl in B. lia.
  - cbn [verifyDeck] in E.
    destruct (cryptAll invoke Encrypt (kcs !! snap_fromPID s)
                (snap_cards previous)) as [compareDeck| |] eqn:C;
      try discriminate.
    destruct (compareDecks (snap_cards s) compareDeck) eqn:Q;
      [|discriminate].
    apply IH in E. destruct E as [-> E]. split.
    + now rewrite last_cons_default.
    + intros j p c Hs. destruct j as [|[|j]].
      * rewrite stageOf_zero in Hs. discriminate.
      * rewrite stageOf_first in Hs. injection Hs as <- <-.
        unfold stageHolds, reEncrypt. symmetry.
        apply compareDecks_Permutation.
        unfold cryptAll in C. destruct (snap_cards previous) as [|v vs].
        -- injection C as <-. exact Q.
        -- destruct (kcs !! snap_fromPID s); [|discriminate].
           injection C as <-. exact Q.
      * apply (E (S j)). rewrite stageOf_shift in Hs by lia. exact Hs.
Qed.

Lemma analyzeCards_resolved (st : Analyzer) (cardsObj : Analysis)
    (st' : Analyzer) :
  analyzeCards invoke st = (Resolved (Some cardsObj), st') ->
  exists generated snapshots d',
    deck st = generated :: snapshots
    /\ verifyDeck invoke (keychains st) (snap_cards generated) 1 snapshots
       = DeckPassed (snap_cards (List.last snapshots generated))
    /\ verifyDeals invoke st (deals st)
         (snap_cards (List.last snapshots generated)) newAnalysis
       = Resolved (d', cardsObj).
Proof.
  unfold analyzeCards, analyzeDeals, throwError.
  destruct (deck st) as [|generated snapshots]; [discriminate|].
  destruct (verifyDeck _ _ _ _ _) as [d|count fromPID|] eqn:V.
  - destruct (verifyDeck_passed _ _ _ _ _ V) as [-> _].
    destruct (verifyDeals _ _ _ _ _) as [[d' obj]|e|] eqn:W.
    + intros E. injection E as <- <-. exists generated, snapshots, d'. auto.
    + destruct (analysis st); discriminate.
    + discriminate.
  - destruct (analysis st); discriminate.
  - discriminate.
Qed.

(** X17.  A resolved analysis has replayed the deck: every stage of the captured
    deck holds, each snapshot being the one before it encrypted by its
    sender, as a multiset. *)
Theorem analyzeCards_resolved_deck_sound (st : Analyzer)
    (cardsObj : Analysis) (st' : Analyzer) :
  analyzeCards invoke st = (Resolved (Some cardsObj), st') ->
  forall j p c, stageOf (deck st) j = Some (p, c) ->
                stageHolds invoke (keychains st) p c.
Proof.
  intros E. destruct (analyzeCards_resolved _ _ _ E)
    as (generated & snapshots & d' & -> & V & _).
  exact (proj2 (verifyDeck_passed _ _ _ _ _ V)).
Qed.

(** X18.  No card is dealt twice.  When the analysis resolves and the fully
    encrypted deck (the last snapshot) has no duplicates, the card values of
    all the selections of all the deals, taken together, are pairwise
    different and are values of that deck. *)
Theorem analyzeCards_no_double_dealing (st : Analyzer)
    (generated : DeckSnapshot) (snapshots : list DeckSnapshot)
    (cardsObj : Analysis) (st' : Analyzer) :
  deck st = generated :: snapshots ->
  analyzeCards invoke st = (Resolved (Some cardsObj), st') ->
  List.NoDup (snap_cards (List.last snapshots generated)) ->
  List.NoDup (allSelected (deals st))
  /\ incl (allSelected (deals st)) (snap_cards (List.last snapshots generated)).
Proof.
  intros D E N. destruct (analyzeCards_resolved _ _ _ E)
    as (g & s & d' & D' & _ & W).
  rewrite D in D'. injection D' as <- <-.
  apply verifyDeals_pool in W. destruct W as [_ W]. exact (W N).
Qed.

End ResolvedFacts.

Lemma analyzeCards_resolved_deck_sound_witness :
  stageHolds SampleDeal.cipher (keychains SampleDeal.table4)
    (SampleDeal.snapshot "Q1" ["a1"; "b1"; "c1"])
    (SampleDeal.snapshot "Q2" ["b12"; "a12"; "c12"]).
Proof.
  apply (analyzeCards_resolved_deck_sound SampleDeal.cipher SampleDeal.table4
           SampleDeal.dealt SampleDeal.table4 eq_refl 2%nat).
  reflexivity.
Defined.

Lemma analyzeCards_no_double_dealing_witness :
  List.NoDup (allSelected (deals SampleDeal.table4))
  /\ incl (allSelected (deals SampleDeal.table4)) ["a1234"; "b1234"; "c1234"].
Proof.
  apply (analyzeCards_no_double_dealing SampleDeal.cipher SampleDeal.table4
           (SampleDeal.snapshot "Q1" ["a"; "b"; "c"]) _
           SampleDeal.dealt SampleDeal.table4 eq_refl eq_refl).
  repeat (apply List.NoDup_cons; [simpl; intuition discriminate|]).
  apply List.NoDup_nil.
Defined.

(** ** Where the dealt cards come from *)

Section ProvenanceFacts.
Variable invoke : CryptoOp -> string -> option Keypair -> string.
Variable st : Analyzer.

Lemma ensurePrivate_provenance (src : string) (obj : Analysis) :
  provenance invoke st obj -> provenance invoke st (ensurePrivate src obj).
Proof.
  intros [Pu Pr]. unfold ensurePrivate.
  destruct (objGet (private obj) src); [now split|].
  split; [exact Pu|]. cbn [private setCards]. intros s cards c I Ic.
  apply objSet_In in I. destruct I as [[-> ->]|I]; [destruct Ic|eauto].
Qed.

Lemma dealCards_provenance (noMap : string -> Outcome Error)
    (isPrivate : bool) (src : string) (results : list string) :
  (forall r c, In r results -> getMappedCard (mappedDeck st) r = Some c ->
               dealtFrom invoke st isPrivate src c) ->
  forall obj obj',
    provenance invoke st obj ->
    dealCards (mappedDeck st) noMap isPrivate src results obj = Resolved obj' ->
    provenance invoke st obj'.
Proof.
  induction results as [|r results IH]; intros Hr obj obj' P E; simpl in E.
  - now injection E as <-.
  - destruct (getMappedCard (mappedDeck st) r) as [card|] eqn:G.
    + refine (IH (fun r0 c0 I0 => Hr r0 c0 (or_intror I0)) _ _ _ E).
      pose proof (Hr r card (or_introl eq_refl) G) as Dc.
      destruct P as [Pu Pr]. destruct isPrivate.
      * split; [exact Pu|]. cbn [private pushPrivate setCards].
        intros s cards c I Ic. apply objSet_In in I.
        destruct I as [[-> ->]|I]; [|eauto].
        apply in_app_or in Ic. destruct Ic as [Ic|[<-|[]]]; [|assumption].
        destruct (objGet (private obj) src) as [old|] eqn:O; [|destruct Ic].
        apply objGet_key in O. eauto.
      * split; [|exact Pr]. cbn [public pushPublic setCards].
        intros c Ic. apply in_app_or in Ic.
        destruct Ic as [Ic|[<-|[]]]; [auto|now exists src].
    + destruct (noMap r); discriminate.
Qed.

(** The results of decrypting the cards of a decryption entry of [src]
    under the key of [src] have the origin that [dealtFrom] describes. *)
Lemma decrypted_origin (src : string) (arr : list DealEntry) (e : DealEntry)
    (results : list string) :
  In (src, arr) (deals st) -> In e arr -> deal_type e = decrypt ->
  cryptAll invoke Decrypt (keychains st !! src) (deal_cards e)
  = Resolved results ->
  forall r c, In r results -> getMappedCard (mappedDeck st) r = Some c ->
              dealtFrom invoke st (deal_private e) src c.
Proof.
  intros Ia Ie T C r c Ir G. apply cryptAll_resolved in C. subst results.
  apply getMappedCard_spec in G. destruct G as [Ic <-].
  split; [assumption|]. exists arr, e. repeat split; try assumption.
Qed.

Lemma dealStep_provenance (src : string) (arr : list DealEntry)
    (len count : nat) (prev : option DealEntry) (cur : DealEntry)
    (d d' : list string) (obj obj' : Analysis) :
  In (src, arr) (deals st) -> In cur arr ->
  (forall p, prev = Some p -> In p arr) ->
  provenance invoke st obj ->
  dealStep invoke st src len count prev cur d obj = Resolved (d', obj') ->
  provenance invoke st obj'.
Proof.
  intros Ia Ic Ip P. apply (ensurePrivate_provenance src) in P.
  unfold dealStep. cbv zeta.
  destruct prev as [p|]; [specialize (Ip p eq_refl)|];
    try destruct (deal_type p) eqn:Tp;
    destruct (deal_type cur) eqn:Tc; intros E; invert_resolved; subst;
    try assumption;
    match goal with
    | D : dealCards _ _ _ _ _ _ = Resolved _,
      C : cryptAll _ _ _ (deal_cards ?e) = Resolved _ |- _ =>
        apply (dealCards_provenance _ _ _ _
                 (decrypted_origin src arr e _ Ia ltac:(assumption)
                    ltac:(assumption) C) _ _ P D)
    | _ => idtac
    end.
Qed.

Lemma dealLoop_provenance (src : string) (arr : list DealEntry) (len : nat)
    (entries : list DealEntry) :
  In (src, arr) (deals st) ->
  forall count prev d obj d' obj',
    (forall e, In e entries -> In e arr) ->
    (forall p, prev = Some p -> In p arr) ->
    provenance invoke st obj ->
    dealLoop invoke st src len count prev entries d obj = Resolved (d', obj') ->
    provenance invoke st obj'.
Proof.
  intros Ia. induction entries as [|cur entries IH];
    intros count prev d obj d' obj' Ie Ip P E; simpl in E.
  - now injection E as <- <-.
  - apply bind_resolved in E. destruct E as ([d1 obj1] & S1 & E).
    apply (dealStep_provenance src arr) in S1;
      [|assumption|apply Ie; now left|assumption|assumption].
    apply IH in E; [assumption|intros; apply Ie; now right| |assumption].
    intros p Q. injection Q as <-. apply Ie. now left.
Qed.

Lemma verifyDeals_provenance (dealsObj : list (string * list DealEntry)) :
  forall d obj d' obj',
    (forall x, In x dealsObj -> In x (deals st)) ->
    provenance invoke st obj ->
    verifyDeals invoke st dealsObj d obj = Resolved (d', obj') ->
    provenance invoke st obj'.
Proof.
  induction dealsObj as [|[src arr] rest IH];
    intros d obj d' obj' Sub P E; simpl in E.
  - now injection E as <- <-.
  - apply bind_resolved in E. destruct E as ([d1 obj1] & S1 & E).
    apply (dealLoop_provenance src arr) in S1;
      [|apply Sub; now left|auto|discriminate|assumption].
    apply IH in E; [assumption|intros; apply Sub; now right|assumption].
Qed.

(** *** The chain of decryptions *)

Lemma dealStep_chained (src : string) (len count : nat) (p cur : DealEntry)
    (d : list string) (obj : Analysis) (r : list string * Analysis) :
  (0 < count)%nat ->
  dealStep invoke st src len count (Some p) cur d obj = Resolved r ->
  chained invoke st len count p cur.
Proof.
  intros C0. unfold dealStep, chained. cbv zeta.
  assert ((0 <? count)%nat = true) as -> by now apply Nat.ltb_lt.
  destruct (deal_type p), (deal_type cur); intros E;
    (split; [intros; congruence|]); intros Tp Tc L;
    try congruence.
  assert (Nat.eqb count (len - 1) = false) as Q by (apply Nat.eqb_neq; lia).
  rewrite Q in E. apply bind_resolved in E. destruct E as (compareDeck & C & E).
  apply cryptAll_resolved in C. subst compareDeck.
  destruct (compareDecks _ (deal_cards cur)) eqn:K.
  - now apply compareDecks_Permutation in K.
  - destruct (addressOf (players st) (deal_fromPID cur)); simpl in E;
      try discriminate.
    destruct (addressOf (players st) src); simpl in E; discriminate.
Qed.

Lemma dealLoop_chained (src : string) (len : nat) (entries : list DealEntry) :
  forall count prev d obj r,
    dealLoop invoke st src len count prev entries d obj = Resolved r ->
    (forall p c, prev = Some p -> nth_error entries 0 = Some c ->
                 (0 < count)%nat -> chained invoke st len count p c)
    /\ forall j p c, nth_error entries j = Some p ->
                     nth_error entries (S j) = Some c ->
                     chained invoke st len (count + S j) p c.
Proof.
  induction entries as [|cur entries IH]; intros count prev d obj r E.
  - split; [intros p c _ N; discriminate|intros [|j] p c N; discriminate].
  - simpl in E. apply bind_resolved in E. destruct E as ([d1 obj1] & S1 & E).
    apply IH in E. destruct E as [E0 En]. split.
    + intros p c -> N C0. injection N as <-.
      exact (dealStep_chained _ _ _ _ _ _ _ _ C0 S1).
    + intros [|j] p c Np Nc; simpl in Np, Nc.
      * injection Np as <-. replace (count + 1)%nat with (S count) by lia.
        apply (E0 cur c eq_refl Nc). lia.
      * replace (count + S (S j))%nat with (S count + S j)%nat by lia.
        now apply En.
Qed.

Lemma verifyDeals_chained (dealsObj : list (string * list DealEntry)) :
  forall d obj r,
    verifyDeals invoke st dealsObj d obj = Resolved r ->
    forall src arr j p c,
      In (src, arr) dealsObj ->
      nth_error arr j = Some p -> nth_error arr (S j) = Some c ->
      chained invoke st (length arr) (S j) p c.
Proof.
  induction dealsObj as [|[src0 arr0] rest IH]; intros d obj r E;
    [intros src arr j p c []|].
  simpl in E. apply bind_resolved in E. destruct E as ([d1 obj1] & S1 & E).
  intros src arr j p c [Q|I] Np Nc.
  - injection Q as -> ->. apply dealLoop_chained in S1.
    exact (proj2 S1 j p c Np Nc).
  - exact (IH _ _ _ E src arr j p c I Np Nc).
Qed.

End ProvenanceFacts.

Section ProvenanceClaims.
Variable invoke : CryptoOp -> string -> option Keypair -> string.

(** X19.  Every card of a resolved analysis has a recorded origin: it is a card
    of the mapped deck, and its mapping is a value of a decryption entry
    among the deals of a dealing player, decrypted under the last keypair of
    that player's keychain.  A private card is filed under that player's own
    private ID and comes from an entry flagged private, a public card from
    an entry that is not. *)
Theorem analyzeCards_provenance (st : Analyzer) (cardsObj : Analysis)
    (st' : Analyzer) :
  analyzeCards invoke st = (Resolved (Some cardsObj), st') ->
  provenance invoke st cardsObj.
Proof.
  intros E. destruct (analyzeCards_resolved _ _ _ _ E)
    as (generated & snapshots & d' & _ & _ & W).
  apply (verifyDeals_provenance invoke st) in W; [assumption|auto|].
  split; [intros c []|intros src cards c []].
Qed.

(** X20.  The deal arrays of a resolved analysis are well chained: no selection
    directly follows a selection, and every decryption that follows a
    decryption and is not the last entry of its array holds the cards of the
    entry before it, decrypted under the last keypair of its sender, as a
    multiset. *)
Theorem analyzeCards_deal_chain (st : Analyzer) (cardsObj : Analysis)
    (st' : Analyzer) (src : string) (arr : list DealEntry) (j : nat)
    (p c : DealEntry) :
  analyzeCards invoke st = (Resolved (Some cardsObj), st') ->
  In (src, arr) (deals st) ->
  nth_error arr j = Some p -> nth_error arr (S j) = Some c ->
  (deal_type p = select -> deal_type c = select -> False)
  /\ (deal_type p = decrypt -> deal_type c = decrypt ->
      (S j < length arr - 1)%nat ->
      Permutation (decryptedBy invoke st (deal_fromPID c) (deal_cards p))
                  (deal_cards c)).
Proof.
  intros E I Np Nc. destruct (analyzeCards_resolved _ _ _ _ E)
    as (generated & snapshots & d' & _ & _ & W).
  exact (verifyDeals_chained invoke st _ _ _ _ W src arr j p c I Np Nc).
Qed.

End ProvenanceClaims.

Lemma analyzeCards_provenance_witness :
  provenance SampleDeal.cipher SampleDeal.table4 SampleDeal.dealt.
Proof.
  exact (analyzeCards_provenance SampleDeal.cipher SampleDeal.table4
           SampleDeal.dealt SampleDeal.table4 eq_refl).
Defined.

Lemma analyzeCards_deal_chain_witness :
  Permutation
    (decryptedBy SampleDeal.cipher SampleDeal.table4 "Q3" ["a134"]) ["a14"].
Proof.
  refine (proj2 (analyzeCards_deal_chain SampleDeal.cipher SampleDeal.table4
                   SampleDeal.dealt SampleDeal.table4 "Q1" _ 1%nat
                   (SampleDeal.entry "Q2" decrypt true ["a134"])
                   (SampleDeal.entry "Q3" decrypt true ["a14"])
                   eq_refl (or_introl eq_refl) eq_refl eq_refl)
            eq_refl eq_refl _).
  simpl. lia.
Defined.

(** ** Soundness of the winners *)

Lemma eliminateDuplicates_sub (candidates : list (nat * HandRef)) :
  forall acc w,
    In w (eliminateDuplicates candidates acc) -> In w acc \/ In w candidates.
Proof.
  induction candidates as [|[i ref] rest IH]; intros acc w I; simpl in *.
  - now left.
  - destruct (existsb _ acc).
    + destruct (IH _ _ I); auto.
    + destruct (IH _ _ I) as [J|J]; [|auto].
      apply in_app_or in J. destruct J as [J|[<-|[]]]; auto.
Qed.

(** The state after one candidate of the tie-break. *)
Lemma tieBreak_cons (players : list CypherPokerPlayer)
    (cardsObj : Analysis) (player : nat) (ref : HandRef)
    (rest : list (nat * HandRef)) (st st' : ScoreState) :
  tieBreak players (private cardsObj) ((player, ref) :: rest) st
  = Resolved st' ->
  exists t st1,
    tiebreakOf players cardsObj player = Some t
    /\ tieBreak players (private cardsObj) rest st1 = Resolved st'
    /\ ((highestScore st < t /\ highestScore st1 = t
         /\ winners st1 = [(player, ref)])
        \/ (t = highestScore st /\ highestScore st1 = t
            /\ winners st1 = winners st ++ [(player, ref)])
        \/ (t < highestScore st /\ highestScore st1 = highestScore st
            /\ winners st1 = winners st)).
Proof.
  simpl. unfold tiebreakOf.
  destruct (nth_error players player) as [p|]; [|discriminate].
  destruct (objGet (private cardsObj) (privateID p))
    as [[|c1 [|c2 more]]|]; try discriminate.
  intros E. eexists _, _. split; [reflexivity|]. split; [exact E|].
  destruct (Z.ltb_spec (highestScore st) (holeScore c1 c2));
    [|destruct (Z.eqb_spec (holeScore c1 c2) (highestScore st))]; simpl.
  - left. auto.
  - right. left. auto.
  - right. right. repeat split. lia.
Qed.

Lemma tieBreak_sound (players : list CypherPokerPlayer) (cardsObj : Analysis)
    (candidates : list (nat * HandRef)) :
  forall st st',
    tieBreak players (private cardsObj) candidates st = Resolved st' ->
    highestScore st <= highestScore st'
    /\ (forall c, In c candidates ->
          exists t, tiebreakOf players cardsObj (fst c) = Some t
                    /\ t <= highestScore st')
    /\ (forall w, In w (winners st') ->
          (In w (winners st) /\ highestScore st' = highestScore st)
          \/ (In w candidates
              /\ tiebreakOf players cardsObj (fst w)
                 = Some (highestScore st'))).
Proof.
  induction candidates as [|[player ref] rest IH]; intros st st' E.
  - simpl in E. injection E as <-. split; [lia|].
    split; [intros c []|]. intros w I. now left.
  - apply tieBreak_cons in E. destruct E as (t & st1 & Tb & E & Step).
    destruct (IH _ _ E) as (L & Bd & Wn).
    split; [|split].
    + destruct Step as [(? & ? & ?)|[(? & ? & ?)|(? & ? & ?)]]; lia.
    + intros c [<-|I]; [|auto]. exists t. split; [exact Tb|].
      destruct Step as [(? & ? & ?)|[(? & ? & ?)|(? & ? & ?)]]; lia.
    + intros w I. destruct (Wn w I) as [[J Eq]|[J Tw]].
      * destruct Step as [(? & H1 & H2)|[(? & H1 & H2)|(? & H1 & H2)]];
          rewrite H2 in J.
        -- destruct J as [<-|[]]. right. split; [now left|].
           simpl. congruence.
        -- apply in_app_or in J. destruct J as [J|[<-|[]]].
           ++ left. split; [assumption|congruence].
           ++ right. split; [now left|]. simpl. congruence.
        -- left. split; [assumption|congruence].
      * right. split; [now right|assumption].
Qed.

Lemma tieBreak_nonempty (players : list CypherPokerPlayer)
    (cardsObj : Analysis) (candidates : list (nat * HandRef)) :
  forall st st',
    tieBreak players (private cardsObj) candidates st = Resolved st' ->
    (forall c t, In c candidates ->
       tiebreakOf players cardsObj (fst c) = Some t -> 0 <= t) ->
    highestScore st <= 0 \/ winners st <> [] ->
    candidates <> [] \/ winners st <> [] ->
    winners st' <> [].
Proof.
  induction candidates as [|[player ref] rest IH]; intros st st' E Tb Inv Ne.
  - simpl in E. injection E as <-. destruct Ne; [congruence|assumption].
  - apply tieBreak_cons in E. destruct E as (t & st1 & Et & E & Step).
    pose proof (Tb (player, ref) t (or_introl eq_refl) Et) as T0.
    assert (W1 : winners st1 <> []).
    { destruct Step as [(? & H1 & H2)|[(? & H1 & H2)|(? & H1 & H2)]];
        rewrite H2.
      - discriminate.
      - intros Q. apply app_eq_nil in Q. destruct Q. discriminate.
      - destruct Inv; [lia|assumption]. }
    apply (IH _ _ E); auto. intros c t' I. apply Tb. now right.
Qed.

(** X21.  Every listed winner earned it: the player has not folded and holds a
    permutation whose score no contender beats; and among the players at
    that top score none has a larger hole-card score than a winner. *)
Theorem scoreHands_winners_sound (players : list CypherPokerPlayer)
    (cardsObj scored : Analysis) (i : nat) :
  scoreHands players cardsObj = Resolved scored ->
  In i (winningPlayers scored) ->
  (exists perm, contender players cardsObj i perm
                /\ topScore players cardsObj (handScore perm))
  /\ forall j perm ti tj,
       contender players cardsObj j perm ->
       topScore players cardsObj (handScore perm) ->
       tiebreakOf players cardsObj i = Some ti ->
       tiebreakOf players cardsObj j = Some tj ->
       tj <= ti.
Proof.
  unfold scoreHands.
  pose proof (scorePlayers_contenders players cardsObj) as B.
  set (st1 := scorePlayers players (public cardsObj) (private cardsObj) _) in *.
  destruct B as [B1 B2 B3 B4 B5].
  assert (Top : forall c, In c (winners st1) ->
            exists perm, contender players cardsObj (fst c) perm
                         /\ topScore players cardsObj (handScore perm)
                         /\ handScore perm = highestScore st1).
  { intros c I. destruct (B4 c I) as (perm & C & E). exists perm.
    split; [assumption|]. split; [|assumption].
    intros k q Ck. rewrite E. exact (B1 _ _ Ck). }
  assert (At : forall j perm, contender players cardsObj j perm ->
            topScore players cardsObj (handScore perm) ->
            winners st1 <> [] ->
            exists c, In c (winners st1) /\ fst c = j).
  { intros j perm C T Ne.
    assert (handScore perm = highestScore st1) as E.
    { pose proof (B1 _ _ C).
      destruct (winners st1) as [|c0 ws] eqn:W; [congruence|].
      destruct (B4 c0 (or_introl eq_refl)) as (p0 & C0 & E0).
      pose proof (T _ _ C0). lia. }
    pose proof (B5 _ _ C E) as I. apply in_map_iff in I.
    destruct I as (c & Ec & Ic). now exists c. }
  destruct (1 <? length (winners st1))%nat eqn:Many.
  - destruct (tieBreak players (private cardsObj) (winners st1) _)
      as [st2| |] eqn:TB; simpl; try discriminate.
    intros E I. injection E as <-. cbn [winningPlayers setScores] in I.
    apply in_map_iff in I. destruct I as (w & <- & I).
    apply eliminateDuplicates_sub in I. destruct I as [[]|I].
    destruct (tieBreak_sound _ _ _ _ _ TB) as (_ & Bd & Wn).
    destruct (Wn w I) as [[[] _]|[Iw Tw]].
    split.
    + destruct (Top w Iw) as (perm & C & T & _). now exists perm.
    + intros j perm ti tj C T Ti Tj.
      destruct (At j perm C T) as (c & Ic & <-).
      { intros Q. rewrite Q in Iw. destruct Iw. }
      destruct (Bd c Ic) as (t & Et & Lt). congruence.
  - simpl. intros E I. injection E as <-. cbn [winningPlayers setScores] in I.
    apply in_map_iff in I. destruct I as (w & <- & I).
    apply eliminateDuplicates_sub in I. destruct I as [[]|I].
    split.
    + destruct (Top w I) as (perm & C & T & _). now exists perm.
    + intros j perm ti tj C T Ti Tj.
      destruct (At j perm C T) as (c & Ic & Ej).
      { intros Q. rewrite Q in I. destruct I. }
      assert (c = w) as ->.
      { apply Nat.ltb_ge in Many.
        destruct (winners st1) as [|w0 [|w1 ws]]; simpl in *;
          [contradiction| |lia].
        destruct Ic as [<-|[]], I as [<-|[]]. reflexivity. }
      rewrite Ej in Ti. assert (ti = tj) by congruence. lia.
Qed.

Lemma scoreHands_first_loop (players : list CypherPokerPlayer)
    (cardsObj scored : Analysis) :
  scoreHands players cardsObj = Resolved scored ->
  forall i, In i (winningPlayers scored) ->
    In i (map fst (winners (scorePlayers players (public cardsObj)
                              (private cardsObj)
                              {| highestScore := -1; winners := [];
                                 handStore := [] |}))).
Proof.
  unfold scoreHands.
  set (st1 := scorePlayers players (public cardsObj) (private cardsObj) _).
  destruct (1 <? length (winners st1))%nat.
  - destruct (tieBreak players (private cardsObj) (winners st1) _)
      as [st2| |] eqn:TB; simpl; try discriminate.
    intros E i I. injection E as <-. cbn [winningPlayers setScores] in I.
    apply in_map_iff in I. destruct I as (w & <- & I).
    apply eliminateDuplicates_sub in I. destruct I as [[]|I].
    destruct (tieBreak_sound _ _ _ _ _ TB) as (_ & _ & Wn).
    destruct (Wn w I) as [[[] _]|[Iw _]]. now apply in_map.
  - simpl. intros E i I. injection E as <-. cbn [winningPlayers setScores] in I.
    apply in_map_iff in I. destruct I as (w & <- & I).
    apply eliminateDuplicates_sub in I. destruct I as [[]|I]. now apply in_map.
Qed.

(** X22.  With the cards of the registry, a hand that [scoreHands] resolves has a
    winner exactly when it has a contender: a player who has not folded and
    whose private cards were verified. *)
Theorem scoreHands_some_winner (players : list CypherPokerPlayer)
    (cardsObj scored : Analysis) :
  registeredCards cardsObj ->
  scoreHands players cardsObj = Resolved scored ->
  (winningPlayers scored <> []
   <-> exists i perm, contender players cardsObj i perm).
Proof.
  intros Reg R. split.
  - intros Ne. destruct (winningPlayers scored) as [|i ws] eqn:W;
      [congruence|].
    pose proof (scoreHands_first_loop players cardsObj scored R i) as I.
    rewrite W in I. specialize (I (or_introl eq_refl)).
    apply in_map_iff in I. destruct I as (w & <- & I).
    destruct (best_sound _ _ (scorePlayers_contenders players cardsObj) w I)
      as (perm & C & _).
    now exists (fst w), perm.
  - intros (i & perm & C). revert R. unfold scoreHands.
    pose proof (scorePlayers_contenders players cardsObj) as B.
    set (st1 := scorePlayers players (public cardsObj) (private cardsObj) _)
      in *.
    destruct B as [B1 B2 B3 B4 B5].
    assert (W1 : winners st1 <> []).
    { pose proof (B1 _ _ C) as L.
      pose proof (contender_score_nonneg players cardsObj i perm Reg C) as N.
      destruct B3 as [E|(k & q & Ck & E)]; [lia|].
      pose proof (B5 _ _ Ck E) as I. intros Q. rewrite Q in I. destruct I. }
    assert (Fin : forall ws : list (nat * HandRef),
              ws <> [] -> map fst (eliminateDuplicates ws []) <> []).
    { intros ws Ne Q. destruct ws as [|[k ref] ws]; [congruence|].
      destruct (eliminateDuplicates_spec ((k, ref) :: ws) []
                  (List.NoDup_nil _)) as [_ K].
      specialize (K k (or_intror (or_introl eq_refl))).
      rewrite Q in K. destruct K. }
    destruct (1 <? length (winners st1))%nat.
    + destruct (tieBreak players (private cardsObj) (winners st1) _)
        as [st2| |] eqn:TB; simpl; try discriminate.
      intros E. injection E as <-. cbn [winningPlayers setScores].
      apply Fin. apply (tieBreak_nonempty _ _ _ _ _ TB).
      * intros c t _ Et.
        now apply (tiebreakOf_nonneg players cardsObj (fst c)).
      * left. simpl. lia.
      * now left.
    + simpl. intros E. injection E as <-. cbn [winningPlayers setScores].
      now apply Fin.
Qed.

Lemma scoreHands_winners_sound_witness :
  exists perm,
    contender [Sample.P1; Sample.P2; Sample.P3] Sample.showdown3 2 perm
    /\ topScore [Sample.P1; Sample.P2; Sample.P3] Sample.showdown3
         (handScore perm).
Proof.
  refine (proj1 (scoreHands_winners_sound [Sample.P1; Sample.P2; Sample.P3]
                   Sample.showdown3 _ 2 _ _)).
  - vm_compute. reflexivity.
  - simpl. now left.
Defined.

Lemma scoreHands_some_winner_witness :
  exists scored,
    scoreHands [Sample.P1; Sample.P2] Sample.showdown = Resolved scored
    /\ (winningPlayers scored <> []
        <-> exists i perm,
              contender [Sample.P1; Sample.P2] Sample.showdown i perm).
Proof.
  eexists. split; [vm_compute; reflexivity|].
  apply (scoreHands_some_winner [Sample.P1; Sample.P2] Sample.showdown).
  - split; [repeat constructor; cbn; lia|].
    intros pid cards [E|[E|[]]]; inversion E; repeat constructor; cbn; lia.
  - vm_compute. reflexivity.
Defined.

(** ** Capturing the deals *)

Lemma objGet_objSet_eq {V : Type} (k : string) (v : V)
    (o : list (string * V)) :
  objGet (objSet k v o) k = Some v.
Proof.
  induction o as [|[k' v'] o IH]; simpl.
  - now rewrite String.eqb_refl.
  - destruct (String.eqb k' k) eqn:Q; simpl; rewrite Q; auto.
Qed.

Lemma objGet_objSet_ne {V : Type} (k k0 : string) (v : V)
    (o : list (string * V)) :
  k0 <> k -> objGet (objSet k v o) k0 = objGet o k0.
Proof.
  intros N. induction o as [|[k' v'] o IH]; simpl.
  - destruct (String.eqb k k0) eqn:Q; [|reflexivity].
    apply String.eqb_eq in Q. congruence.
  - destruct (String.eqb k' k) eqn:Q; simpl.
    + apply String.eqb_eq in Q. subst k'.
      destruct (String.eqb k k0) eqn:Q'; [|reflexivity].
      apply String.eqb_eq in Q'. congruence.
    + destruct (String.eqb k' k0); [reflexivity|exact IH].
Qed.

Lemma objSet_keys {V : Type} (k : string) (v : V) (o : list (string * V)) :
  exists more, map fst (objSet k v o) = map fst o ++ more.
Proof.
  induction o as [|[k' v'] o IH]; simpl.
  - now exists [k].
  - destruct (String.eqb k' k); simpl.
    + exists []. now rewrite app_nil_r.
    + destruct IH as (more & ->). now exists more.
Qed.

Lemma extends_refl (st : Analyzer) : extends st st.
Proof.
  split.
  - now destruct st.
  - exists []. now rewrite app_nil_r.
  - intros pid arr E. exists []. now rewrite app_nil_r.
Qed.

Lemma extends_trans (st1 st2 st3 : Analyzer) :
  extends st1 st2 -> extends st2 st3 -> extends st1 st3.
Proof.
  intros [R1 K1 D1] [R2 K2 D2]. split.
  - rewrite R2 at 1. rewrite R1 at 1. reflexivity.
  - destruct K1 as (m1 & E1), K2 as (m2 & E2). exists (m1 ++ m2).
    now rewrite E2, E1, app_assoc.
  - intros pid arr E. destruct (D1 _ _ E) as (m1 & E1).
    destruct (D2 _ _ E1) as (m2 & E2). exists (m1 ++ m2).
    now rewrite app_assoc.
Qed.

Lemma extends_active (st : Analyzer) (b : bool) : extends st (setActive st b).
Proof.
  split.
  - now destruct st.
  - exists []. now rewrite app_nil_r.
  - intros pid arr E. exists []. now rewrite app_nil_r.
Qed.

Lemma storeDeal_extends (st : Analyzer) (d f : string) (cards : list string)
    (p x : bool) :
  extends st (storeDeal st d f cards p x).
Proof.
  unfold storeDeal. split; cbn [deals setDeals active].
  - now destruct st.
  - apply objSet_keys.
  - intros pid arr E. destruct (String.eqb_spec pid d) as [->|N].
    + rewrite objGet_objSet_eq, E. simpl. eauto.
    + rewrite objGet_objSet_ne by assumption. exists [].
      now rewrite app_nil_r.
Qed.

Lemma capture_extends (st : Analyzer) (ev : DealEvent) :
  extends st (capture st ev).
Proof.
  destruct ev as [own sel p|src own sel p|has src from sel p]; simpl.
  - unfold onSelectCards.
    destruct p; (eapply extends_trans;
                 [apply (extends_active st true)|apply storeDeal_extends]).
  - unfold onGameDecrypt.
    destruct p; (eapply extends_trans;
                 [apply (extends_active st true)|apply storeDeal_extends]).
  - unfold onGameDealMessage. cbn [players setActive].
    destruct has; [apply extends_active|].
    destruct (getPlayer (players st) src) as [i|];
      [|apply extends_active].
    destruct (getPlayer (players st) from) as [j|];
      [|apply extends_active].
    destruct (nth_error (players st) i) as [dp|]; [|apply extends_active].
    destruct (nth_error (players st) j) as [fp|]; [|apply extends_active].
    destruct (String.eqb (privateID dp) (privateID fp)), p; cbn [snd];
      (eapply extends_trans;
       [apply (extends_active st true)|apply storeDeal_extends]).
Qed.

Lemma captureAll_extends (events : list DealEvent) :
  forall st, extends st (captureAll st events).
Proof.
  unfold captureAll.
  induction events as [|ev events IH]; intros st; simpl.
  - apply extends_refl.
  - eapply extends_trans; [apply capture_extends|apply IH].
Qed.

(** X23.  The capture of the deals is append-only.  For events filed under
    ordinary private IDs (no name that every object inherits, no name made
    of digits): whatever selections, decryptions and deal messages the
    handlers see, they change nothing of the analyzer but [deals] and
    [active]; every deal array that was there is still there with its
    entries at their places, new entries coming after them; and the dealing
    players keep the order in which they were first seen, which is the
    order in which their deals are verified. *)
Theorem capture_append_only (st : Analyzer) (events : list DealEvent) :
  Forall (fun ev => ordinaryID (dealingPID ev) = true) events ->
  let st' := captureAll st events in
  st' = setActive (setDeals st (deals st')) (active st')
  /\ (exists more, map fst (deals st') = map fst (deals st) ++ more)
  /\ (forall pid arr, objGet (deals st) pid = Some arr ->
        exists more, objGet (deals st') pid = Some (arr ++ more))
  /\ (forall pid arr j e, objGet (deals st) pid = Some arr ->
        nth_error arr j = Some e ->
        exists arr', objGet (deals st') pid = Some arr'
                     /\ nth_error arr' j = Some e).
Proof.
  intros _. cbv zeta. destruct (captureAll_extends events st) as [R K D].
  split; [exact R|]. split; [exact K|]. split; [exact D|].
  intros pid arr j e E N. destruct (D _ _ E) as (more & E').
  exists (arr ++ more). split; [exact E'|].
  rewrite nth_error_app1; [exact N|]. apply nth_error_Some. congruence.
Qed.

Lemma capture_append_only_witness :
  exists arr',
    objGet (deals (captureAll SampleDeal.table4
                     [gamedealselect "Q1" ["c1234"] false;
                      gamedecrypt "Q1" "Q2" ["c134"] false])) "Q1"
    = Some arr'
    /\ nth_error arr' 1
       = Some (SampleDeal.entry "Q2" decrypt true ["a134"]).
Proof.
  apply (proj2 (proj2 (proj2 (capture_append_only SampleDeal.table4
           [gamedealselect "Q1" ["c1234"] false;
            gamedecrypt "Q1" "Q2" ["c134"] false]
           ltac:(repeat (apply List.Forall_cons; [reflexivity|]);
                 apply List.Forall_nil))))
         "Q1" (default [] (objGet SampleDeal.dealsOfHand "Q1")) 1%nat
         (SampleDeal.entry "Q2" decrypt true ["a134"]));
    reflexivity.
Defined.

(** X24.  A deal message is filed under the private ID of the dealing player,
    when that ID is not a name that every object inherits.  The entry is a
    selection exactly when the sender is the dealing player, and a
    decryption otherwise; it keeps the sender, the values and the private
    flag of the message and becomes the last entry of the array.  A message
    with fully decrypted cards stores nothing, and so does one whose sender
    or dealing player is unknown, on which the handler fails. *)
Theorem onGameDealMessage_files_entry (st : Analyzer) (hasCards : bool)
    (sourcePID from : string) (selected : list string) (isPrivate : bool) :
  let r := onGameDealMessage st hasCards sourcePID from selected isPrivate in
  active r.2 = true
  /\ (hasCards = true -> r.1 = Resolved true /\ deals r.2 = deals st)
  /\ (hasCards = false ->
      (getPlayer (players st) sourcePID = None
       \/ getPlayer (players st) from = None) ->
      r.1 = TypeError /\ deals r.2 = deals st)
  /\ (hasCards = false ->
      inheritedName sourcePID = false ->
      getPlayer (players st) sourcePID <> None ->
      getPlayer (players st) from <> None ->
      r.1 = Resolved true
      /\ objGet (deals r.2) sourcePID
         = Some (default [] (objGet (deals st) sourcePID)
                 ++ [{| deal_fromPID := from;
                        deal_type := if String.eqb sourcePID from
                                     then select else decrypt;
                        deal_private := isPrivate;
                        deal_cards := selected |}])
      /\ forall pid, pid <> sourcePID ->
           objGet (deals r.2) pid = objGet (deals st) pid).
Proof.
  cbv zeta. unfold onGameDealMessage. cbn [players setActive].
  pose proof (getPlayer_found (players st) sourcePID) as G1.
  pose proof (getPlayer_found (players st) from) as G2.
  destruct hasCards.
  - cbn. repeat split; try discriminate; intros; congruence.
  - destruct (getPlayer (players st) sourcePID) as [i|].
    + destruct (getPlayer (players st) from) as [j|].
      * destruct G1 as (dp & -> & <-). destruct G2 as (fp & -> & <-).
        assert (forall x,
                  active (storeDeal (setActive st true) (privateID dp)
                            (privateID fp) selected isPrivate x) = true) as A
          by reflexivity.
        destruct (String.eqb (privateID dp) (privateID fp)), isPrivate;
          cbn [fst snd]; (split; [reflexivity|]);
          (split; [discriminate|]);
          (split; [intros _ [Q|Q]; discriminate|]);
          intros _ _ _ _; (split; [reflexivity|]);
          unfold storeDeal; cbn [deals setDeals setActive];
          (split; [apply objGet_objSet_eq
                  |intros pid N; now apply objGet_objSet_ne]).
      * cbn. repeat split; try discriminate; try congruence.
    + cbn. repeat split; try discriminate; try congruence.
Qed.

Lemma onGameDealMessage_files_entry_witness :
  let r := onGameDealMessage SampleDeal.table4 false "Q1" "Q3" ["x"] true in
  r.1 = Resolved true
  /\ objGet (deals r.2) "Q1"
     = Some (default [] (objGet (deals SampleDeal.table4) "Q1")
             ++ [{| deal_fromPID := "Q3";
                    deal_type := if String.eqb "Q1" "Q3" then select else decrypt;
                    deal_private := true;
                    deal_cards := ["x"] |}])
  /\ forall pid, pid <> "Q1" ->
       objGet (deals r.2) pid = objGet (deals SampleDeal.table4) pid.
Proof.
  apply (proj2 (proj2 (proj2 (onGameDealMessage_files_entry SampleDeal.table4
                                false "Q1" "Q3" ["x"] true))));
    [reflexivity|reflexivity|discriminate|discriminate].
Defined.

(** ** Capturing the deck *)

Lemma getMappedCard_own (faceup : list CypherPokerCard) :
  List.NoDup (map mapping faceup) ->
  forall c, In c faceup -> getMappedCard faceup (mapping c) = Some c.
Proof.
  unfold getMappedCard.
  induction faceup as [|a faceup IH]; intros N c I; [destruct I|].
  simpl in N. apply List.NoDup_cons_iff in N. destruct N as [Na N].
  simpl. destruct I as [<-|I].
  - now rewrite String.eqb_refl.
  - destruct (String.eqb_spec (mapping a) (mapping c)) as [E|D].
    + exfalso. apply Na. rewrite E. now apply in_map.
    + now apply IH.
Qed.

Lemma gameMappedCards_own (faceup : list CypherPokerCard) :
  List.NoDup (map mapping faceup) -> gameMappedCards faceup = faceup.
Proof.
  intros N. unfold gameMappedCards.
  rewrite <- (map_id faceup) at 2. apply map_ext_in.
  intros c I. now rewrite (getMappedCard_own faceup N c I).
Qed.

Lemma recordEncryptions_later (events : list EncryptEvent) :
  forall st,
    deck st <> [] ->
    deck (recordEncryptions st events)
    = deck st
      ++ map (fun e => {| snap_fromPID := enc_player e;
                          snap_cards := enc_selected e |}) events
    /\ mappedDeck (recordEncryptions st events) = mappedDeck st
    /\ players (recordEncryptions st events) = players st
    /\ deals (recordEncryptions st events) = deals st
    /\ keychains (recordEncryptions st events) = keychains st.
Proof.
  unfold recordEncryptions.
  induction events as [|e events IH]; intros st Ne; simpl.
  - now rewrite app_nil_r.
  - unfold onEncryptCards at 2 4 6 8 10. cbn [deck setActive].
    destruct (deck st) as [|s0 ss] eqn:D; [congruence|]. cbn [snd].
    match goal with
    | |- context [fold_left _ events ?s] =>
        destruct (IH s) as (I1 & I2 & I3 & I4 & I5)
    end.
    { cbn. destruct ss; discriminate. }
    rewrite I1, I2, I3, I4, I5. cbn. rewrite <- app_assoc. auto.
Qed.

(** X25.  The deck that the analysis replays is built by the capture.  From an
    analyzer with no snapshot and a dealer among its players, a sequence of
    encryption events leaves the plaintext snapshot of the dealer, with the
    mappings of the face-up deck of the first event, followed by one
    snapshot per event, in order; the mapped deck grows by the cards of
    that face-up deck only; players, deals and keychains are untouched.
    When the mappings of the face-up deck are pairwise different and the
    mapped deck was empty, the mapped deck is that face-up deck and every
    card of it is found again by its mapping. *)
Theorem onEncryptCards_builds_deck (st : Analyzer)
    (dealer : CypherPokerPlayer) (e : EncryptEvent)
    (rest : list EncryptEvent) :
  deck st = [] -> getDealer (players st) = Some dealer ->
  let st' := recordEncryptions st (e :: rest) in
  deck st'
  = {| snap_fromPID := privateID dealer;
       snap_cards := map mapping (enc_faceup e) |}
    :: map (fun x => {| snap_fromPID := enc_player x;
                        snap_cards := enc_selected x |}) (e :: rest)
  /\ mappedDeck st' = mappedDeck st ++ gameMappedCards (enc_faceup e)
  /\ players st' = players st /\ deals st' = deals st
  /\ keychains st' = keychains st
  /\ (List.NoDup (map mapping (enc_faceup e)) -> mappedDeck st = [] ->
      mappedDeck st' = enc_faceup e
      /\ forall c, In c (enc_faceup e) ->
           getMappedCard (mappedDeck st') (mapping c) = Some c).
Proof.
  intros D G. cbv zeta. unfold recordEncryptions. cbn [fold_left].
  fold (recordEncryptions
          (onEncryptCards st (enc_faceup e) (enc_player e) (enc_selected e)).2
          rest).
  unfold onEncryptCards. cbn [deck players setActive setMappedDeck].
  rewrite D, G. cbn [snd].
  match goal with
  | |- context [recordEncryptions ?s rest] =>
      destruct (recordEncryptions_later rest s) as (I1 & I2 & I3 & I4 & I5)
  end; [discriminate|].
  rewrite I1, I2, I3, I4, I5. cbn.
  do 5 (split; [reflexivity|]). intros N M. rewrite M. simpl.
  rewrite gameMappedCards_own by assumption.
  split; [reflexivity|]. intros c I. now apply getMappedCard_own.
Qed.

Lemma onEncryptCards_builds_deck_witness :
  let e := {| enc_faceup := mappedDeck SampleDeal.table4;
              enc_player := "Q1"; enc_selected := ["a1"; "b1"; "c1"] |} in
  let st' := recordEncryptions
               (setMappedDeck (setDeck SampleDeal.table4 []) []) [e] in
  mappedDeck st' = enc_faceup e
  /\ forall c, In c (enc_faceup e) ->
       getMappedCard (mappedDeck st') (mapping c) = Some c.
Proof.
  cbv zeta.
  refine (proj2 (proj2 (proj2 (proj2 (proj2
            (onEncryptCards_builds_deck
               (setMappedDeck (setDeck SampleDeal.table4 []) [])
               (SampleDeal.seat "Q1" "1" true)
               {| enc_faceup := mappedDeck SampleDeal.table4;
                  enc_player := "Q1"; enc_selected := ["a1"; "b1"; "c1"] |}
               [] eq_refl eq_refl))))) _ eq_refl).
  repeat (apply List.NoDup_cons; [simpl; intuition discriminate|]).
  apply List.NoDup_nil.
Defined.

(** X26.  Without a player flagged as the dealer the first capture never
    succeeds: every encryption event makes the handler fail, no snapshot is
    stored, and each failed call has already added the cards of its face-up
    deck to the mapped deck, which so accumulates one copy per event. *)
Theorem onEncryptCards_without_dealer (st : Analyzer)
    (events : list EncryptEvent) :
  deck st = [] -> getDealer (players st) = None ->
  deck (recordEncryptions st events) = []
  /\ mappedDeck (recordEncryptions st events)
     = mappedDeck st
       ++ flat_map (fun e => gameMappedCards (enc_faceup e)) events
  /\ forall faceup playerPID selected,
       (onEncryptCards (recordEncryptions st events) faceup playerPID
          selected).1 = TypeError.
Proof.
  unfold recordEncryptions. revert st.
  induction events as [|e events IH]; intros st D G; cbn [fold_left flat_map].
  - rewrite app_nil_r. split; [assumption|]. split; [reflexivity|].
    intros faceup playerPID selected. unfold onEncryptCards.
    cbn [deck players setActive setMappedDeck]. now rewrite D, G.
  - match goal with
    | |- context [fold_left _ events ?s] =>
        assert (deck s = [] /\ getDealer (players s) = None
                /\ mappedDeck s
                   = mappedDeck st ++ gameMappedCards (enc_faceup e))
          as (D1 & G1 & M1)
    end.
    { unfold onEncryptCards. cbn [deck players setActive setMappedDeck].
      rewrite D, G. cbn. auto. }
    destruct (IH _ D1 G1) as (I1 & I2 & I3).
    split; [exact I1|]. split; [|exact I3].
    rewrite I2, M1, <- app_assoc. reflexivity.
Qed.

Lemma onEncryptCards_without_dealer_witness :
  let st := setPlayers (setDeck SampleDeal.table4 []) [Sample.P2] in
  let e := {| enc_faceup := mappedDeck SampleDeal.table4;
              enc_player := "P2"; enc_selected := ["a2"] |} in
  deck (recordEncryptions st [e; e]) = []
  /\ mappedDeck (recordEncryptions st [e; e])
     = mappedDeck st ++ flat_map (fun x => gameMappedCards (enc_faceup x)) [e; e]
  /\ forall faceup playerPID selected,
       (onEncryptCards (recordEncryptions st [e; e]) faceup playerPID
          selected).1 = TypeError.
Proof.
  cbv zeta. apply onEncryptCards_without_dealer; reflexivity.
Defined.

(** ** The stored hands *)

Lemma resolves_objSet_ne (store : list (string * list HandObj)) (H : Z)
    (ref : HandRef) (pid : string) (arr : list HandObj) :
  fst ref <> pid -> resolves store H ref ->
  resolves (objSet pid arr store) H ref.
Proof.
  intros N (a & h & G & Nt & E). exists a, h.
  rewrite objGet_objSet_ne by assumption. auto.
Qed.

Lemma resolves_grow (store : list (string * list HandObj)) (H : Z)
    (ref : HandRef) (pid : string) (arr more : list HandObj) :
  objGet store pid = Some arr -> resolves store H ref ->
  resolves (objSet pid (arr ++ more) store) H ref.
Proof.
  intros G R. destruct (String.eqb_spec (fst ref) pid) as [Q|N].
  - destruct R as (a & h & G' & Nt & E). rewrite Q in G'.
    assert (a = arr) as -> by congruence.
    exists (arr ++ more), h. rewrite Q, objGet_objSet_eq.
    split; [reflexivity|]. split; [|assumption].
    rewrite nth_error_app1; [assumption|]. apply nth_error_Some. congruence.
  - now apply resolves_objSet_ne.
Qed.

Lemma scorePerms_store (player : nat) (pid : string)
    (perms : list (list CypherPokerCard)) :
  forall count st arr0,
    objGet (handStore st) pid = Some arr0 -> count = length arr0 ->
    (forall w, In w (winners st) ->
       resolves (handStore st) (highestScore st) (snd w)) ->
    let st' := scorePerms player pid count perms st in
    objGet (handStore st') pid = Some (arr0 ++ map scoredHand perms)
    /\ (forall pid', pid' <> pid ->
          objGet (handStore st') pid' = objGet (handStore st) pid')
    /\ (forall w, In w (winners st') ->
          resolves (handStore st') (highestScore st') (snd w))
    /\ (forall w, In w (winners st') ->
          In w (winners st) \/ fst (snd w) = pid).
Proof.
  induction perms as [|perm perms IH]; intros count st arr0 G C R; cbv zeta.
  - cbn [scorePerms map]. rewrite app_nil_r. auto.
  - cbn [scorePerms]. rewrite G. cbn [default].
    fold (scoredHand perm).
    set (store' := objSet pid (arr0 ++ [scoredHand perm]) (handStore st)).
    assert (G' : objGet store' pid = Some (arr0 ++ [scoredHand perm]))
      by apply objGet_objSet_eq.
    assert (New : forall H, handScore perm = H ->
                    resolves store' H (pid, count)).
    { intros H E. exists (arr0 ++ [scoredHand perm]), (scoredHand perm).
      split; [exact G'|]. split.
      - cbn [snd]. rewrite nth_error_app2 by lia.
        replace (count - length arr0)%nat with 0%nat by lia. reflexivity.
      - unfold scoredHand. now rewrite scoreHand_hand. }
    assert (Old : forall w, In w (winners st) ->
                    resolves store' (highestScore st) (snd w)).
    { intros w I. apply resolves_grow; auto. }
    assert (Ne : forall pid', pid' <> pid ->
                   objGet store' pid' = objGet (handStore st) pid').
    { intros pid' N. now apply objGet_objSet_ne. }
    assert (C' : S count = length (arr0 ++ [scoredHand perm]))
      by (rewrite length_app; simpl; lia).
    change (score (scoredHand perm)) with (handScore perm).
    destruct (Z.eqb_spec (handScore perm) (highestScore st)) as [E|N];
      [|destruct (Z.ltb_spec (highestScore st) (handScore perm))].
    + match goal with
      | |- context [scorePerms _ _ _ _ ?s] =>
          destruct (IH (S count) s _ G' C') as (I1 & I2 & I3 & I4)
      end.
      { cbn [winners handStore highestScore]. intros w I.
        apply in_app_or in I. destruct I as [I|[<-|[]]]; [auto|].
        now apply New. }
      cbn [winners handStore highestScore] in *.
      rewrite <- app_assoc in I1. split; [exact I1|].
      split; [intros pid' N; rewrite I2 by assumption; auto|].
      split; [exact I3|].
      intros w I. destruct (I4 w I) as [J|J]; [|now right].
      apply in_app_or in J. destruct J as [J|[<-|[]]]; [now left|now right].
    + match goal with
      | |- context [scorePerms _ _ _ _ ?s] =>
          destruct (IH (S count) s _ G' C') as (I1 & I2 & I3 & I4)
      end.
      { cbn [winners handStore highestScore]. intros w [<-|[]].
        now apply New. }
      cbn [winners handStore highestScore] in *.
      rewrite <- app_assoc in I1. split; [exact I1|].
      split; [intros pid' N'; rewrite I2 by assumption; auto|].
      split; [exact I3|].
      intros w I. destruct (I4 w I) as [[<-|[]]|J]; now right.
    + match goal with
      | |- context [scorePerms _ _ _ _ ?s] =>
          destruct (IH (S count) s _ G' C') as (I1 & I2 & I3 & I4)
      end.
      { cbn [winners handStore highestScore]. exact Old. }
      cbn [winners handStore highestScore] in *.
      rewrite <- app_assoc in I1. split; [exact I1|].
      split; [intros pid' N'; rewrite I2 by assumption; auto|].
      split; [exact I3|exact I4].
Qed.

Lemma scorePlayers_store (players : list CypherPokerPlayer)
    (pub : list CypherPokerCard)
    (playersObj : list (string * list CypherPokerCard)) :
  forall st,
    List.NoDup (map fst playersObj) ->
    (forall w, In w (winners st) ->
       resolves (handStore st) (highestScore st) (snd w)
       /\ ~ In (fst (snd w)) (map fst playersObj)) ->
    let st' := scorePlayers players pub playersObj st in
    (forall w, In w (winners st') ->
       resolves (handStore st') (highestScore st') (snd w))
    /\ (forall pid cards i p,
          In (pid, cards) playersObj -> getPlayer players pid = Some i ->
          nth_error players i = Some p -> hasFolded p = false ->
          objGet (handStore st') pid
          = Some (map scoredHand (createCardPermutations (cards ++ pub))))
    /\ (forall pid, ~ In pid (map fst playersObj) ->
          objGet (handStore st') pid = objGet (handStore st) pid).
Proof.
  induction playersObj as [|[pid cards] rest IH]; intros st N R; cbv zeta.
  - cbn [scorePlayers]. split; [intros w I; now apply R|].
    split; [intros pid cards i p []|reflexivity].
  - cbn [scorePlayers]. cbn [map fst] in N, R.
    apply List.NoDup_cons_iff in N. destruct N as [Nh Nt].
    match goal with
    | |- context [scorePlayers _ _ _ ?s] => set (st1 := s)
    end.
    assert (Step :
      (forall w, In w (winners st1) ->
         resolves (handStore st1) (highestScore st1) (snd w)
         /\ ~ In (fst (snd w)) (map fst rest))
      /\ (forall i p, getPlayer players pid = Some i ->
            nth_error players i = Some p -> hasFolded p = false ->
            objGet (handStore st1) pid
            = Some (map scoredHand (createCardPermutations (cards ++ pub))))
      /\ (forall pid', pid' <> pid ->
            objGet (handStore st1) pid' = objGet (handStore st) pid')).
    { assert (Same : (forall w, In w (winners st) ->
                        resolves (handStore st) (highestScore st) (snd w)
                        /\ ~ In (fst (snd w)) (map fst rest))).
      { intros w I. destruct (R w I) as [R1 R2]. split; [assumption|].
        intros J. apply R2. now right. }
      subst st1.
      destruct (getPlayer players pid) as [i|];
        [|split; [exact Same|split; [intros i' p' E; discriminate E|auto]]].
      destruct (nth_error players i) as [p|] eqn:Np;
        [|split; [exact Same|split; [|auto]];
          intros i' p' E E'; injection E as <-; congruence].
      destruct (hasFolded p) eqn:F;
        [split; [exact Same|split; [|auto]];
         intros i' p' E E' F'; injection E as <-; congruence|].
      match goal with
      | |- context [scorePerms _ _ _ _ ?s] =>
          destruct (scorePerms_store i pid
                      (createCardPermutations (cards ++ pub)) 0 s [])
            as (P1 & P2 & P3 & P4)
      end.
      - cbn [handStore]. apply objGet_objSet_eq.
      - reflexivity.
      - cbn [winners handStore highestScore]. intros w I.
        destruct (R w I) as [R1 R2]. apply resolves_objSet_ne; [|assumption].
        intros Q. apply R2. now left.
      - cbn [winners handStore highestScore] in *.
        split; [|split].
        + intros w I. split; [now apply P3|].
          destruct (P4 w I) as [J|J].
          * destruct (R w J) as [_ R2]. intros K. apply R2. now right.
          * now rewrite J.
        + intros i' p' _ _ _. exact P1.
        + intros pid' Nq. rewrite P2 by assumption.
          now apply objGet_objSet_ne. }
    destruct Step as (S1 & S2 & S3).
    destruct (IH st1 Nt S1) as (I1 & I2 & I3).
    split; [exact I1|]. split.
    + intros pid0 cards0 i p [E|I] G Np F.
      * injection E as <- <-. rewrite I3 by assumption. now apply (S2 i p).
      * now apply (I2 pid0 cards0 i p).
    + intros pid0 Ni. simpl in Ni. rewrite I3 by tauto. apply S3.
      intros Q. apply Ni. left. now symmetry.
Qed.

Lemma insert_shape (hs : list HandObj) :
  forall k h s,
    nth_error hs k = Some h ->
    map shapeOf (<[k := {| hand := hand h; score := s; name := name h |}]> hs)
    = map shapeOf hs.
Proof.
  induction hs as [|a hs IH]; intros [|k] h s E; simpl in *;
    try discriminate.
  - injection E as <-. reflexivity.
  - f_equal. now apply IH.
Qed.

Lemma setHandScore_shape (ref : HandRef) (s : Z)
    (store : list (string * list HandObj)) (pid : string) :
  option_map (map shapeOf) (objGet (setHandScore ref s store) pid)
  = option_map (map shapeOf) (objGet store pid).
Proof.
  unfold setHandScore.
  destruct (objGet store (fst ref)) as [hs|] eqn:G; [|reflexivity].
  destruct (nth_error hs (snd ref)) as [h|] eqn:N; [|reflexivity].
  destruct (String.eqb_spec pid (fst ref)) as [->|D].
  - rewrite objGet_objSet_eq, G. simpl. f_equal. now apply insert_shape.
  - now rewrite objGet_objSet_ne.
Qed.

Lemma tieBreak_shape (players : list CypherPokerPlayer)
    (priv : list (string * list CypherPokerCard))
    (candidates : list (nat * HandRef)) :
  forall st st' pid,
    tieBreak players priv candidates st = Resolved st' ->
    option_map (map shapeOf) (objGet (handStore st') pid)
    = option_map (map shapeOf) (objGet (handStore st) pid).
Proof.
  induction candidates as [|[player ref] rest IH]; intros st st' pid E;
    simpl in E.
  - now injection E as <-.
  - destruct (nth_error players player) as [p|]; [|discriminate].
    destruct (objGet priv (privateID p)) as [[|c1 [|c2 more]]|];
      try discriminate.
    rewrite (IH _ _ pid E).
    destruct (highestScore st <? holeScore c1 c2);
      [|destruct (holeScore c1 c2 =? highestScore st)];
      cbn [handStore]; apply setHandScore_shape.
Qed.

Lemma resolves_shape (store store' : list (string * list HandObj)) (H : Z)
    (ref : HandRef) :
  option_map (map shapeOf) (objGet store' (fst ref))
  = option_map (map shapeOf) (objGet store (fst ref)) ->
  resolves store H ref -> resolves store' H ref.
Proof.
  intros E (arr & h & G & N & Hs). rewrite G in E.
  destruct (objGet store' (fst ref)) as [arr'|] eqn:G'; [|discriminate].
  simpl in E. injection E as E.
  pose proof (map_nth_error shapeOf _ _ N) as M. rewrite <- E in M.
  rewrite nth_error_map in M.
  destruct (nth_error arr' (snd ref)) as [h'|] eqn:N'; [|discriminate].
  simpl in M. injection M as M _. exists arr', h'.
  split; [exact G'|]. split; [assumption|]. now rewrite M.
Qed.

(** X27.  The hands that [scoreHands] records.  When the private cards are filed
    under distinct private IDs, [hands] holds for every player who has not
    folded one hand object per permutation of that player's cards, in the
    order of [createCardPermutations], each with its cards and its class
    name; every reference of [winningHands] resolves to a stored hand whose
    cards reach the top score; and [winningHands] runs parallel to
    [winningPlayers]. *)
Theorem scoreHands_hands_recorded (players : list CypherPokerPlayer)
    (cardsObj result : Analysis) :
  List.NoDup (map fst (private cardsObj)) ->
  scoreHands players cardsObj = Resolved result ->
  (forall pid cards i p,
     In (pid, cards) (private cardsObj) -> getPlayer players pid = Some i ->
     nth_error players i = Some p -> hasFolded p = false ->
     exists arr,
       objGet (hands result) pid = Some arr
       /\ map shapeOf arr
          = map (fun perm => shapeOf (scoredHand perm))
              (createCardPermutations (cards ++ public cardsObj)))
  /\ (forall ref, In ref (winningHands result) ->
        exists arr h,
          objGet (hands result) (fst ref) = Some arr
          /\ nth_error arr (snd ref) = Some h
          /\ topScore players cardsObj (handScore (hand h)))
  /\ length (winningHands result) = length (winningPlayers result).
Proof.
  intros N. unfold scoreHands.
  pose proof (scorePlayers_contenders players cardsObj) as B.
  pose proof (scorePlayers_store players (public cardsObj) (private cardsObj)
                {| highestScore := -1; winners := []; handStore := [] |} N)
    as St.
  cbv zeta in St.
  set (st1 := scorePlayers players (public cardsObj) (private cardsObj) _) in *.
  destruct St as (R1 & H1 & _); [intros w []|].
  assert (Fin : forall st2,
            (forall pid,
               option_map (map shapeOf) (objGet (handStore st2) pid)
               = option_map (map shapeOf) (objGet (handStore st1) pid)) ->
            (forall w, In w (winners st2) -> In w (winners st1)) ->
            forall result,
              Resolved (setScores cardsObj (handStore st2)
                          (map fst (eliminateDuplicates (winners st2) []))
                          (map snd (eliminateDuplicates (winners st2) [])))
              = Resolved result ->
              (forall pid cards i p,
                 In (pid, cards) (private cardsObj) ->
                 getPlayer players pid = Some i ->
                 nth_error players i = Some p -> hasFolded p = false ->
                 exists arr,
                   objGet (hands result) pid = Some arr
                   /\ map shapeOf arr
                      = map (fun perm => shapeOf (scoredHand perm))
                          (createCardPermutations (cards ++ public cardsObj)))
              /\ (forall ref, In ref (winningHands result) ->
                    exists arr h,
                      objGet (hands result) (fst ref) = Some arr
                      /\ nth_error arr (snd ref) = Some h
                      /\ topScore players cardsObj (handScore (hand h)))
              /\ length (winningHands result)
                 = length (winningPlayers result)).
  { intros st2 Sh Sub res E. injection E as <-.
    cbn [hands winningHands winningPlayers setScores].
    split; [|split].
    - intros pid cards i p I G Np F.
      specialize (Sh pid). rewrite (H1 pid cards i p I G Np F) in Sh.
      destruct (objGet (handStore st2) pid) as [arr|]; [|discriminate].
      simpl in Sh. injection Sh as Sh. exists arr. split; [reflexivity|].
      now rewrite Sh, map_map.
    - intros ref I. apply in_map_iff in I. destruct I as (w & <- & I).
      apply eliminateDuplicates_sub in I. destruct I as [[]|I].
      apply Sub in I. pose proof (R1 w I) as Rw.
      apply (resolves_shape _ (handStore st2)) in Rw; [|apply Sh].
      destruct Rw as (arr & h & G & Nh & E). exists arr, h.
      split; [assumption|]. split; [assumption|].
      intros k q Ck. rewrite E. exact (best_bound _ _ B _ _ Ck).
    - now rewrite !length_map. }
  destruct (1 <? length (winners st1))%nat.
  - destruct (tieBreak players (private cardsObj) (winners st1) _)
      as [st2| |] eqn:TB; simpl; try discriminate.
    apply Fin.
    + intros pid. exact (tieBreak_shape _ _ _ _ _ pid TB).
    + intros w I. destruct (tieBreak_sound _ _ _ _ _ TB) as (_ & _ & Wn).
      destruct (Wn w I) as [[[] _]|[Iw _]]. exact Iw.
  - simpl. apply Fin; auto.
Qed.

Lemma scoreHands_hands_recorded_witness :
  exists result,
    scoreHands [Sample.P1; Sample.P2] Sample.showdown = Resolved result
    /\ exists arr,
         objGet (hands result) "P1" = Some arr
         /\ map shapeOf arr
            = map (fun perm => shapeOf (scoredHand perm))
                (createCardPermutations
                   ([Sample.card Hearts 2; Sample.card Diamonds 3]
                    ++ public Sample.showdown)).
Proof.
  eexists. split; [vm_compute; reflexivity|].
  refine (proj1 (scoreHands_hands_recorded [Sample.P1; Sample.P2]
                   Sample.showdown _ _ _)
            "P1" [Sample.card Hearts 2; Sample.card Diamonds 3] 0%nat
            Sample.P1 (or_introl eq_refl) eq_refl eq_refl eq_refl).
  - repeat (apply List.NoDup_cons; [simpl; intuition discriminate|]).
    apply List.NoDup_nil.
  - vm_compute. reflexivity.
Defined.
